(** * A shallow embedding of the NEAT core (src/src/neat.c)

    The C program evolves small neural networks.  This development embeds
    the genome operations, the innovation registry, the evaluator, the
    compatibility metric and the generation pipeline of [neat.c] as Rocq
    functions, and states the behaviour of that code as theorems.

    Conventions of the embedding.
    - A C [double] is a primitive binary64 float of Rocq ([float]); the
      arithmetic is the IEEE arithmetic the C program runs on.
    - The functions of the C math library ([exp], [log], [cos], [sin],
      [tanh]) are not part of the repository; they are the fields of a
      record [libm] that the definitions take as a parameter.
    - A C array with its element count is a list.  The capacity fields
      describe the allocation and are not fields of the records; the
      capacity of the connection array follows from the number of
      connections ([connection_capacity]).
    - An [int] is a [Z].  Counters of the program ([next_innovation], node
      ids, list lengths) stay far below 2^31 and are not wrapped; the
      conversions between [double], [int] and [unsigned long] are written
      out.  The data model is LP64 ([unsigned long] and [size_t] have 64
      bits, [int] has 32).
    - The pseudo random generator is the global [g_random_seed]; it is
      threaded through every function that draws from it (type [Rand]).
    - A pointer to a genome held by a population is the index of the genome
      in the population's genome vector.
    - A loop that need not terminate takes a bound [fuel] on its
      iterations and yields [None] when the bound is reached. *)

From Stdlib Require Import ZArith Floats Lia Bool.
From Stdlib Require Uint63.
From stdpp Require Import base list.

Set Warnings "-inexact-float".
Local Open Scope Z_scope.

(** ** Numbers *)

Definition double := float.
Bind Scope float_scope with double.

(** The math library the program links against. *)
Record libm := Libm {
  libm_exp : double -> double;
  libm_log : double -> double;
  libm_cos : double -> double;
  libm_sin : double -> double;
  libm_tanh : double -> double
}.

Definition INT_MIN : Z := - 2 ^ 31.
Definition INT_MAX : Z := 2 ^ 31 - 1.

(** Conversion of an [unsigned long] value to [int]: the low 32 bits, read
    as a two's complement number. *)
Definition to_int (z : Z) : Z := (z + 2 ^ 31) mod 2 ^ 32 - 2 ^ 31.

(** [(double)n] for an unsigned value below 2^63 (every element count and
    every 32 bit value is): the nearest binary64 number. *)
Definition double_of_uint (z : Z) : double := of_uint63 (Uint63.of_Z z).

(** [(double)n] for a [size_t] element count. *)
Definition double_of_size_t (n : nat) : double := double_of_uint (Z.of_nat n).

(** [(double)i] for an [int]. *)
Definition double_of_int (z : Z) : double :=
  if z <? 0 then (- double_of_uint (- z))%float else double_of_uint z.

(** [(double)x] for an [unsigned long] of 64 bits.  The high half times
    2^32 and the low half are both exact, so the one rounding of the sum
    is the rounding of the conversion. *)
Definition double_of_ulong (x : Z) : double :=
  (double_of_uint (x / 2 ^ 32) * 4294967296 + double_of_uint (x mod 2 ^ 32))%float.

(** [(int)d]: truncation toward zero.  The conversion of a NaN or of a
    value outside the range of [int] is undefined in C; x86-64 produces
    [INT_MIN] there, and so does this definition. *)
Definition double_to_int (d : double) : Z :=
  match Prim2SF d with
  | S754_zero _ => 0
  | S754_finite s m e =>
      let mag := if 0 <=? e then Zpos m * 2 ^ e else Zpos m / 2 ^ (- e) in
      let v := if s then - mag else mag in
      if (INT_MIN <=? v) && (v <=? INT_MAX) then v else INT_MIN
  | _ => INT_MIN
  end.

(** A [double] that is neither an infinity nor a NaN. *)
Definition finite_double (x : double) : bool :=
  match Prim2SF x with
  | S754_zero _ | S754_finite _ _ _ => true
  | _ => false
  end.

(** ** Configuration constants (include/config.h) *)

Definition NEAT_DEFAULT_ALLOC_SIZE : nat := 128.
Definition NEAT_GROWTH_FACTOR : nat := 2.
Definition NEAT_MAX_ACTIVATION_FUNCS : Z := 10.
Definition NEAT_MAX_INPUTS : nat := 1000.
Definition NEAT_MAX_OUTPUTS : nat := 100.
Definition NEAT_COMPATIBILITY_THRESHOLD : double := 3.0%float.
Definition NEAT_EXCESS_COEFF : double := 1.0%float.
Definition NEAT_DISJOINT_COEFF : double := 1.0%float.
Definition NEAT_WEIGHT_COEFF : double := 0.4%float.
Definition NEAT_MUTATE_NODE_RATE : double := 0.03%float.
Definition NEAT_MUTATE_LINK_RATE : double := 0.05%float.
Definition NEAT_MUTATE_WEIGHT_RATE : double := 0.8%float.
Definition NEAT_MUTATE_TOGGLE_LINK_RATE : double := 0.1%float.
Definition NEAT_MUTATE_ACTIVATION_RATE : double := 0.1%float.
Definition NEAT_WEIGHT_MUTATION_POWER : double := 2.5%float.
Definition NEAT_WEIGHT_RANDOM_STRENGTH : double := 1.0%float.
Definition NEAT_DEFAULT_STAGNATION_LIMIT : Z := 15.

(** [neat.c] defines [NEAT_ALLOW_RECURRENT] as 0 unless the build sets it. *)
Definition NEAT_ALLOW_RECURRENT : bool := false.

Definition M_PI : double := 3.14159265358979323846%float.

Inductive neat_activation_type_t :=
  | NEAT_ACTIVATION_SIGMOID
  | NEAT_ACTIVATION_TANH
  | NEAT_ACTIVATION_RELU
  | NEAT_ACTIVATION_LEAKY_RELU
  | NEAT_ACTIVATION_LINEAR
  | NEAT_ACTIVATION_STEP
  | NEAT_ACTIVATION_SOFTSIGN
  | NEAT_ACTIVATION_SIN
  | NEAT_ACTIVATION_GAUSSIAN
  | NEAT_ACTIVATION_ABS.

Inductive neat_node_type_t :=
  | NEAT_NODE_INPUT
  | NEAT_NODE_HIDDEN
  | NEAT_NODE_OUTPUT
  | NEAT_NODE_BIAS.

Inductive neat_node_placement_t :=
  | NEAT_PLACEMENT_INPUT
  | NEAT_PLACEMENT_HIDDEN
  | NEAT_PLACEMENT_OUTPUT.

(** The value an [int] has as an activation kind (the enumerators count
    from 0); the evaluator treats any other value as the sigmoid. *)
Definition activation_of_int (z : Z) : neat_activation_type_t :=
  match z with
  | 0 => NEAT_ACTIVATION_SIGMOID
  | 1 => NEAT_ACTIVATION_TANH
  | 2 => NEAT_ACTIVATION_RELU
  | 3 => NEAT_ACTIVATION_LEAKY_RELU
  | 4 => NEAT_ACTIVATION_LINEAR
  | 5 => NEAT_ACTIVATION_STEP
  | 6 => NEAT_ACTIVATION_SOFTSIGN
  | 7 => NEAT_ACTIVATION_SIN
  | 8 => NEAT_ACTIVATION_GAUSSIAN
  | 9 => NEAT_ACTIVATION_ABS
  | _ => NEAT_ACTIVATION_SIGMOID
  end.

Definition is_input (t : neat_node_type_t) : bool :=
  match t with NEAT_NODE_INPUT => true | _ => false end.
Definition is_bias (t : neat_node_type_t) : bool :=
  match t with NEAT_NODE_BIAS => true | _ => false end.
Definition is_output (t : neat_node_type_t) : bool :=
  match t with NEAT_NODE_OUTPUT => true | _ => false end.

(** ** Data model (include/neat.h)

    Field [f] of [struct neat_node] is [node_f], of [struct neat_connection]
    [conn_f], and so on: Rocq has one name space for all record fields. *)

Record neat_node_t := Node {
  node_id : Z;
  node_type : neat_node_type_t;
  node_placement : neat_node_placement_t;
  node_activation_type : neat_activation_type_t;
  node_value : double;
  node_bias : double;
  node_active : bool;
  node_x_pos : Z
}.

Record neat_connection_t := Connection {
  conn_innovation : Z;
  conn_in_node : Z;
  conn_out_node : Z;
  conn_weight : double;
  conn_enabled : bool
}.

(** [evaluation_order] is [None] for the NULL pointer; its size field is the
    length of the list. *)
Record neat_genome_t := Genome {
  genome_id : Z;
  nodes : list neat_node_t;
  connections : list neat_connection_t;
  fitness : double;
  adjusted_fitness : double;
  global_rank : Z;
  species_id : Z;
  evaluation_order : option (list Z)
}.

Definition node_count (g : neat_genome_t) : nat := length (nodes g).
Definition connection_count (g : neat_genome_t) : nat := length (connections g).

Record neat_innovation_t := Innovation {
  innov_innovation_id : Z;
  innov_in_node : Z;
  innov_out_node : Z;
  innov_innovation_number : Z;
  innov_is_new_node : bool;
  innov_node_id : Z;
  innov_weight : double
}.

Record neat_innovation_table_t := InnovationTable {
  innovations : list neat_innovation_t;
  next_innovation : Z;
  next_node_id : Z;
  next_species_id : Z
}.

(** [members] and [representative] point to genomes of the population: they
    are indices into its genome vector.  The [champion] field is never
    written or read by [neat.c] and is left out. *)
Record neat_species_t := Species {
  species_ident : Z;
  members : list nat;
  best_fitness : double;
  average_fitness : double;
  staleness : Z;
  age : Z;
  representative : option nat
}.

Definition member_count (s : neat_species_t) : nat := length (members s).

(** The fitness callback receives a pointer to the genome and may change
    the genome through it (calling the evaluator does); it yields the
    fitness and the genome as it left it.  [evaluate_user_data] is part of
    the closure.  [max_fitness_achieved] is an [int] in the C struct. *)
Record neat_population_t := Population {
  genomes : list neat_genome_t;
  species : list neat_species_t;
  innovation_table : neat_innovation_table_t;
  population_size : nat;
  generation : Z;
  max_fitness_achieved : Z;
  evaluate_genome : option (neat_genome_t -> double * neat_genome_t)
}.

Definition genome_count (p : neat_population_t) : nat := length (genomes p).
Definition species_count (p : neat_population_t) : nat := length (species p).

(** Field updates. *)

Definition node_with_value (v : double) (n : neat_node_t) : neat_node_t :=
  Node (node_id n) (node_type n) (node_placement n) (node_activation_type n)
       v (node_bias n) (node_active n) (node_x_pos n).
Definition node_with_bias (b : double) (n : neat_node_t) : neat_node_t :=
  Node (node_id n) (node_type n) (node_placement n) (node_activation_type n)
       (node_value n) b (node_active n) (node_x_pos n).
Definition node_with_activation_type (a : neat_activation_type_t) (n : neat_node_t) : neat_node_t :=
  Node (node_id n) (node_type n) (node_placement n) a
       (node_value n) (node_bias n) (node_active n) (node_x_pos n).

Definition conn_with_innovation (i : Z) (c : neat_connection_t) : neat_connection_t :=
  Connection i (conn_in_node c) (conn_out_node c) (conn_weight c) (conn_enabled c).
Definition conn_with_weight (w : double) (c : neat_connection_t) : neat_connection_t :=
  Connection (conn_innovation c) (conn_in_node c) (conn_out_node c) w (conn_enabled c).
Definition conn_with_enabled (e : bool) (c : neat_connection_t) : neat_connection_t :=
  Connection (conn_innovation c) (conn_in_node c) (conn_out_node c) (conn_weight c) e.

Definition genome_with_nodes (ns : list neat_node_t) (g : neat_genome_t) : neat_genome_t :=
  Genome (genome_id g) ns (connections g) (fitness g) (adjusted_fitness g)
         (global_rank g) (species_id g) (evaluation_order g).
Definition genome_with_connections (cs : list neat_connection_t) (g : neat_genome_t) : neat_genome_t :=
  Genome (genome_id g) (nodes g) cs (fitness g) (adjusted_fitness g)
         (global_rank g) (species_id g) (evaluation_order g).
Definition genome_with_fitness (f : double) (g : neat_genome_t) : neat_genome_t :=
  Genome (genome_id g) (nodes g) (connections g) f (adjusted_fitness g)
         (global_rank g) (species_id g) (evaluation_order g).
Definition genome_with_adjusted_fitness (f : double) (g : neat_genome_t) : neat_genome_t :=
  Genome (genome_id g) (nodes g) (connections g) (fitness g) f
         (global_rank g) (species_id g) (evaluation_order g).
Definition genome_with_evaluation_order (o : option (list Z)) (g : neat_genome_t) : neat_genome_t :=
  Genome (genome_id g) (nodes g) (connections g) (fitness g) (adjusted_fitness g)
         (global_rank g) (species_id g) o.

(** [a[i]] for an [int] index; [None] is an access outside the array, which
    is undefined behaviour in C. *)
Definition array_get {A} (l : list A) (i : Z) : option A :=
  if i <? 0 then None else l !! Z.to_nat i.

(** ** The random number generator *)

Definition ULONG_BITS : Z := 64.
Definition UINT32_MAX : Z := 4294967295.

(** A computation that reads and advances [g_random_seed]. *)
Definition Rand (A : Type) : Type := Z -> A * Z.

Definition ret {A} (a : A) : Rand A := fun seed => (a, seed).
Definition bind {A B} (m : Rand A) (k : A -> Rand B) : Rand B :=
  fun seed => let '(a, seed') := m seed in k a seed'.

Notation "'let*' x ':=' m 'in' k" := (bind m (fun x => k))
  (at level 10, x pattern, m at level 100, k at level 200).

(** [neat_srand]: the argument is an [unsigned long]; it replaces the
    state. *)
Definition neat_srand (seed : Z) : Rand unit := fun _ => (tt, seed).

(** [xorshift32]: the state is an [unsigned long], so the left shifts drop
    the bits above [ULONG_BITS]. *)
Definition xorshift32 : Rand Z := fun g_random_seed =>
  let x := g_random_seed in
  let x := Z.lxor x (Z.shiftl x 13 mod 2 ^ ULONG_BITS) in
  let x := Z.lxor x (Z.shiftr x 17) in
  let x := Z.lxor x (Z.shiftl x 5 mod 2 ^ ULONG_BITS) in
  (x, x).

Definition neat_random_uniform (min max : double) : Rand double :=
  let* x := xorshift32 in
  ret (min + (max - min) * (double_of_ulong x / double_of_uint UINT32_MAX))%float.

Definition neat_random_normal (M : libm) (mean stddev : double) : Rand double :=
  let* u1 := neat_random_uniform 0 1 in
  let* u2 := neat_random_uniform 0 1 in
  let z0 := (PrimFloat.sqrt (-2.0 * libm_log M u1) * libm_cos M (2.0 * M_PI * u2))%float in
  ret (mean + stddev * z0)%float.

(** [min + (xorshift32() % (max - min + 1))]: the modulus is taken in
    [unsigned long] and the sum is converted back to [int].  (A modulus of
    0 is a division by zero in C; no caller passes [max < min].) *)
Definition neat_random_int (min max : Z) : Rand Z :=
  let* x := xorshift32 in
  ret (to_int ((min + x mod ((max - min + 1) mod 2 ^ ULONG_BITS)) mod 2 ^ ULONG_BITS)).

(** ** Activation functions *)

Definition neat_activation (M : libm) (type : neat_activation_type_t) (x : double) : double :=
  match type with
  | NEAT_ACTIVATION_SIGMOID => 1.0 / (1.0 + libm_exp M (- x))
  | NEAT_ACTIVATION_TANH => libm_tanh M x
  | NEAT_ACTIVATION_RELU => if 0.0 <? x then x else 0.0
  | NEAT_ACTIVATION_LEAKY_RELU => if 0.0 <? x then x else 0.01 * x
  | NEAT_ACTIVATION_LINEAR => x
  | NEAT_ACTIVATION_STEP => if 0.0 <? x then 1.0 else 0.0
  | NEAT_ACTIVATION_SOFTSIGN => x / (1.0 + abs x)
  | NEAT_ACTIVATION_SIN => libm_sin M x
  | NEAT_ACTIVATION_GAUSSIAN => libm_exp M (- (x * x))
  | NEAT_ACTIVATION_ABS => abs x
  end%float.

(** The activation functions of the public interface.  [neat_sigmoid] has
    the steepness 4.9; the evaluator's own sigmoid above has none. *)
Definition neat_sigmoid (M : libm) (x : double) : double :=
  (1.0 / (1.0 + libm_exp M ((-4.9) * x)))%float.
Definition neat_tanh (M : libm) (x : double) : double := libm_tanh M x.
Definition neat_relu (x : double) : double := if (0.0 <? x)%float then x else 0.0%float.
Definition neat_leaky_relu (x : double) : double :=
  if (0.0 <? x)%float then x else (0.01 * x)%float.
Definition neat_linear (x : double) : double := x.
Definition neat_step (x : double) : double := if (0.0 <? x)%float then 1.0%float else 0.0%float.
Definition neat_softsign (x : double) : double := (x / (1.0 + abs x))%float.
Definition neat_sin (M : libm) (x : double) : double := libm_sin M x.
Definition neat_gaussian (M : libm) (x : double) : double := libm_exp M (- (x * x))%float.
Definition neat_abs (x : double) : double := abs x.

Definition neat_get_activation_function (M : libm) (type : neat_activation_type_t)
    : double -> double :=
  match type with
  | NEAT_ACTIVATION_SIGMOID => neat_sigmoid M
  | NEAT_ACTIVATION_TANH => neat_tanh M
  | NEAT_ACTIVATION_RELU => neat_relu
  | NEAT_ACTIVATION_LEAKY_RELU => neat_leaky_relu
  | NEAT_ACTIVATION_LINEAR => neat_linear
  | NEAT_ACTIVATION_STEP => neat_step
  | NEAT_ACTIVATION_SOFTSIGN => neat_softsign
  | NEAT_ACTIVATION_SIN => neat_sin M
  | NEAT_ACTIVATION_GAUSSIAN => neat_gaussian M
  | NEAT_ACTIVATION_ABS => neat_abs
  end.

(** ** Nodes, connections, genomes *)

Definition neat_create_node (M : libm) (id : Z) (type : neat_node_type_t)
    (placement : neat_node_placement_t) : Rand neat_node_t :=
  let* bias := neat_random_normal M 0.0 1.0 in
  ret (Node id type placement NEAT_ACTIVATION_SIGMOID 0.0 bias true 0).

Definition neat_create_connection (innovation in_node out_node : Z)
    (weight : double) (enabled : bool) : neat_connection_t :=
  Connection innovation in_node out_node weight enabled.

Definition neat_create_genome (id : Z) : neat_genome_t :=
  Genome id [] [] 0.0 0.0 0 (-1) None.

(** [neat_add_node]: the new node is stored at index [node_count] with that
    index as its id, the count grows by one and the id is returned.  The
    statements after the first [return new_id] (they free and clear
    [evaluation_order]) are never executed: the order is left as it is. *)
Definition neat_add_node (M : libm) (genome : neat_genome_t) (type : neat_node_type_t)
    (placement : neat_node_placement_t) : Rand (Z * neat_genome_t) :=
  let* new_node := neat_create_node M (Z.of_nat (node_count genome)) type placement in
  let new_id := Z.of_nat (node_count genome) in
  ret (new_id, genome_with_nodes (nodes genome ++ [new_node]) genome).

(** The scan of [neat_add_connection] for an existing connection with the
    same endpoints. *)
Definition connection_exists (cs : list neat_connection_t) (in_node out_node : Z) : bool :=
  existsb (fun conn => (conn_in_node conn =? in_node) && (conn_out_node conn =? out_node)) cs.

(** [neat_add_connection]: -1 when the endpoint pair is already present,
    otherwise the connection is appended with innovation -1, the cached
    evaluation order is dropped and 0 is returned. *)
Definition neat_add_connection (genome : neat_genome_t) (in_node out_node : Z)
    (weight : double) (enabled : bool) : Z * neat_genome_t :=
  if connection_exists (connections genome) in_node out_node then (-1, genome)
  else
    let conn := neat_create_connection (-1) in_node out_node weight enabled in
    (0, genome_with_evaluation_order None
          (genome_with_connections (connections genome ++ [conn]) genome)).

(** [connection_capacity] of a genome that [neat_create_genome] and
    [neat_add_connection] have built, when it holds [count] connections.
    [neat_create_genome] allocates the connection array with
    [NEAT_DEFAULT_ALLOC_SIZE] slots; [neat_add_connection], the only
    function that appends to it, multiplies the capacity by
    [NEAT_GROWTH_FACTOR] when it finds the array full
    ([connection_count >= connection_capacity]) and then moves the array
    with [neat_realloc]; no function removes a connection or shrinks the
    array. *)
Fixpoint connection_capacity (count : nat) : nat :=
  match count with
  | O => NEAT_DEFAULT_ALLOC_SIZE
  | S n =>
      let capacity := connection_capacity n in
      if (capacity <=? n)%nat then (capacity * NEAT_GROWTH_FACTOR)%nat else capacity
  end.

(** The connection array has a free slot: the next [neat_add_connection]
    stores its connection without moving the array. *)
Definition connections_have_room (genome : neat_genome_t) : Prop :=
  (connection_count genome < connection_capacity (connection_count genome))%nat.

(** ** Network evaluation *)

(** The inner loop of [neat_update_network]: the weighted sum of the values
    of the sources of the enabled connections into [node_id], in the order
    of the connection array, starting from [sum]. *)
Fixpoint sum_inputs (ns : list neat_node_t) (cs : list neat_connection_t)
    (id : Z) (sum : double) : option double :=
  match cs with
  | [] => Some sum
  | conn :: cs' =>
      if (conn_out_node conn =? id) && conn_enabled conn then
        match array_get ns (conn_in_node conn) with
        | None => None
        | Some in_node =>
            sum_inputs ns cs' id
              (if node_active in_node
               then (sum + node_value in_node * conn_weight conn)%float
               else sum)
        end
      else sum_inputs ns cs' id sum
  end.

(** The loop over [evaluation_order]: input nodes are skipped, every other
    node gets [neat_activation (sum + bias)]. *)
Fixpoint evaluate_in_order (M : libm) (order : list Z) (cs : list neat_connection_t)
    (ns : list neat_node_t) : option (list neat_node_t) :=
  match order with
  | [] => Some ns
  | node_idx :: order' =>
      match array_get ns node_idx with
      | None => None
      | Some node =>
          if is_input (node_type node) then evaluate_in_order M order' cs ns
          else
            match sum_inputs ns cs (node_id node) 0.0 with
            | None => None
            | Some sum =>
                let sum := (sum + node_bias node)%float in
                let v := neat_activation M (node_activation_type node) sum in
                evaluate_in_order M order' cs
                  (<[Z.to_nat node_idx := node_with_value v node]> ns)
            end
      end
  end.

(** The order computed when none is cached: the node indices 0 .. n-1. *)
Definition default_evaluation_order (n : nat) : list Z := map Z.of_nat (seq 0 n).

(** "Reset node values (except inputs)". *)
Definition reset_values (ns : list neat_node_t) : list neat_node_t :=
  map (fun n => if is_input (node_type n) then n else node_with_value 0.0 n) ns.

Definition neat_update_network (M : libm) (genome : neat_genome_t) : option neat_genome_t :=
  let order :=
    match evaluation_order genome with
    | Some o => o
    | None => default_evaluation_order (node_count genome)
    end in
  match evaluate_in_order M order (connections genome) (reset_values (nodes genome)) with
  | None => None
  | Some ns => Some (genome_with_evaluation_order (Some order) (genome_with_nodes ns genome))
  end.

(** The first loop of [neat_evaluate]: [input_count] counts the input nodes
    met so far and indexes [inputs]. *)
Fixpoint set_inputs (ns : list neat_node_t) (inputs : list double) (input_count : nat)
    : option (list neat_node_t) :=
  match ns with
  | [] => Some []
  | node :: ns' =>
      match node_type node with
      | NEAT_NODE_INPUT =>
          if (input_count <? NEAT_MAX_INPUTS)%nat then
            match inputs !! input_count with
            | None => None
            | Some x =>
                match set_inputs ns' inputs (S input_count) with
                | None => None
                | Some r => Some (node_with_value x node :: r)
                end
            end
          else
            match set_inputs ns' inputs input_count with
            | None => None
            | Some r => Some (node_with_value 0.0 node :: r)
            end
      | NEAT_NODE_BIAS =>
          match set_inputs ns' inputs input_count with
          | None => None
          | Some r => Some (node_with_value 1.0 node :: r)
          end
      | _ =>
          match set_inputs ns' inputs input_count with
          | None => None
          | Some r => Some (node_with_value 0.0 node :: r)
          end
      end
  end.

(** The last loop of [neat_evaluate]: the values written to [outputs], in
    order; at most [NEAT_MAX_OUTPUTS] of them. *)
Definition collect_outputs (ns : list neat_node_t) : list double :=
  take NEAT_MAX_OUTPUTS (map node_value (List.filter (fun n => is_output (node_type n)) ns)).

(** [neat_evaluate]: the genome after the call and the values stored in
    [outputs].  [inputs] is the array the caller passed, as far as it
    extends; the function receives no length.  [None]: the call read
    outside [inputs] or outside the node array. *)
Definition neat_evaluate (M : libm) (genome : neat_genome_t) (inputs : list double)
    : option (neat_genome_t * list double) :=
  match set_inputs (nodes genome) inputs 0 with
  | None => None
  | Some ns =>
      match neat_update_network M (genome_with_nodes ns genome) with
      | None => None
      | Some genome' => Some (genome', collect_outputs (nodes genome'))
      end
  end.

(** ** The innovation table *)

Definition neat_create_innovation_table : neat_innovation_table_t :=
  InnovationTable [] 1 1 1.

Definition innovation_matches (in_node out_node : Z) (is_new_node : bool)
    (innov : neat_innovation_t) : bool :=
  (innov_in_node innov =? in_node) && (innov_out_node innov =? out_node)
  && Bool.eqb (innov_is_new_node innov) is_new_node.

(** [neat_get_innovation]: the number of the first record with the same
    endpoints and kind, or a new record.  A new record takes one value of
    [next_innovation] for its [innovation_id], and its number is the next
    value of [next_node_id] (node kind) or of [next_innovation]. *)
Definition neat_get_innovation (table : neat_innovation_table_t) (in_node out_node : Z)
    (is_new_node : bool) (node_id : Z) (weight : double)
    : Z * neat_innovation_table_t :=
  match find (innovation_matches in_node out_node is_new_node) (innovations table) with
  | Some innov => (innov_innovation_number innov, table)
  | None =>
      let innovation_id := next_innovation table in
      let next_innovation' := next_innovation table + 1 in
      if is_new_node then
        let number := next_node_id table in
        (number,
         InnovationTable
           (innovations table ++
              [Innovation innovation_id in_node out_node number is_new_node node_id weight])
           next_innovation' (next_node_id table + 1) (next_species_id table))
      else
        let number := next_innovation' in
        (number,
         InnovationTable
           (innovations table ++
              [Innovation innovation_id in_node out_node number is_new_node 0 weight])
           (next_innovation' + 1) (next_node_id table) (next_species_id table))
  end.

(** The mutation operators take the table by pointer and skip the registry
    when the pointer is NULL ([None]). *)
Definition get_innovation_opt (table : option neat_innovation_table_t)
    (in_node out_node : Z) (weight : double) : Z * option neat_innovation_table_t :=
  match table with
  | Some t =>
      let '(i, t') := neat_get_innovation t in_node out_node false (-1) weight in (i, Some t')
  | None => (-1, None)
  end.

(** ** Mutation operators *)

Fixpoint mutate_connection_weights (M : libm) (cs : list neat_connection_t)
    : Rand (list neat_connection_t) :=
  match cs with
  | [] => ret []
  | conn :: cs' =>
      let* u := neat_random_uniform 0.0 1.0 in
      let* conn' :=
        if (u <? NEAT_WEIGHT_MUTATION_POWER)%float then
          let* d := neat_random_normal M 0.0 NEAT_WEIGHT_RANDOM_STRENGTH in
          let w := (conn_weight conn + d)%float in
          let* u2 := neat_random_uniform 0.0 1.0 in
          if (u2 <? 0.1)%float then
            let* w' := neat_random_normal M 0.0 NEAT_WEIGHT_RANDOM_STRENGTH in
            ret (conn_with_weight w' conn)
          else ret (conn_with_weight w conn)
        else ret conn in
      let* rest := mutate_connection_weights M cs' in
      ret (conn' :: rest)
  end.

Fixpoint mutate_node_biases (M : libm) (ns : list neat_node_t) : Rand (list neat_node_t) :=
  match ns with
  | [] => ret []
  | node :: ns' =>
      let* u := neat_random_uniform 0.0 1.0 in
      let* node' :=
        if (u <? NEAT_MUTATE_WEIGHT_RATE)%float then
          let* d := neat_random_normal M 0.0 NEAT_WEIGHT_RANDOM_STRENGTH in
          ret (node_with_bias (node_bias node + d)%float node)
        else ret node in
      let* rest := mutate_node_biases M ns' in
      ret (node' :: rest)
  end.

Definition neat_mutate_weights (M : libm) (genome : neat_genome_t) : Rand neat_genome_t :=
  let* cs := mutate_connection_weights M (connections genome) in
  let* ns := mutate_node_biases M (nodes genome) in
  ret (genome_with_nodes ns (genome_with_connections cs genome)).

(** [genome->connections[i].innovation = v]. *)
Definition set_innovation_at (i : nat) (v : Z) (genome : neat_genome_t) : neat_genome_t :=
  genome_with_connections (alter (conn_with_innovation v) i (connections genome)) genome.

(** [neat_mutate_add_connection].  The node indices drawn are below
    [node_count]; the last case of the [match] is not reached. *)
Definition neat_mutate_add_connection (M : libm) (genome : neat_genome_t)
    (table : option neat_innovation_table_t)
    : Rand (neat_genome_t * option neat_innovation_table_t) :=
  if (node_count genome <? 2)%nat then ret (genome, table)
  else
    let* from_node_idx := neat_random_int 0 (Z.of_nat (node_count genome) - 1) in
    let* to_node_idx := neat_random_int 0 (Z.of_nat (node_count genome) - 1) in
    if from_node_idx =? to_node_idx then ret (genome, table)
    else
      match array_get (nodes genome) from_node_idx, array_get (nodes genome) to_node_idx with
      | Some from_node, Some to_node =>
          if negb NEAT_ALLOW_RECURRENT && (node_x_pos to_node <=? node_x_pos from_node)
          then ret (genome, table)
          else if connection_exists (connections genome) (node_id from_node) (node_id to_node)
          then ret (genome, table)
          else
            let* weight := neat_random_normal M 0.0 NEAT_WEIGHT_RANDOM_STRENGTH in
            let '(innovation, table') :=
              get_innovation_opt table (node_id from_node) (node_id to_node) weight in
            let genome' :=
              snd (neat_add_connection genome (node_id from_node) (node_id to_node) weight true) in
            if negb (innovation =? -1) && (0 <? connection_count genome')%nat
            then ret (set_innovation_at (connection_count genome' - 1) innovation genome', table')
            else ret (genome', table')
      | _, _ => ret (genome, table)
      end.

(** The search loop of [neat_mutate_add_node]: up to [attempts] draws of a
    connection index, stopping at the first enabled connection. *)
Fixpoint pick_enabled_connection (attempts : nat) (cs : list neat_connection_t)
    : Rand (option nat) :=
  match attempts with
  | O => ret None
  | S attempts' =>
      let* conn_index := neat_random_int 0 (Z.of_nat (length cs) - 1) in
      match array_get cs conn_index with
      | Some conn =>
          if conn_enabled conn then ret (Some (Z.to_nat conn_index))
          else pick_enabled_connection attempts' cs
      | None => ret None
      end
  end.

(** [neat_mutate_add_node].  The id of the new node is the one
    [neat_add_node] returns, the node count of this genome; the registry is
    asked for the two connections [in -> new] and [new -> out] as
    connection records ([is_new_node] false).

    In the C code [conn_to_split] is a pointer into the connection array,
    and [conn_to_split->out_node] is read again for the second
    [neat_add_connection], after the first one has run.  Here the
    connection is read once, by value.  That is the C function as long as
    the first [neat_add_connection] does not move the array, which is the
    case when the array has a free slot ([connections_have_room]); on a
    full array the C code reads [out_node] through a pointer into the
    block that [neat_realloc] has released, and its behaviour is not
    defined. *)
Definition neat_mutate_add_node (M : libm) (genome : neat_genome_t)
    (table : option neat_innovation_table_t)
    : Rand (neat_genome_t * option neat_innovation_table_t) :=
  if (connection_count genome =? 0)%nat then ret (genome, table)
  else
    let* found := pick_enabled_connection 100 (connections genome) in
    match found with
    | None => ret (genome, table)
    | Some conn_index =>
        match connections genome !! conn_index with
        | None => ret (genome, table)
        | Some conn_to_split =>
            let genome :=
              genome_with_connections
                (alter (conn_with_enabled false) conn_index (connections genome)) genome in
            let* (new_node_id, genome) :=
              neat_add_node M genome NEAT_NODE_HIDDEN NEAT_PLACEMENT_HIDDEN in
            let weight1 := 1.0%float in
            let weight2 := conn_weight conn_to_split in
            let '(innovation1, table) :=
              get_innovation_opt table (conn_in_node conn_to_split) new_node_id weight1 in
            let '(innovation2, table) :=
              get_innovation_opt table new_node_id (conn_out_node conn_to_split) weight2 in
            let genome :=
              snd (neat_add_connection genome (conn_in_node conn_to_split) new_node_id weight1 true) in
            let genome :=
              snd (neat_add_connection genome new_node_id (conn_out_node conn_to_split) weight2 true) in
            if negb (innovation1 =? -1) && (1 <? connection_count genome)%nat then
              ret (set_innovation_at (connection_count genome - 1) innovation2
                     (set_innovation_at (connection_count genome - 2) innovation1 genome),
                   table)
            else ret (genome, table)
        end
    end.

(** The first loop of [neat_mutate_toggle_connection]: [conn] is the index
    of the connection chosen so far; every enabled connection replaces it
    with probability [1.0 / enabled_count]. *)
Fixpoint choose_enabled (cs : list neat_connection_t) (i : nat) (enabled_count : Z)
    (conn : option nat) : Rand (Z * option nat) :=
  match cs with
  | [] => ret (enabled_count, conn)
  | c :: cs' =>
      if conn_enabled c then
        let enabled_count := enabled_count + 1 in
        let* u := neat_random_uniform 0.0 1.0 in
        if (u <? 1.0 / double_of_int enabled_count)%float
        then choose_enabled cs' (S i) enabled_count (Some i)
        else choose_enabled cs' (S i) enabled_count conn
      else choose_enabled cs' (S i) enabled_count conn
  end.

(** The second loop: enable the disabled connection number [target]. *)
Fixpoint enable_nth_disabled (cs : list neat_connection_t) (target found : Z)
    : list neat_connection_t :=
  match cs with
  | [] => []
  | c :: cs' =>
      if negb (conn_enabled c) then
        if found =? target then conn_with_enabled true c :: cs'
        else c :: enable_nth_disabled cs' target (found + 1)
      else c :: enable_nth_disabled cs' target found
  end.

Definition neat_mutate_toggle_connection (genome : neat_genome_t) : Rand neat_genome_t :=
  if (connection_count genome =? 0)%nat then ret genome
  else
    let* (enabled_count, conn) := choose_enabled (connections genome) 0 0 None in
    match conn with
    | None =>
        let disabled_count := Z.of_nat (connection_count genome) - enabled_count in
        if 0 <? disabled_count then
          let* target := neat_random_int 0 (disabled_count - 1) in
          ret (genome_with_connections
                 (enable_nth_disabled (connections genome) target 0) genome)
        else ret genome
    | Some i =>
        ret (genome_with_connections
               (alter (fun c => conn_with_enabled (negb (conn_enabled c)) c) i
                  (connections genome)) genome)
    end.

Definition neat_mutate_activation (genome : neat_genome_t) : Rand neat_genome_t :=
  if (node_count genome =? 0)%nat then ret genome
  else
    let* node_idx := neat_random_int 0 (Z.of_nat (node_count genome) - 1) in
    match array_get (nodes genome) node_idx with
    | None => ret genome
    | Some node =>
        if is_input (node_type node) || is_bias (node_type node) then ret genome
        else
          let* a := neat_random_int 0 (NEAT_MAX_ACTIVATION_FUNCS - 1) in
          ret (genome_with_nodes
                 (alter (node_with_activation_type (activation_of_int a))
                    (Z.to_nat node_idx) (nodes genome)) genome)
    end.

(** [neat_mutate]: the five operators in their fixed order, each behind its
    own draw. *)
Definition neat_mutate (M : libm) (genome : neat_genome_t)
    (table : option neat_innovation_table_t)
    : Rand (neat_genome_t * option neat_innovation_table_t) :=
  let* u := neat_random_uniform 0.0 1.0 in
  let* genome :=
    if (u <? NEAT_MUTATE_WEIGHT_RATE)%float then neat_mutate_weights M genome else ret genome in
  let* u := neat_random_uniform 0.0 1.0 in
  let* (genome, table) :=
    if (u <? NEAT_MUTATE_NODE_RATE)%float then neat_mutate_add_node M genome table
    else ret (genome, table) in
  let* u := neat_random_uniform 0.0 1.0 in
  let* (genome, table) :=
    if (u <? NEAT_MUTATE_LINK_RATE)%float then neat_mutate_add_connection M genome table
    else ret (genome, table) in
  let* u := neat_random_uniform 0.0 1.0 in
  let* genome :=
    if (u <? NEAT_MUTATE_TOGGLE_LINK_RATE)%float then neat_mutate_toggle_connection genome
    else ret genome in
  let* u := neat_random_uniform 0.0 1.0 in
  let* genome :=
    if (u <? NEAT_MUTATE_ACTIVATION_RATE)%float then neat_mutate_activation genome
    else ret genome in
  ret (genome, table).

(** ** Crossover *)

(** "Copy nodes from fitter parent": each node is added with
    [neat_add_node], then its bias and activation kind are copied. *)
Fixpoint copy_nodes (M : libm) (ns : list neat_node_t) (child : neat_genome_t)
    : Rand neat_genome_t :=
  match ns with
  | [] => ret child
  | node :: ns' =>
      let* (new_node_id, child) :=
        neat_add_node M child (node_type node) (node_placement node) in
      let child :=
        genome_with_nodes
          (alter (fun n => node_with_activation_type (node_activation_type node)
                             (node_with_bias (node_bias node) n))
                 (Z.to_nat new_node_id) (nodes child)) child in
      copy_nodes M ns' child
  end.

(** "Add connections from both parents": for every connection of the
    fitter parent, the first connection of the other parent with the same
    innovation number may replace it (one draw, only when there is a
    match); the chosen one is passed to [neat_add_connection]. *)
Fixpoint inherit_connections (cs other_cs : list neat_connection_t) (child : neat_genome_t)
    : Rand neat_genome_t :=
  match cs with
  | [] => ret child
  | conn :: cs' =>
      let* inherited_conn :=
        match find (fun c => conn_innovation c =? conn_innovation conn) other_cs with
        | Some matching_conn =>
            let* u := neat_random_uniform 0.0 1.0 in
            if (u <? 0.5)%float then ret matching_conn else ret conn
        | None => ret conn
        end in
      let child :=
        snd (neat_add_connection child (conn_in_node inherited_conn)
               (conn_out_node inherited_conn) (conn_weight inherited_conn)
               (conn_enabled inherited_conn)) in
      inherit_connections cs' other_cs child
  end.

(** "Add any remaining connections from the other parent": a connection
    whose innovation number the fitter parent lacks is added after a draw
    below 0.5. *)
Fixpoint inherit_remaining (cs fitter_cs : list neat_connection_t) (child : neat_genome_t)
    : Rand neat_genome_t :=
  match cs with
  | [] => ret child
  | conn :: cs' =>
      let exists_ := existsb (fun c => conn_innovation c =? conn_innovation conn) fitter_cs in
      let* child :=
        if negb exists_ then
          let* u := neat_random_uniform 0.0 1.0 in
          if (u <? 0.5)%float then
            ret (snd (neat_add_connection child (conn_in_node conn) (conn_out_node conn)
                        (conn_weight conn) (conn_enabled conn)))
          else ret child
        else ret child in
      inherit_remaining cs' fitter_cs child
  end.

Definition neat_crossover (M : libm) (parent1 parent2 : neat_genome_t) : Rand neat_genome_t :=
  let p1_fitter := (fitness parent2 <=? fitness parent1)%float in
  let fitter := if p1_fitter then parent1 else parent2 in
  let other := if p1_fitter then parent2 else parent1 in
  let child := neat_create_genome (-1) in
  let* child := copy_nodes M (nodes fitter) child in
  let* child := inherit_connections (connections fitter) (connections other) child in
  inherit_remaining (connections other) (connections fitter) child.

(** ** Compatibility distance *)

(** The merge loop of [neat_compatibility_distance] over the two connection
    arrays from positions [i] and [j]; the result is [matching],
    [disjoint], [weight_diff_sum] and the number of connections left in
    both arrays when one of them is exhausted. *)
Fixpoint compare_connections (cs1 : list neat_connection_t)
    : list neat_connection_t -> nat -> nat -> double -> nat * nat * double * nat :=
  fix against (cs2 : list neat_connection_t) (matching disjoint : nat)
      (weight_diff_sum : double) {struct cs2} :=
    match cs1, cs2 with
    | conn1 :: cs1', conn2 :: cs2' =>
        if conn_innovation conn1 =? conn_innovation conn2 then
          compare_connections cs1' cs2' (S matching) disjoint
            (weight_diff_sum + abs (conn_weight conn1 - conn_weight conn2))%float
        else if conn_innovation conn1 <? conn_innovation conn2 then
          compare_connections cs1' cs2 matching (S disjoint) weight_diff_sum
        else against cs2' matching (S disjoint) weight_diff_sum
    | _, _ => (matching, disjoint, weight_diff_sum, (length cs1 + length cs2)%nat)
    end.

Definition neat_compatibility_distance (genome1 genome2 : neat_genome_t) : double :=
  let '(matching, disjoint, weight_diff_sum, excess) :=
    compare_connections (connections genome1) (connections genome2) 0 0 0.0 in
  let N := double_of_size_t (Nat.max (connection_count genome1) (connection_count genome2)) in
  let N := if (N <? 20.0)%float then 1.0%float else N in
  let distance :=
    ((NEAT_EXCESS_COEFF * double_of_size_t excess) / N
     + (NEAT_DISJOINT_COEFF * double_of_size_t disjoint) / N)%float in
  if (0 <? matching)%nat then
    (distance + (NEAT_WEIGHT_COEFF * weight_diff_sum) / double_of_size_t matching)%float
  else distance.

(** ** Species *)

(** [*p] for a pointer to a genome of the population whose genome vector is
    [gs].  The member and representative pointers of a species are set by
    [neat_speciate] from the indices of that vector; a pointer outside it
    is a dangling pointer, whose use is undefined in C and reads an empty
    genome here. *)
Definition genome_at (gs : list neat_genome_t) (p : nat) : neat_genome_t :=
  default (neat_create_genome (-1)) (gs !! p).

Definition neat_create_species (id : Z) : neat_species_t :=
  Species id [] (-1e10)%float 0.0 0 0 None.

(** The sum of the members' fitness, from 0.0, in member order. *)
Definition sum_fitness (gs : list neat_genome_t) (ms : list nat) : double :=
  fold_left (fun acc m => (acc + fitness (genome_at gs m))%float) ms 0.0%float.

Definition neat_add_genome_to_species (gs : list neat_genome_t) (sp : neat_species_t)
    (genome : nat) : neat_species_t :=
  let ms := members sp ++ [genome] in
  let improved := (best_fitness sp <? fitness (genome_at gs genome))%float in
  Species (species_ident sp) ms
    (if improved then fitness (genome_at gs genome) else best_fitness sp)
    (sum_fitness gs ms / double_of_size_t (length ms))%float
    (if improved then 0 else staleness sp)
    (age sp) (representative sp).

(** The search of [neat_remove_genome_from_species]: the members without
    the first occurrence of [genome]; [None] when it is not a member. *)
Fixpoint remove_member (genome : nat) (ms : list nat) : option (list nat) :=
  match ms with
  | [] => None
  | m :: ms' =>
      if (m =? genome)%nat then Some ms'
      else
        match remove_member genome ms' with
        | Some r => Some (m :: r)
        | None => None
        end
  end.

(** [neat_remove_genome_from_species]: the first occurrence is removed and
    the average fitness is recomputed; it is the plain sum (0.0) when no
    member is left.  [best_fitness] and [staleness] are not touched. *)
Definition neat_remove_genome_from_species (gs : list neat_genome_t) (sp : neat_species_t)
    (genome : nat) : neat_species_t :=
  match remove_member genome (members sp) with
  | None => sp
  | Some ms =>
      let sum := sum_fitness gs ms in
      Species (species_ident sp) ms (best_fitness sp)
        (if (0 <? length ms)%nat then (sum / double_of_size_t (length ms))%float else sum)
        (staleness sp) (age sp) (representative sp)
  end.

(** [neat_adjust_fitness]: the adjusted fitness is written through the
    member pointers into the genomes of the population. *)
Definition neat_adjust_fitness (sp : neat_species_t) (gs : list neat_genome_t)
    : list neat_genome_t :=
  fold_left
    (fun gs m =>
       alter (fun g => genome_with_adjusted_fitness
                         (fitness g / double_of_size_t (member_count sp))%float g) m gs)
    (members sp) gs.

(** ** Population *)

Definition pop_with_genomes (gs : list neat_genome_t) (p : neat_population_t) : neat_population_t :=
  Population gs (species p) (innovation_table p) (population_size p) (generation p)
    (max_fitness_achieved p) (evaluate_genome p).
Definition pop_with_species (ss : list neat_species_t) (p : neat_population_t) : neat_population_t :=
  Population (genomes p) ss (innovation_table p) (population_size p) (generation p)
    (max_fitness_achieved p) (evaluate_genome p).
Definition pop_with_max_fitness (m : Z) (p : neat_population_t) : neat_population_t :=
  Population (genomes p) (species p) (innovation_table p) (population_size p) (generation p)
    m (evaluate_genome p).
Definition table_with_next_species_id (n : Z) (t : neat_innovation_table_t) : neat_innovation_table_t :=
  InnovationTable (innovations t) (next_innovation t) (next_node_id t) n.

(** The scan of [neat_speciate] over the species for genome [genome]: the
    genome joins the first species that has members and a representative
    within the compatibility threshold.  [None]: no species took it. *)
Fixpoint place_in_species (gs : list neat_genome_t) (genome : nat) (ss : list neat_species_t)
    : option (list neat_species_t) :=
  match ss with
  | [] => None
  | sp :: ss' =>
      let compatible :=
        match representative sp with
        | Some r =>
            (0 <? member_count sp)%nat
            && (neat_compatibility_distance (genome_at gs genome) (genome_at gs r)
                <? NEAT_COMPATIBILITY_THRESHOLD)%float
        | None => false
        end in
      if compatible then Some (neat_add_genome_to_species gs sp genome :: ss')
      else
        match place_in_species gs genome ss' with
        | Some r => Some (sp :: r)
        | None => None
        end
  end.

(** The loop of [neat_speciate] over the genomes [is_] (indices). *)
Fixpoint speciate_genomes (gs : list neat_genome_t) (is_ : list nat)
    (ss : list neat_species_t) (next_id : Z) : list neat_species_t * Z :=
  match is_ with
  | [] => (ss, next_id)
  | i :: is' =>
      match place_in_species gs i ss with
      | Some ss' => speciate_genomes gs is' ss' next_id
      | None =>
          let new_species :=
            Species next_id [] (-1e10)%float 0.0 0 0 (Some i) in
          speciate_genomes gs is' (ss ++ [neat_add_genome_to_species gs new_species i])
            (next_id + 1)
      end
  end.

(** [neat_speciate]: every species is freed and the list is rebuilt from
    the genomes.  Genome 0 founds the first species. *)
Definition neat_speciate (pop : neat_population_t) : neat_population_t :=
  match genomes pop with
  | [] => pop_with_species [] pop
  | _ :: _ =>
      let gs := genomes pop in
      let id0 := next_species_id (innovation_table pop) in
      let first_species :=
        neat_add_genome_to_species gs
          (Species id0 [] (-1e10)%float 0.0 0 0 (Some 0%nat)) 0%nat in
      let '(ss, next_id) :=
        speciate_genomes gs (seq 1 (length gs - 1)) [first_species] (id0 + 1) in
      let ss := List.filter (fun sp => negb (member_count sp =? 0)%nat) ss in
      Population gs ss (table_with_next_species_id next_id (innovation_table pop))
        (population_size pop) (generation pop) (max_fitness_achieved pop)
        (evaluate_genome pop)
  end.

(** A [for] loop over the values of [l] whose body updates a state and may
    draw random numbers. *)
Fixpoint for_each {A S : Type} (l : list A) (body : A -> S -> Rand S) (s : S) : Rand S :=
  match l with
  | [] => ret s
  | a :: l' => let* s := body a s in for_each l' body s
  end.

(** One iteration of the innermost loop of [neat_create_population]: the
    connection [in_ -> input_size + 1 + out] with a random weight, and
    the innovation number of the registry stored in the last connection
    of the genome. *)
Definition connect_initial (M : libm) (input_size : nat) (in_ out : nat)
    (st : neat_genome_t * neat_innovation_table_t)
    : Rand (neat_genome_t * neat_innovation_table_t) :=
  let '(genome, table) := st in
  let out_node_id := Z.of_nat (input_size + 1 + out) in
  let* weight := neat_random_normal M 0.0 1.0 in
  let genome := snd (neat_add_connection genome (Z.of_nat in_) out_node_id weight true) in
  let '(innovation, table) :=
    neat_get_innovation table (Z.of_nat in_) out_node_id false 0 weight in
  ret (set_innovation_at (connection_count genome - 1) innovation genome, table).

(** The body of the genome loop of [neat_create_population]: the input
    nodes, the bias node, the output nodes, and a connection from every
    input and the bias to every output. *)
Definition initial_genome (M : libm) (input_size output_size : nat) (i : nat)
    (table : neat_innovation_table_t) : Rand (neat_genome_t * neat_innovation_table_t) :=
  let genome := neat_create_genome (Z.of_nat i) in
  let* genome :=
    for_each (seq 0 input_size)
      (fun _ genome =>
         let* (_, genome) := neat_add_node M genome NEAT_NODE_INPUT NEAT_PLACEMENT_INPUT in
         ret genome) genome in
  let* (_, genome) := neat_add_node M genome NEAT_NODE_BIAS NEAT_PLACEMENT_INPUT in
  let* genome :=
    for_each (seq 0 output_size)
      (fun _ genome =>
         let* (_, genome) := neat_add_node M genome NEAT_NODE_OUTPUT NEAT_PLACEMENT_OUTPUT in
         ret genome) genome in
  for_each (seq 0 (input_size + 1))
    (fun in_ => for_each (seq 0 output_size) (connect_initial M input_size in_))
    (genome, table).

(** The genome loop of [neat_create_population]. *)
Definition initial_genomes (M : libm) (input_size output_size population_size : nat)
    : Rand (list neat_genome_t * neat_innovation_table_t) :=
  for_each (seq 0 population_size)
    (fun i '(gs, table) =>
       let* (genome, table) := initial_genome M input_size output_size i table in
       ret (gs ++ [genome], table))
    ([], neat_create_innovation_table).

(** [neat_create_population].  [max_fitness_achieved] is an [int] and is
    assigned -1e10. *)
Definition neat_create_population (M : libm) (input_size output_size population_size : nat)
    : Rand neat_population_t :=
  let* (gs, table) := initial_genomes M input_size output_size population_size in
  ret (neat_speciate
         (Population gs [] table population_size 0 (double_to_int (-1e10)%float) None)).

Definition species_with_staleness (n : Z) (sp : neat_species_t) : neat_species_t :=
  Species (species_ident sp) (members sp) (best_fitness sp) (average_fitness sp) n
    (age sp) (representative sp).
Definition species_with_members (ms : list nat) (sp : neat_species_t) : neat_species_t :=
  Species (species_ident sp) ms (best_fitness sp) (average_fitness sp) (staleness sp)
    (age sp) (representative sp).

(** The loop of [neat_remove_stale_species].  [i] advances only in the
    branch where the species did not beat [max_fitness_achieved]; the
    other branch stores the species' best fitness into that [int].
    [fuel] bounds the number of iterations; [None] is fuel exhausted. *)
Fixpoint stale_loop (fuel : nat) (i : nat) (ss : list neat_species_t) (max_fitness : Z)
    : option (list neat_species_t * Z) :=
  match ss !! i with
  | None => Some (ss, max_fitness)
  | Some sp =>
      match fuel with
      | O => None
      | S fuel' =>
          let sp := species_with_staleness (staleness sp + 1) sp in
          if (double_of_int max_fitness <? best_fitness sp)%float then
            stale_loop fuel' i (<[i := species_with_staleness 0 sp]> ss)
              (double_to_int (best_fitness sp))
          else stale_loop fuel' (S i) (<[i := sp]> ss) max_fitness
      end
  end.

Definition neat_remove_stale_species (fuel : nat) (pop : neat_population_t)
    : option neat_population_t :=
  match stale_loop fuel 0 (species pop) (max_fitness_achieved pop) with
  | None => None
  | Some (ss, m) => Some (pop_with_max_fitness m (pop_with_species ss pop))
  end.

Definition total_average_fitness (ss : list neat_species_t) : double :=
  fold_left (fun acc sp => (acc + abs (average_fitness sp))%float) ss 0.0%float.

(** [neat_remove_weak_species]: a species stays when its share of the
    population size, truncated to [int], is at least 1. *)
Definition neat_remove_weak_species (pop : neat_population_t) : neat_population_t :=
  let total_avg_fitness := total_average_fitness (species pop) in
  let keeps sp :=
    let fitness_ratio := (abs (average_fitness sp) / total_avg_fitness)%float in
    let offspring_count :=
      double_to_int (fitness_ratio * double_of_size_t (population_size pop))%float in
    negb (offspring_count <? 1) in
  pop_with_species (List.filter keeps (species pop)) pop.

(** Modelled from the spec: [neat_clone_genome] is declared in [neat.h] and
    called by [neat_reproduce], but no source file defines it.  The spec
    says: "Clone: deep copy of node list, connection list, and scalar
    fields; evaluation order may be recomputed lazily."  The copy has no
    cached evaluation order. *)
Definition neat_clone_genome (genome : neat_genome_t) : neat_genome_t :=
  genome_with_evaluation_order None genome.

(** The inner loop of the sort in [neat_reproduce] for one position [j]:
    [mj] is [members[j]], [rest] the members after it; a later member with
    a greater fitness is exchanged with [members[j]]. *)
Fixpoint sort_pass (gs : list neat_genome_t) (mj : nat) (rest : list nat) : nat * list nat :=
  match rest with
  | [] => (mj, [])
  | mk :: rest' =>
      if (fitness (genome_at gs mj) <? fitness (genome_at gs mk))%float then
        let '(m, r) := sort_pass gs mk rest' in (m, mj :: r)
      else
        let '(m, r) := sort_pass gs mj rest' in (m, mk :: r)
  end.

(** The outer loop, over the first [n] positions of the members; the C
    loop runs [j] over the positions below [member_count - 1].  (For a
    species without members that bound wraps to [SIZE_MAX], but the inner
    loop is then empty for every [j]: nothing is read or exchanged.) *)
Fixpoint sort_members (gs : list neat_genome_t) (n : nat) (ms : list nat) : list nat :=
  match n, ms with
  | S n', mj :: rest => let '(m, r) := sort_pass gs mj rest in m :: sort_members gs n' r
  | _, _ => ms
  end.

(** "Carry over elites": each species is sorted by fitness and a clone of
    its best member is stored, until the new population is full. *)
Fixpoint carry_over_elites (gs : list neat_genome_t) (size : nat) (ss : list neat_species_t)
    (new_genomes : list neat_genome_t) : list neat_species_t * list neat_genome_t :=
  match ss with
  | [] => ([], new_genomes)
  | sp :: ss' =>
      if (length new_genomes <? size)%nat then
        let ms := sort_members gs (member_count sp - 1) (members sp) in
        let new_genomes :=
          match ms with
          | best :: _ => new_genomes ++ [neat_clone_genome (genome_at gs best)]
          | [] => new_genomes
          end in
        let '(ss'', new_genomes) := carry_over_elites gs size ss' new_genomes in
        (species_with_members ms sp :: ss'', new_genomes)
      else (ss, new_genomes)
  end.

(** The species selection of the offspring loop: [r] is decreased by the
    absolute average fitness of each species in turn; the first species
    that brings it to 0 or below is selected, or else the last one.  With
    no species nothing is selected ([None], the NULL pointer). *)
Fixpoint select_species (ss : list neat_species_t) (r : double) : option neat_species_t :=
  match ss with
  | [] => None
  | sp :: ss' =>
      let r := (r - abs (average_fitness sp))%float in
      if (r <=? 0.0)%float || (match ss' with [] => true | _ => false end)
      then Some sp
      else select_species ss' r
  end.

(** Tournament for the first parent: [rounds] draws of a member index; a
    drawn member replaces the parent when there is none yet or its fitness
    is greater. *)
Fixpoint select_parent1 (gs : list neat_genome_t) (ms : list nat) (rounds : nat)
    (parent1 : option nat) : Rand (option nat) :=
  match rounds with
  | O => ret parent1
  | S rounds' =>
      let* idx := neat_random_int 0 (Z.of_nat (length ms) - 1) in
      let m := default 0%nat (array_get ms idx) in
      let better :=
        match parent1 with
        | None => true
        | Some p => (fitness (genome_at gs p) <? fitness (genome_at gs m))%float
        end in
      select_parent1 gs ms rounds' (if better then Some m else parent1)
  end.

(** Tournament for the second parent: the same, but a drawn member that is
    the first parent is never taken. *)
Fixpoint select_parent2 (gs : list neat_genome_t) (ms : list nat) (rounds : nat)
    (parent1 : option nat) (parent2 : option nat) : Rand (option nat) :=
  match rounds with
  | O => ret parent2
  | S rounds' =>
      let* idx := neat_random_int 0 (Z.of_nat (length ms) - 1) in
      let m := default 0%nat (array_get ms idx) in
      let better :=
        match parent2 with
        | None => true
        | Some p => (fitness (genome_at gs p) <? fitness (genome_at gs m))%float
        end in
      let same := match parent1 with Some p => (m =? p)%nat | None => false end in
      select_parent2 gs ms rounds' parent1
        (if better && negb same then Some m else parent2)
  end.

(** One offspring from the selected species: parents, crossover or clone,
    mutation. *)
Definition make_offspring (M : libm) (gs : list neat_genome_t) (sp : neat_species_t)
    (table : neat_innovation_table_t) : Rand (neat_genome_t * neat_innovation_table_t) :=
  let* parent1 := select_parent1 gs (members sp) 3 None in
  let p1 := genome_at gs (default 0%nat parent1) in
  let* u := neat_random_uniform 0.0 1.0 in
  let* parent2 :=
    if (u <? 0.3)%float then select_parent2 gs (members sp) 3 parent1 None else ret None in
  let* offspring :=
    match parent2 with
    | Some p2 => neat_crossover M p1 (genome_at gs p2)
    | None => ret (neat_clone_genome p1)
    end in
  let* (offspring, table') := neat_mutate M offspring (Some table) in
  ret (offspring, default table table').

(** "Fill the rest of the population with offspring".  An iteration that
    selects no species, or a species without members, changes nothing but
    the random seed.  [fuel] bounds the iterations; [None] is fuel
    exhausted. *)
Fixpoint fill_offspring (M : libm) (fuel : nat) (gs : list neat_genome_t)
    (ss : list neat_species_t) (total_avg_fitness : double) (size : nat)
    (table : neat_innovation_table_t) (new_genomes : list neat_genome_t)
    : Rand (option (list neat_genome_t * neat_innovation_table_t)) :=
  if (length new_genomes <? size)%nat then
    match fuel with
    | O => ret None
    | S fuel' =>
        let* r := neat_random_uniform 0.0 total_avg_fitness in
        match select_species ss r with
        | None => fill_offspring M fuel' gs ss total_avg_fitness size table new_genomes
        | Some sp =>
            if (member_count sp =? 0)%nat
            then fill_offspring M fuel' gs ss total_avg_fitness size table new_genomes
            else
              let* (offspring, table) := make_offspring M gs sp table in
              fill_offspring M fuel' gs ss total_avg_fitness size table
                (new_genomes ++ [offspring])
        end
    end
  else ret (Some (new_genomes, table)).

(** [neat_reproduce].  The species keep their (now sorted) member lists;
    the pointers in them refer to the genomes that were just freed. *)
Definition neat_reproduce (M : libm) (fuel : nat) (pop : neat_population_t)
    : Rand (option neat_population_t) :=
  let total_avg_fitness := total_average_fitness (species pop) in
  let '(ss, new_genomes) :=
    carry_over_elites (genomes pop) (population_size pop) (species pop) [] in
  let* filled :=
    fill_offspring M fuel (genomes pop) ss total_avg_fitness (population_size pop)
      (innovation_table pop) new_genomes in
  match filled with
  | None => ret None
  | Some (new_genomes, table) =>
      ret (Some (Population new_genomes ss table (population_size pop)
                   (generation pop + 1) (max_fitness_achieved pop) (evaluate_genome pop)))
  end.

(** "Evaluate all genomes": the callback's result becomes the fitness, and
    a fitness above [max_fitness_achieved] is stored into that [int]. *)
Fixpoint evaluate_all (f : neat_genome_t -> double * neat_genome_t)
    (gs : list neat_genome_t) (max_fitness : Z) : list neat_genome_t * Z :=
  match gs with
  | [] => ([], max_fitness)
  | g :: gs' =>
      let '(fit, g') := f g in
      let g' := genome_with_fitness fit g' in
      let max_fitness :=
        if (double_of_int max_fitness <? fit)%float then double_to_int fit else max_fitness in
      let '(r, m) := evaluate_all f gs' max_fitness in
      (g' :: r, m)
  end.

(** The part of [neat_evolve] before the species are pruned: evaluation,
    speciation and fitness sharing. *)
Definition evolve_prepare (pop : neat_population_t) : neat_population_t :=
  let pop :=
    match evaluate_genome pop with
    | Some f =>
        let '(gs, m) := evaluate_all f (genomes pop) (max_fitness_achieved pop) in
        pop_with_max_fitness m (pop_with_genomes gs pop)
    | None => pop
    end in
  let pop := neat_speciate pop in
  pop_with_genomes
    (fold_left (fun gs sp => neat_adjust_fitness sp gs) (species pop) (genomes pop)) pop.

(** [neat_evolve]: one generation.  [None]: one of the two loops that need
    fuel did not finish within [fuel] iterations. *)
Definition neat_evolve (M : libm) (fuel : nat) (pop : neat_population_t)
    : Rand (option neat_population_t) :=
  match neat_remove_stale_species fuel (evolve_prepare pop) with
  | None => ret None
  | Some pop => neat_reproduce M fuel (neat_remove_weak_species pop)
  end.

(** * Sample data and auxiliary definitions

    The concrete genomes and populations of the closed examples, and the
    predicates the theorems are stated with. *)

(** A math library of constant functions, with the values the real
    functions take at 0.  It instantiates the [libm] parameter in closed
    examples; no general theorem depends on it. *)
Definition libm_at_zero : libm :=
  Libm (fun _ => 1.0%float) (fun _ => 0.0%float) (fun _ => 1.0%float)
       (fun _ => 0.0%float) (fun _ => 0.0%float).

Definition sample_node (id : Z) (type : neat_node_type_t) (placement : neat_node_placement_t)
    : neat_node_t :=
  Node id type placement NEAT_ACTIVATION_SIGMOID 0.0 0.0 true 0.

(** One input node (id 0) and one output node (id 1), no connection. *)
Definition two_node_genome : neat_genome_t :=
  Genome 0
    [sample_node 0 NEAT_NODE_INPUT NEAT_PLACEMENT_INPUT;
     sample_node 1 NEAT_NODE_OUTPUT NEAT_PLACEMENT_OUTPUT]
    [] 0.0 0.0 0 (-1) None.

(** [NEAT_MAX_INPUTS + 1] input nodes and nothing else. *)
Definition wide_genome : neat_genome_t :=
  Genome 0
    (map (fun k => sample_node (Z.of_nat k) NEAT_NODE_INPUT NEAT_PLACEMENT_INPUT)
       (seq 0 (S NEAT_MAX_INPUTS)))
    [] 0.0 0.0 0 (-1) None.

(** The placement of the node with index [id], as an integer in the order
    of the enumeration (input < hidden < output). *)
Definition placement_rank (p : neat_node_placement_t) : Z :=
  match p with
  | NEAT_PLACEMENT_INPUT => 0
  | NEAT_PLACEMENT_HIDDEN => 1
  | NEAT_PLACEMENT_OUTPUT => 2
  end.

Definition placement_of (genome : neat_genome_t) (id : Z) : option Z :=
  option_map (fun n => placement_rank (node_placement n)) (array_get (nodes genome) id).

(** The endpoint pairs of the connections of a genome. *)
Definition endpoints (genome : neat_genome_t) : list (Z * Z) :=
  map (fun c => (conn_in_node c, conn_out_node c)) (connections genome).

(** The rejection rule as the specification words it: a duplicate endpoint
    pair, a self loop, or (non-recurrent mode) a target not placed after
    the source. *)
Definition spec_add_connection_rejects (genome : neat_genome_t) (in_node out_node : Z) : bool :=
  connection_exists (connections genome) in_node out_node
  || (in_node =? out_node)
  || (negb NEAT_ALLOW_RECURRENT
      && match placement_of genome in_node, placement_of genome out_node with
         | Some pin, Some pout => pout <=? pin
         | _, _ => false
         end).

(** A genome that consists of one bias node (bias field 0, sigmoid). *)
Definition bias_only_genome : neat_genome_t :=
  Genome 0 [sample_node 0 NEAT_NODE_BIAS NEAT_PLACEMENT_INPUT] [] 0.0 0.0 0 (-1) None.

(** The number of input nodes of a genome: the arity of its input vector. *)
Definition input_node_count (genome : neat_genome_t) : nat :=
  length (List.filter (fun n => is_input (node_type n)) (nodes genome)).

Definition innovation_unset (c : neat_connection_t) : Prop := conn_innovation c = -1.

(** Two parents with one matching gene (innovation 1) each. *)
Definition crossover_parent (w : double) : neat_genome_t :=
  Genome 0
    [sample_node 0 NEAT_NODE_INPUT NEAT_PLACEMENT_INPUT;
     sample_node 1 NEAT_NODE_OUTPUT NEAT_PLACEMENT_OUTPUT]
    [Connection 1 0 1 w true] 1.0 0.0 0 (-1) None.

(** The registry after the connection 0 -> 1 was registered: the record
    has innovation number 2. *)
Definition split_table : neat_innovation_table_t :=
  snd (neat_get_innovation neat_create_innovation_table 0 1 false 0 0.5).

(** Two genomes that both hold the connection 0 -> 1 (innovation 2) and
    nothing else to split; the second one has one more node. *)
Definition split_genome_a : neat_genome_t :=
  Genome 0
    [sample_node 0 NEAT_NODE_INPUT NEAT_PLACEMENT_INPUT;
     sample_node 1 NEAT_NODE_OUTPUT NEAT_PLACEMENT_OUTPUT]
    [Connection 2 0 1 0.5 true] 0.0 0.0 0 (-1) None.

Definition split_genome_b : neat_genome_t :=
  Genome 1
    [sample_node 0 NEAT_NODE_INPUT NEAT_PLACEMENT_INPUT;
     sample_node 1 NEAT_NODE_OUTPUT NEAT_PLACEMENT_OUTPUT;
     sample_node 2 NEAT_NODE_HIDDEN NEAT_PLACEMENT_HIDDEN]
    [Connection 2 0 1 0.5 true] 0.0 0.0 0 (-1) None.

(** What a test of the split observes: the node ids, and innovation number,
    endpoints and enabled flag of every connection. *)
Definition genes (genome : neat_genome_t) : list Z * list (Z * Z * Z * bool) :=
  (map node_id (nodes genome),
   map (fun c => (conn_innovation c, conn_in_node c, conn_out_node c, conn_enabled c))
     (connections genome)).

(** A positive number or +infinity. *)
Definition pos_or_inf (x : spec_float) : Prop :=
  match x with
  | S754_finite false _ _ | S754_infinity false => True
  | _ => False
  end.

(** Two genomes with three connections; the second lacks innovation 2 and
    has an excess gene 4. *)
Definition distance_genome_a : neat_genome_t :=
  Genome 0 [] [Connection 1 0 2 0.5 true; Connection 2 1 2 (-0.25) true;
               Connection 3 0 3 1.5 false] 0.0 0.0 0 (-1) None.
Definition distance_genome_b : neat_genome_t :=
  Genome 1 [] [Connection 1 0 2 0.75 true; Connection 3 0 3 1.0 true;
               Connection 4 3 2 2.0 true] 0.0 0.0 0 (-1) None.

(** A genome whose one connection has the weight +infinity, and one whose
    connection has a NaN weight. *)
Definition infinite_weight_genome : neat_genome_t :=
  Genome 0 [] [Connection 1 0 1 infinity true] 0.0 0.0 0 (-1) None.
Definition nan_weight_genome : neat_genome_t :=
  Genome 0 [] [Connection 1 0 1 nan true] 0.0 0.0 0 (-1) None.

Definition bare_genome (f : double) : neat_genome_t :=
  Genome 0 [] [] f 0.0 0 (-1) None.

(** Species 1 holds the best genome of the population (fitness 5, the
    value of [max_fitness_achieved]); species 2 has the best fitness 1 and
    has not improved for 20 generations. *)
Definition stale_population : neat_population_t :=
  Population [bare_genome 5.0; bare_genome 1.0]
    [Species 1 [0%nat] 5.0 5.0 0 30 (Some 0%nat);
     Species 2 [1%nat] 1.0 1.0 20 30 (Some 1%nat)]
    neat_create_innovation_table 2 30 5 None.

Definition has_members (sp : neat_species_t) : Prop := members sp <> [].

Definition fit_genome (f : double) : neat_genome_t :=
  Genome 0
    [sample_node 0 NEAT_NODE_INPUT NEAT_PLACEMENT_INPUT;
     sample_node 1 NEAT_NODE_OUTPUT NEAT_PLACEMENT_OUTPUT]
    [Connection 2 0 1 0.5 true] f 0.0 0 (-1) None.

(** A population of two genomes in one species, as [neat_speciate] builds
    it, with target size 3; and a population without species. *)
Definition one_species_population : neat_population_t :=
  Population [fit_genome 1.0; fit_genome 2.0]
    [Species 1 [0%nat; 1%nat] 2.0 1.5 0 0 (Some 0%nat)]
    split_table 3 0 2 None.

Definition no_species_population : neat_population_t :=
  Population [fit_genome 1.0; fit_genome 2.0] [] split_table 3 0 2 None.

(** A species list with a species without members (as [neat_create_species]
    returns it) in front of a species with one member; every fitness is
    0.0, the target size is 2. *)
Definition empty_first_population : neat_population_t :=
  Population [fit_genome 0.0]
    [neat_create_species 1; Species 2 [0%nat] 0.0 0.0 0 0 (Some 0%nat)]
    split_table 2 0 0 None.

(** The same with one more species without members at the end of the
    list. *)
Definition empty_ends_population : neat_population_t :=
  Population [fit_genome 0.0]
    [neat_create_species 1; Species 2 [0%nat] 0.0 0.0 0 0 (Some 0%nat);
     neat_create_species 3]
    split_table 2 0 0 None.

(** A population without species whose target size is 0. *)
Definition zero_size_population : neat_population_t :=
  Population [] [] neat_create_innovation_table 0 0 0 None.

(** Two genomes and a fitness callback that scores every genome 2.5.  The
    species list is the one [neat_create_population] builds with its call
    of [neat_speciate] (one species with both genomes), and
    [max_fitness_achieved] has the value that function leaves in it (the
    conversion of -1e10 to [int]). *)
Definition scored_population : neat_population_t :=
  neat_speciate
    (Population [fit_genome 0.0; fit_genome 0.0] [] split_table 2 0 INT_MIN
       (Some (fun g => (2.5%float, g)))).

(** Two genomes and a fitness callback that scores every genome 1.0. *)
Definition unit_scored_population : neat_population_t :=
  Population [fit_genome 0.0; fit_genome 0.0] [] split_table 2 0 INT_MIN
    (Some (fun g => (1.0%float, g))).

(** [n] successive results of [xorshift32]. *)
Fixpoint xorshift32_draws (n : nat) : Rand (list Z) :=
  match n with
  | O => ret []
  | S n' =>
      let* x := xorshift32 in
      let* r := xorshift32_draws n' in
      ret (x :: r)
  end.

(** A property of the result of a computation with random draws that
    holds whatever the generator state is. *)
Definition rand_post {A : Type} (P : A -> Prop) (m : Rand A) : Prop :=
  forall seed, P (fst (m seed)).

(** Every node has the [x_pos] that [neat_create_node] stores (0); no
    function of [neat.c] assigns the field again. *)
Definition x_pos_unset (genome : neat_genome_t) : Prop :=
  Forall (fun n => node_x_pos n = 0) (nodes genome).

(** A connection without its innovation number. *)
Definition connection_gene (c : neat_connection_t) : Z * Z * double * bool :=
  (conn_in_node c, conn_out_node c, conn_weight c, conn_enabled c).

(** The endpoints of every connection are indices of nodes of the genome. *)
Definition endpoints_in_range (genome : neat_genome_t) : Prop :=
  Forall (fun c => 0 <= conn_in_node c < Z.of_nat (node_count genome)
                   /\ 0 <= conn_out_node c < Z.of_nat (node_count genome))
    (connections genome).

(** The id of every node is its index in the node array. *)
Definition ids_are_indices (genome : neat_genome_t) : Prop :=
  forall j n, nodes genome !! j = Some n -> node_id n = Z.of_nat j.

(** The shape of the genomes that the functions of the library build: node
    ids are indices, no node has a position, connections join nodes of
    the genome and no two of them have the same endpoints. *)
Definition well_formed (genome : neat_genome_t) : Prop :=
  ids_are_indices genome /\ x_pos_unset genome
  /\ endpoints_in_range genome /\ NoDup (endpoints genome).

(** The fields of a node that identify it. *)
Definition node_frame (n : neat_node_t) : Z * neat_node_type_t * neat_node_placement_t * Z :=
  (node_id n, node_type n, node_placement n, node_x_pos n).

(** Node [n'] is node [n] after a mutation: same id, kind and placement,
    and for an input or bias node the same activation function. *)
Definition node_kept (n n' : neat_node_t) : Prop :=
  node_id n' = node_id n /\ node_type n' = node_type n
  /\ node_placement n' = node_placement n
  /\ (is_input (node_type n) || is_bias (node_type n) = true ->
      node_activation_type n' = node_activation_type n).

Definition nodes_kept (genome genome' : neat_genome_t) : Prop :=
  forall j n, nodes genome !! j = Some n ->
    exists n', nodes genome' !! j = Some n' /\ node_kept n n'.

(** [genome'] is a well-formed genome that keeps the nodes of [genome] and
    has at most [k] nodes and [2 * k] connections more. *)
Definition grown_by (k : nat) (genome genome' : neat_genome_t) : Prop :=
  well_formed genome' /\ nodes_kept genome genome'
  /\ (node_count genome <= node_count genome' <= node_count genome + k)%nat
  /\ (connection_count genome <= connection_count genome'
      <= connection_count genome + 2 * k)%nat.

(** Node [n'] is node [n] after an evaluation: at most the value differs,
    and an input node is unchanged. *)
Definition node_evaluated (n n' : neat_node_t) : Prop :=
  node_with_value 0 n' = node_with_value 0 n
  /\ (is_input (node_type n) = true -> n' = n).

(** The number of output nodes of a genome. *)
Definition output_node_count (genome : neat_genome_t) : nat :=
  length (List.filter (fun n => is_output (node_type n)) (nodes genome)).

(** A cached evaluation order holds indices of nodes of the genome. *)
Definition evaluation_order_in_range (genome : neat_genome_t) : Prop :=
  match evaluation_order genome with
  | Some order => Forall (fun i => 0 <= i < Z.of_nat (node_count genome)) order
  | None => True
  end.

(** The nodes a crossover child gets for the nodes [ns] of its fitter
    parent when it already has [start] nodes: kind, placement, activation
    function and bias are the parent's, the id is the index, the value is
    0. *)
Fixpoint copied_nodes (start : nat) (ns : list neat_node_t) : list neat_node_t :=
  match ns with
  | [] => []
  | n :: ns' =>
      Node (Z.of_nat start) (node_type n) (node_placement n) (node_activation_type n)
           0 (node_bias n) true 0
      :: copied_nodes (S start) ns'
  end.

(** No two connections of [genome] have the same endpoints, and each one
    is, up to its innovation number, a connection of [ps]. *)
Definition inherited_from (ps : list neat_connection_t) (genome : neat_genome_t) : Prop :=
  NoDup (endpoints genome)
  /\ Forall (fun c => exists p, In p ps /\ connection_gene c = connection_gene p)
       (connections genome).

(** The parent whose nodes [neat_crossover] copies, and the other one. *)
Definition fitter_parent (parent1 parent2 : neat_genome_t) : neat_genome_t :=
  if (fitness parent2 <=? fitness parent1)%float then parent1 else parent2.
Definition other_parent (parent1 parent2 : neat_genome_t) : neat_genome_t :=
  if (fitness parent2 <=? fitness parent1)%float then parent2 else parent1.

(** Two well-formed parents; the less fit one has a hidden node 2 and the
    connection 2 -> 1, which the fitter one lacks. *)
Definition small_parent : neat_genome_t :=
  Genome 0
    [sample_node 0 NEAT_NODE_INPUT NEAT_PLACEMENT_INPUT;
     sample_node 1 NEAT_NODE_OUTPUT NEAT_PLACEMENT_OUTPUT]
    [Connection 2 0 1 0.5 true] 2.0 0.0 0 (-1) None.
Definition large_parent : neat_genome_t :=
  Genome 1
    [sample_node 0 NEAT_NODE_INPUT NEAT_PLACEMENT_INPUT;
     sample_node 1 NEAT_NODE_OUTPUT NEAT_PLACEMENT_OUTPUT;
     sample_node 2 NEAT_NODE_HIDDEN NEAT_PLACEMENT_HIDDEN]
    [Connection 2 0 1 0.5 false; Connection 4 0 2 1.0 true; Connection 6 2 1 0.5 true]
    1.0 0.0 0 (-1) None.

(** A species as [neat_speciate] builds it: the representative is the
    founder, which is the first member, and every other member was within
    the compatibility threshold of the representative when it joined. *)
Definition species_coherent (gs : list neat_genome_t) (sp : neat_species_t) : Prop :=
  exists r,
    representative sp = Some r /\ head (members sp) = Some r
    /\ Forall (fun m =>
                 m = r
                 \/ (neat_compatibility_distance (genome_at gs m) (genome_at gs r)
                     <? NEAT_COMPATIBILITY_THRESHOLD)%float = true)
         (members sp).

(** The species identifiers [base], [base + 1], ..., [base + n - 1]. *)
Definition consecutive_ids (base : Z) (n : nat) : list Z :=
  map (fun k => base + Z.of_nat k) (seq 0 n).

(** A species with the members 0 and 1 and the best fitness 1. *)
Definition pair_species : neat_species_t :=
  Species 1 [0%nat; 1%nat] 1.0 0.5 3 0 (Some 0%nat).

(** No member of [ms] has a strictly greater fitness than genome [e]. *)
Definition fittest_of (gs : list neat_genome_t) (e : nat) (ms : list nat) : Prop :=
  Forall (fun k => (fitness (genome_at gs e) <? fitness (genome_at gs k))%float = false) ms.

(** The invariant of the innovation registry: the numbers of its
    connection records are positive and below [next_innovation], and two
    connection records with the same number have the same endpoints. *)
Definition registry_consistent (table : neat_innovation_table_t) : Prop :=
  0 < next_innovation table
  /\ Forall (fun r => innov_is_new_node r = false ->
                      0 < innov_innovation_number r < next_innovation table)
       (innovations table)
  /\ (forall r1 r2, In r1 (innovations table) -> In r2 (innovations table) ->
        innov_is_new_node r1 = false -> innov_is_new_node r2 = false ->
        innov_innovation_number r1 = innov_innovation_number r2 ->
        innov_in_node r1 = innov_in_node r2 /\ innov_out_node r1 = innov_out_node r2).

(** What an initial genome holds: innovation number, endpoints and enabled
    flag of every connection; and the same for the connection records of
    a registry. *)
Definition conn_links (genome : neat_genome_t) : list (Z * Z * Z * bool) :=
  map (fun c => (conn_innovation c, conn_in_node c, conn_out_node c, conn_enabled c))
    (connections genome).
Definition record_link (r : neat_innovation_t) : Z * Z * Z * bool :=
  (innov_innovation_number r, innov_in_node r, innov_out_node r,
   negb (innov_is_new_node r)).

(** The endpoint pairs [keys], enabled, with the innovation numbers
    [2 * start + 2], [2 * start + 4], ... in their order. *)
Fixpoint numbered_links (start : nat) (keys : list (Z * Z)) : list (Z * Z * Z * bool) :=
  match keys with
  | [] => []
  | (i, o) :: keys' => (2 * Z.of_nat start + 2, i, o, true) :: numbered_links (S start) keys'
  end.

(** The endpoints of the connections of an initial genome, in the order
    of the loops of [neat_create_population]: from every input and the
    bias (nodes 0 .. input_size) to every output (nodes input_size + 1
    ..). *)
Definition initial_endpoint (input_size : nat) (p : nat * nat) : Z * Z :=
  (Z.of_nat (fst p), Z.of_nat (input_size + 1 + snd p)).
Definition initial_keys (input_size output_size : nat) : list (Z * Z) :=
  map (initial_endpoint input_size)
    (list_prod (seq 0 (input_size + 1)) (seq 0 output_size)).

(** The nodes of an initial genome: id, kind, placement and position. *)
Definition initial_frames (input_size output_size : nat)
    : list (Z * neat_node_type_t * neat_node_placement_t * Z) :=
  map (fun k => (Z.of_nat k, NEAT_NODE_INPUT, NEAT_PLACEMENT_INPUT, 0)) (seq 0 input_size)
  ++ [(Z.of_nat input_size, NEAT_NODE_BIAS, NEAT_PLACEMENT_INPUT, 0)]
  ++ map (fun k => (Z.of_nat k, NEAT_NODE_OUTPUT, NEAT_PLACEMENT_OUTPUT, 0))
       (seq (input_size + 1) output_size).

(** The registry holds exactly the connection records for [keys], numbered
    in their order. *)
Definition registry_holds (table : neat_innovation_table_t) (keys : list (Z * Z)) : Prop :=
  map record_link (innovations table) = numbered_links 0 keys
  /\ next_innovation table = 2 * Z.of_nat (length keys) + 1.

(** An initial genome of a population with the given numbers of inputs and
    outputs. *)
Definition initial_layout (input_size output_size : nat) (genome : neat_genome_t) : Prop :=
  map node_frame (nodes genome) = initial_frames input_size output_size
  /\ conn_links genome = numbered_links 0 (initial_keys input_size output_size)
  /\ evaluation_order genome = None.

(** * Properties *)

(** ** Genome operations *)

Lemma connection_exists_Exists cs i o :
  connection_exists cs i o = true <->
  Exists (fun c => conn_in_node c = i /\ conn_out_node c = o) cs.
Proof.
  unfold connection_exists. induction cs as [|c cs IH]; cbn.
  - split; [discriminate | intros H; inversion H].
  - rewrite orb_true_iff, IH, Exists_cons, andb_true_iff, !Z.eqb_eq. reflexivity.
Qed.

Lemma connection_exists_Forall cs i o :
  connection_exists cs i o = false <->
  Forall (fun c => ~ (conn_in_node c = i /\ conn_out_node c = o)) cs.
Proof.
  rewrite <- not_true_iff_false, connection_exists_Exists.
  rewrite <- Forall_Exists_neg. reflexivity.
Qed.

(** C6, as amended.  [neat_add_connection] refuses exactly the duplicates
    of an existing endpoint pair: then the genome is unchanged.  Every
    other pair, a self loop or a backward connection included, is
    appended with innovation -1 (unset), the node list is kept and the
    cached evaluation order is cleared.  The value returned tells the two
    cases apart: two calls that return the same value are both refused
    or both accepted. *)
Theorem neat_add_connection_spec (genome : neat_genome_t) (in_node out_node : Z)
    (weight : double) (enabled : bool) :
  let r := neat_add_connection genome in_node out_node weight enabled in
  (Exists (fun c => conn_in_node c = in_node /\ conn_out_node c = out_node)
          (connections genome) ->
     snd r = genome)
  /\
  (Forall (fun c => ~ (conn_in_node c = in_node /\ conn_out_node c = out_node))
          (connections genome) ->
     connections (snd r)
     = connections genome ++ [Connection (-1) in_node out_node weight enabled]
     /\ nodes (snd r) = nodes genome
     /\ evaluation_order (snd r) = None)
  /\
  (forall (genome2 : neat_genome_t) (in2 out2 : Z) (weight2 : double) (enabled2 : bool),
     fst (neat_add_connection genome2 in2 out2 weight2 enabled2) = fst r ->
     (Exists (fun c => conn_in_node c = in2 /\ conn_out_node c = out2)
             (connections genome2)
      <-> Exists (fun c => conn_in_node c = in_node /\ conn_out_node c = out_node)
                 (connections genome))).
Proof.
  cbv zeta. unfold neat_add_connection. split; [|split].
  - intros H. apply connection_exists_Exists in H. rewrite H. reflexivity.
  - intros H. apply connection_exists_Forall in H. rewrite H. cbn. auto.
  - intros genome2 in2 out2 weight2 enabled2.
    rewrite <- !connection_exists_Exists.
    destruct (connection_exists (connections genome2) in2 out2),
             (connection_exists (connections genome) in_node out_node);
      cbn [fst]; intros H; try discriminate H; split; intros E;
      first [reflexivity | discriminate E].
Qed.

(** The amended rule at work: a duplicate is refused, a fresh pair is
    appended. *)
Lemma neat_add_connection_spec_witness :
  (let g := snd (neat_add_connection two_node_genome 0 1 0.5 true) in
   snd (neat_add_connection g 0 1 0.25 true) = g)
  /\ connections (snd (neat_add_connection two_node_genome 0 1 0.5 true))
     = [Connection (-1) 0 1 0.5 true].
Proof.
  split.
  - cbv zeta.
    apply (proj1 (neat_add_connection_spec
                    (snd (neat_add_connection two_node_genome 0 1 0.5 true)) 0 1 0.25 true)).
    apply connection_exists_Exists. vm_compute. reflexivity.
  - apply (proj1 (proj1 (proj2 (neat_add_connection_spec two_node_genome 0 1 0.5 true))
                   ltac:(apply connection_exists_Forall; vm_compute; reflexivity))).
Defined.

(** Gene uniqueness under [neat_add_connection]: if no two connections of
    a genome share their endpoint pair, the same holds after the call. *)
Theorem neat_add_connection_unique (genome : neat_genome_t) (in_node out_node : Z)
    (weight : double) (enabled : bool) :
  NoDup (endpoints genome) ->
  NoDup (endpoints (snd (neat_add_connection genome in_node out_node weight enabled))).
Proof.
  intros H. unfold neat_add_connection.
  destruct (connection_exists (connections genome) in_node out_node) eqn:E; [exact H|].
  unfold endpoints. cbn. rewrite map_app. cbn.
  apply NoDup_app. split; [exact H|]. split; [|apply NoDup_singleton].
  intros [a b] Hin Hin'. apply list_elem_of_singleton in Hin'. injection Hin' as -> ->.
  apply connection_exists_Forall in E. rewrite Forall_forall in E.
  apply list_elem_of_In, in_map_iff in Hin. destruct Hin as (c & Hc & Hcin).
  injection Hc as H1 H2. apply (E c); [apply list_elem_of_In; exact Hcin | auto].
Qed.

(** The statement on a genome with one connection: adding a second pair
    keeps the endpoint pairs distinct. *)
Lemma neat_add_connection_unique_witness :
  NoDup (endpoints (snd (neat_add_connection
                           (snd (neat_add_connection two_node_genome 0 1 0.5 true))
                           1 0 0.25 true))).
Proof.
  apply neat_add_connection_unique. apply neat_add_connection_unique.
  apply NoDup_nil. exact I.
Defined.

(** C6, counterexample.  On the genome with input node 0 and output node 1
    the specification's rule rejects the self loop 0 -> 0 and the backward
    connection 1 -> 0 (placement(out) <= placement(in)); the code accepts
    both: it returns 0 and the connection list grows. *)
Lemma neat_add_connection_accepts_self_loop :
  spec_add_connection_rejects two_node_genome 0 0 = true
  /\ fst (neat_add_connection two_node_genome 0 0 1.0 true) = 0
  /\ connections (snd (neat_add_connection two_node_genome 0 0 1.0 true))
     = [Connection (-1) 0 0 1.0 true]
  /\ spec_add_connection_rejects two_node_genome 1 0 = true
  /\ fst (neat_add_connection two_node_genome 1 0 1.0 true) = 0
  /\ connections (snd (neat_add_connection two_node_genome 1 0 1.0 true))
     = [Connection (-1) 1 0 1.0 true].
Proof. vm_compute. repeat split; reflexivity. Qed.

Lemma neat_add_node_keeps_connections M genome type placement seed :
  connections (snd (fst (neat_add_node M genome type placement seed))) = connections genome.
Proof.
  unfold neat_add_node, neat_create_node, bind, ret.
  destruct (neat_random_normal M 0 1 seed) as [bias seed']. reflexivity.
Qed.

(** C8.  [neat_add_node] appends a node whose id is the old node count and
    returns that id, but the cached evaluation order is left as it was:
    the statements that clear it come after the [return]. *)
Theorem neat_add_node_keeps_evaluation_order (M : libm) (genome : neat_genome_t)
    (type : neat_node_type_t) (placement : neat_node_placement_t) (seed : Z) :
  let '(new_id, genome') := fst (neat_add_node M genome type placement seed) in
  new_id = Z.of_nat (node_count genome)
  /\ (exists new_node,
        nodes genome' = nodes genome ++ [new_node]
        /\ node_id new_node = new_id
        /\ node_type new_node = type
        /\ node_placement new_node = placement)
  /\ connections genome' = connections genome
  /\ evaluation_order genome' = evaluation_order genome.
Proof.
  unfold neat_add_node, neat_create_node, bind, ret.
  destruct (neat_random_normal M 0 1 seed) as [bias seed']. cbn.
  split; [reflexivity|]. split; [|split; reflexivity].
  eexists. split; [reflexivity|]. cbn. auto.
Qed.

(** The consequence for a genome that was activated before: after
    [neat_add_node] the next activation still runs over the old order and
    never computes the new node (its value stays at the reset value 0). *)
Example stale_order_after_add_node :
  let g0 := Genome 0 [sample_node 0 NEAT_NODE_INPUT NEAT_PLACEMENT_INPUT] [] 0.0 0.0 0 (-1)
              (Some [0]) in
  let g1 := snd (fst (neat_add_node libm_at_zero g0 NEAT_NODE_OUTPUT NEAT_PLACEMENT_OUTPUT 1)) in
  evaluation_order g1 = Some [0]
  /\ option_map (fun r => (evaluation_order (fst r), snd r))
       (neat_evaluate libm_at_zero g1 [1.0%float])
     = Some (Some [0], [0.0%float]).
Proof. vm_compute. split; reflexivity. Qed.

(** ** Activation *)

(** C1.  [neat_evaluate] stores 1.0 in a bias node, but the call of
    [neat_update_network] that follows resets every node that is not an
    input node and recomputes it: the bias node of [bias_only_genome] ends
    with the value [1 / (1 + exp (-0))], the sigmoid of its bias field,
    which is 0.5 for an [exp] with [exp (-0) = 1]. *)
Theorem bias_node_value_after_neat_evaluate (M : libm) :
  let v := (1.0 / (1.0 + libm_exp M (-0.0)))%float in
  option_map (fun r => map node_value (nodes (fst r)))
    (neat_evaluate M bias_only_genome [])
  = Some [v]
  /\ (libm_exp M (-0.0)%float = 1.0%float -> v = 0.5%float).
Proof.
  cbv zeta. split.
  - destruct M. vm_compute. reflexivity.
  - intros ->. vm_compute. reflexivity.
Qed.

(** With the constant math library, whose [exp] is 1 everywhere, the bias
    node of [bias_only_genome] ends with 0.5. *)
Lemma bias_node_value_after_neat_evaluate_witness :
  option_map (fun r => map node_value (nodes (fst r)))
    (neat_evaluate libm_at_zero bias_only_genome [])
  = Some [0.5%float].
Proof.
  rewrite (proj1 (bias_node_value_after_neat_evaluate libm_at_zero)).
  rewrite (proj2 (bias_node_value_after_neat_evaluate libm_at_zero) eq_refl).
  reflexivity.
Defined.

Lemma set_inputs_take ns inputs k n :
  (k + length (List.filter (fun n => is_input (node_type n)) ns) <= n)%nat ->
  set_inputs ns (take n inputs) k = set_inputs ns inputs k.
Proof.
  revert k. induction ns as [|node ns IH]; intros k Hn; [reflexivity|].
  cbn [set_inputs]. cbn [List.filter] in Hn.
  destruct (node_type node); cbn [is_input length] in Hn.
  - destruct (k <? NEAT_MAX_INPUTS)%nat.
    + rewrite lookup_take_lt by lia. destruct (inputs !! k); [|reflexivity].
      rewrite IH by lia. reflexivity.
    + rewrite IH by lia. reflexivity.
  - rewrite IH by lia. reflexivity.
  - rewrite IH by lia. reflexivity.
  - rewrite IH by lia. reflexivity.
Qed.

Lemma set_inputs_enough ns inputs k :
  (k + length (List.filter (fun n => is_input (node_type n)) ns) <= length inputs)%nat ->
  is_Some (set_inputs ns inputs k).
Proof.
  revert k. induction ns as [|node ns IH]; intros k Hn; [eexists; reflexivity|].
  cbn [set_inputs]. cbn [List.filter] in Hn.
  destruct (node_type node); cbn [is_input length] in Hn.
  - destruct (k <? NEAT_MAX_INPUTS)%nat.
    + destruct (lookup_lt_is_Some_2 inputs k) as [x ->]; [lia|].
      destruct (IH (S k)) as [r ->]; [lia|]. eexists; reflexivity.
    + destruct (IH k) as [r ->]; [lia|]. eexists; reflexivity.
  - destruct (IH k) as [r ->]; [lia|]. eexists; reflexivity.
  - destruct (IH k) as [r ->]; [lia|]. eexists; reflexivity.
  - destruct (IH k) as [r ->]; [lia|]. eexists; reflexivity.
Qed.


(** ** Crossover *)

Lemma neat_add_connection_unset genome i o w e :
  Forall innovation_unset (connections genome) ->
  Forall innovation_unset (connections (snd (neat_add_connection genome i o w e))).
Proof.
  intros H. unfold neat_add_connection.
  destruct (connection_exists (connections genome) i o); cbn; [exact H|].
  apply Forall_app. split; [exact H|]. repeat constructor.
Qed.

Lemma copy_nodes_connections M ns child seed :
  connections (fst (copy_nodes M ns child seed)) = connections child.
Proof.
  revert child seed. induction ns as [|node ns IH]; intros child seed; [reflexivity|].
  cbn [copy_nodes]. unfold bind at 1.
  destruct (neat_add_node M child (node_type node) (node_placement node) seed)
    as [[new_id child'] seed'] eqn:E.
  rewrite IH. cbn.
  pose proof (neat_add_node_keeps_connections M child (node_type node)
                (node_placement node) seed) as H.
  rewrite E in H. exact H.
Qed.

Lemma inherit_connections_unset cs other_cs child seed :
  Forall innovation_unset (connections child) ->
  Forall innovation_unset (connections (fst (inherit_connections cs other_cs child seed))).
Proof.
  revert child seed. induction cs as [|conn cs IH]; intros child seed H; [exact H|].
  cbn [inherit_connections]. unfold bind at 1.
  match goal with |- context [let '(a, s) := ?m seed in _] =>
    destruct (m seed) as [inherited seed'] end.
  apply IH. apply neat_add_connection_unset. exact H.
Qed.

Lemma inherit_remaining_unset cs fitter_cs child seed :
  Forall innovation_unset (connections child) ->
  Forall innovation_unset (connections (fst (inherit_remaining cs fitter_cs child seed))).
Proof.
  revert child seed. induction cs as [|conn cs IH]; intros child seed H; [exact H|].
  cbn [inherit_remaining]. unfold bind at 1.
  destruct (existsb _ fitter_cs); cbn [negb].
  - unfold ret. apply IH. exact H.
  - unfold bind at 1. destruct (neat_random_uniform 0 1 seed) as [u seed'].
    destruct (u <? 0.5)%float; unfold ret; apply IH; [|exact H].
    apply neat_add_connection_unset. exact H.
Qed.

(** C2.  Every connection of a child of [neat_crossover] has the innovation
    number -1, whatever its parents are: the child's connections are made
    by [neat_add_connection], which stores -1, and the crossover never
    copies a parent's number into them. *)
Theorem neat_crossover_innovations_unset (M : libm) (parent1 parent2 : neat_genome_t)
    (seed : Z) :
  Forall (fun c => conn_innovation c = -1)
    (connections (fst (neat_crossover M parent1 parent2 seed))).
Proof.
  unfold neat_crossover. cbv zeta.
  set (fitter := if (fitness parent2 <=? fitness parent1)%float then parent1 else parent2).
  set (other := if (fitness parent2 <=? fitness parent1)%float then parent2 else parent1).
  unfold bind at 1.
  destruct (copy_nodes M (nodes fitter) (neat_create_genome (-1)) seed)
    as [child seed1] eqn:E1.
  unfold bind at 1.
  destruct (inherit_connections (connections fitter) (connections other) child seed1)
    as [child2 seed2] eqn:E2.
  apply inherit_remaining_unset.
  change child2 with (fst (child2, seed2)). rewrite <- E2.
  apply inherit_connections_unset.
  change child with (fst (child, seed1)). rewrite <- E1.
  rewrite copy_nodes_connections. constructor.
Qed.

(** The child of these parents, for the initial seed 1: its one connection
    carries -1, which is the innovation number of no parent gene. *)
Example crossover_child_loses_innovation :
  map conn_innovation
    (connections (fst (neat_crossover libm_at_zero (crossover_parent 0.5)
                         (crossover_parent 0.25) 1)))
  = [-1]
  /\ map conn_innovation (connections (crossover_parent 0.5)) = [1]
  /\ map conn_innovation (connections (crossover_parent 0.25)) = [1].
Proof. vm_compute. repeat split. Qed.

(** ** The innovation registry and the node split *)

Lemma neat_random_int_0_0 seed :
  neat_random_int 0 0 seed = (0, snd (xorshift32 seed)).
Proof.
  unfold neat_random_int, bind, ret.
  destruct (xorshift32 seed) as [x seed'] eqn:E. cbn [snd].
  change ((0 - 0 + 1) mod 2 ^ ULONG_BITS) with 1.
  rewrite Z.mod_1_r. reflexivity.
Qed.

(** With a single, enabled connection the search of [neat_mutate_add_node]
    finds it at the first draw, whatever the seed is. *)
Lemma pick_enabled_connection_single attempts conn seed :
  conn_enabled conn = true ->
  pick_enabled_connection (S attempts) [conn] seed = (Some 0%nat, snd (xorshift32 seed)).
Proof.
  intros He. cbn [pick_enabled_connection length]. unfold bind.
  change (Z.of_nat 1 - 1) with 0. rewrite neat_random_int_0_0.
  generalize (snd (xorshift32 seed)). intros seed'.
  change (array_get [conn] 0) with (Some conn). cbn beta iota.
  rewrite He. reflexivity.
Qed.

Lemma neat_mutate_add_node_single M genome conn table seed :
  connections genome = [conn] ->
  conn_enabled conn = true ->
  exists bias seed',
    neat_mutate_add_node M genome (Some table) seed =
    (let new_node_id := Z.of_nat (node_count genome) in
     let genome1 :=
       genome_with_nodes
         (nodes genome ++
            [Node new_node_id NEAT_NODE_HIDDEN NEAT_PLACEMENT_HIDDEN
               NEAT_ACTIVATION_SIGMOID 0.0 bias true 0])
         (genome_with_connections [conn_with_enabled false conn] genome) in
     let '(innovation1, table1) :=
       neat_get_innovation table (conn_in_node conn) new_node_id false (-1) 1.0 in
     let '(innovation2, table2) :=
       neat_get_innovation table1 new_node_id (conn_out_node conn) false (-1)
         (conn_weight conn) in
     let genome2 :=
       snd (neat_add_connection genome1 (conn_in_node conn) new_node_id 1.0 true) in
     let genome3 :=
       snd (neat_add_connection genome2 new_node_id (conn_out_node conn)
              (conn_weight conn) true) in
     (if negb (innovation1 =? -1) && (1 <? connection_count genome3)%nat
      then (set_innovation_at (connection_count genome3 - 1) innovation2
              (set_innovation_at (connection_count genome3 - 2) innovation1 genome3),
            Some table2)
      else (genome3, Some table2)),
     seed').
Proof.
  intros Hc He. unfold neat_mutate_add_node, connection_count. rewrite Hc.
  cbn [length Nat.eqb]. unfold bind at 1.
  rewrite (pick_enabled_connection_single 99 conn seed He).
  cbn [lookup list_lookup]. unfold bind at 1.
  unfold neat_add_node, neat_create_node, bind, ret.
  destruct (neat_random_normal M 0 1 (snd (xorshift32 seed))) as [bias seed'].
  exists bias, seed'. cbn -[neat_get_innovation neat_add_connection].
  unfold get_innovation_opt.
  destruct (neat_get_innovation table _ _ false (-1) 1) as [i1 t1].
  destruct (neat_get_innovation t1 _ _ false (-1) _) as [i2 t2].
  destruct (negb (i1 =? -1) && _); reflexivity.
Qed.

Lemma find_app_last {A} (P : A -> bool) (l : list A) (x : A) :
  find P l = None -> P x = true -> find P (l ++ [x]) = Some x.
Proof.
  intros Hl Hx. induction l as [|a l IH]; cbn in *.
  - rewrite Hx. reflexivity.
  - destruct (P a); [discriminate|]. apply IH. exact Hl.
Qed.

Lemma innovation_matches_refl i o k id n nid w :
  innovation_matches i o k (Innovation id i o n k nid w) = true.
Proof.
  unfold innovation_matches. cbn. rewrite !Z.eqb_refl, Bool.eqb_reflx. reflexivity.
Qed.

(** Innovation determinism at the registry: asking again for the same
    endpoints and kind (whatever node hint and weight are passed) returns
    the number of the first request and leaves the table as it is. *)
Theorem neat_get_innovation_memoised (table : neat_innovation_table_t)
    (in_node out_node : Z) (is_new_node : bool) (node_id node_id' : Z)
    (weight weight' : double) :
  let '(number, table1) :=
    neat_get_innovation table in_node out_node is_new_node node_id weight in
  neat_get_innovation table1 in_node out_node is_new_node node_id' weight'
  = (number, table1).
Proof.
  unfold neat_get_innovation.
  destruct (find _ (innovations table)) as [innov|] eqn:E.
  - rewrite E. reflexivity.
  - destruct is_new_node; cbn [innovations];
      rewrite (find_app_last _ _ _ E (innovation_matches_refl _ _ _ _ _ _ _));
      reflexivity.
Qed.

(** C3.  The same connection 0 -> 1 is split in two genomes against one
    registry, for every pair of seeds.  The synthesised node takes the
    node count of its own genome as id (2 in the first genome, 3 in the
    second), and because the registry is keyed by the endpoints, which
    contain that id, the replacement connections get the innovation
    numbers 4 and 6 in the first genome and 8 and 10 in the second. *)
Theorem node_split_ids_differ (M : libm) (seed_a seed_b : Z) :
  let '(genome_a, table_a) :=
    fst (neat_mutate_add_node M split_genome_a (Some split_table) seed_a) in
  let '(genome_b, _) := fst (neat_mutate_add_node M split_genome_b table_a seed_b) in
  genes genome_a = ([0; 1; 2], [(2, 0, 1, false); (4, 0, 2, true); (6, 2, 1, true)])
  /\ genes genome_b = ([0; 1; 2; 3], [(2, 0, 1, false); (8, 0, 3, true); (10, 3, 1, true)]).
Proof.
  destruct (neat_mutate_add_node_single M split_genome_a _ split_table seed_a
              eq_refl eq_refl) as (bias_a & seed_a' & Ea).
  rewrite Ea. clear Ea.
  match goal with |- context [fst ?r] => let v := eval vm_compute in (fst r) in
    change (fst r) with v end.
  cbv beta iota.
  match goal with |- context [neat_mutate_add_node M split_genome_b (Some ?t) seed_b] =>
    destruct (neat_mutate_add_node_single M split_genome_b _ t seed_b eq_refl eq_refl)
      as (bias_b & seed_b' & Eb); rewrite Eb; clear Eb end.
  vm_compute. split; reflexivity.
Qed.

(** ** Floating point facts

    The facts about binary64 arithmetic that the compatibility metric
    needs, from the specification of the primitive operations. *)

Lemma SFabs_binary_round_aux s s' m e l :
  SFabs (binary_round_aux prec emax s m e l) = SFabs (binary_round_aux prec emax s' m e l).
Proof.
  unfold binary_round_aux.
  destruct (shr_fexp prec emax m e l) as [mrs' e'].
  destruct (shr_fexp prec emax _ e' loc_Exact) as [mrs'' e''].
  destruct (shr_m mrs''); try reflexivity.
  destruct (e'' <=? emax - prec); reflexivity.
Qed.

Lemma SFabs_binary_normalize_opp m e :
  SFabs (binary_normalize prec emax (- m) e false)
  = SFabs (binary_normalize prec emax m e false).
Proof.
  destruct m as [|p|p];
    [ reflexivity
    | change (- Z.pos p) with (Z.neg p)
    | change (- Z.neg p) with (Z.pos p) ];
    unfold binary_normalize, binary_round;
    destruct (shl_align _ _ _); apply SFabs_binary_round_aux.
Qed.

Lemma SFabs_SFsub_comm x y : SFabs (SF64sub x y) = SFabs (SF64sub y x).
Proof.
  unfold SF64sub.
  destruct x as [sx|sx| |sx mx ex], y as [sy|sy| |sy my ey]; try reflexivity;
    try (destruct sx, sy; reflexivity).
  cbn [SFsub]. rewrite (Z.min_comm ey ex).
  rewrite <- SFabs_binary_normalize_opp. f_equal. f_equal. lia.
Qed.

(** [fabs(x - y) == fabs(y - x)], bit for bit. *)
Lemma abs_sub_comm (x y : double) : abs (x - y)%float = abs (y - x)%float.
Proof.
  apply Prim2SF_inj. rewrite !abs_spec, !sub_spec. apply SFabs_SFsub_comm.
Qed.

(** [x - x] is +0 for every finite [x]. *)
Lemma sub_diag_finite (x : double) : finite_double x = true -> (x - x)%float = 0%float.
Proof.
  unfold finite_double. intros H. apply Prim2SF_inj. rewrite sub_spec.
  destruct (Prim2SF x) as [s|s| |s m e]; try discriminate.
  - destruct s; reflexivity.
  - unfold SF64sub. cbn [SFsub]. rewrite Z.sub_diag. reflexivity.
Qed.

Lemma shr_1_m mrs : 0 <= shr_m mrs -> shr_m (shr_1 mrs) = Z.div2 (shr_m mrs).
Proof.
  destruct mrs as [m r s]. cbn [shr_m]. intros H.
  destruct m as [|[p|p|]|p]; try reflexivity. lia.
Qed.

Lemma iter_pos_shr_1_m p mrs :
  0 <= shr_m mrs -> shr_m (SpecFloat.iter_pos shr_1 p mrs) = shr_m mrs / 2 ^ Zpos p.
Proof.
  revert mrs. induction p as [p IH|p IH|]; intros mrs H; cbn [SpecFloat.iter_pos].
  - assert (H1 : 0 <= shr_m (shr_1 mrs)).
    { rewrite shr_1_m by exact H. rewrite Z.div2_div. apply Z.div_pos; lia. }
    assert (H2 : 0 <= shr_m (SpecFloat.iter_pos shr_1 p (shr_1 mrs))).
    { rewrite IH by exact H1. apply Z.div_pos; [exact H1 | lia]. }
    rewrite IH by exact H2. rewrite IH by exact H1. rewrite shr_1_m by exact H.
    rewrite Z.div2_div. rewrite !Z.div_div by lia. f_equal.
    replace (Zpos p~1) with (Zpos p + Zpos p + 1) by lia.
    rewrite !Z.pow_add_r by lia. lia.
  - assert (H2 : 0 <= shr_m (SpecFloat.iter_pos shr_1 p mrs)).
    { rewrite IH by exact H. apply Z.div_pos; [exact H | lia]. }
    rewrite IH by exact H2. rewrite IH by exact H. rewrite Z.div_div by lia. f_equal.
    replace (Zpos p~0) with (Zpos p + Zpos p) by lia.
    rewrite Z.pow_add_r by lia. lia.
  - rewrite shr_1_m by exact H. rewrite Z.div2_div. reflexivity.
Qed.

Lemma digits2_pos_lower p : 2 ^ (Zpos (digits2_pos p) - 1) <= Zpos p.
Proof.
  induction p as [p IH|p IH|]; cbn [digits2_pos]; [| |cbn; lia].
  - rewrite Pos2Z.inj_succ.
    replace (Z.succ (Zpos (digits2_pos p)) - 1)
      with (Z.succ (Zpos (digits2_pos p) - 1)) by lia.
    rewrite Z.pow_succ_r by lia. lia.
  - rewrite Pos2Z.inj_succ.
    replace (Z.succ (Zpos (digits2_pos p)) - 1)
      with (Z.succ (Zpos (digits2_pos p) - 1)) by lia.
    rewrite Z.pow_succ_r by lia. lia.
Qed.

(** Rounding a positive mantissa above the subnormal range keeps it
    positive: fewer bits are shifted out than it has. *)
Lemma shr_fexp_pos m e l :
  0 < m -> -1074 <= e ->
  0 < shr_m (fst (shr_fexp prec emax m e l)) /\ e <= snd (shr_fexp prec emax m e l).
Proof.
  intros Hm He. unfold shr_fexp, shr.
  assert (Hrec : shr_m (shr_record_of_loc m l) = m).
  { destruct l as [|[]]; reflexivity. }
  destruct m as [|p|p]; try lia.
  cbn [Zdigits2]. unfold fexp, emin.
  change (3 - emax - prec) with (-1074). change prec with 53.
  pose proof (digits2_pos_lower p) as Hd.
  set (d := Zpos (digits2_pos p)) in *.
  assert (0 < d) by (unfold d; lia).
  destruct (Z.max (d + e - 53) (-1074) - e) as [|q|q] eqn:En; cbn [fst snd].
  - rewrite Hrec. lia.
  - rewrite iter_pos_shr_1_m by (rewrite Hrec; lia). rewrite Hrec. split; [|lia].
    apply Z.div_str_pos. split; [apply Z.pow_pos_nonneg; lia|].
    eapply Z.le_trans; [|exact Hd]. apply Z.pow_le_mono_r; lia.
  - rewrite Hrec. lia.
Qed.

Lemma binary_round_aux_pos m e l :
  0 < m -> -1074 <= e -> pos_or_inf (binary_round_aux prec emax false m e l).
Proof.
  intros Hm He. unfold binary_round_aux.
  pose proof (shr_fexp_pos m e l Hm He) as [H1 H2].
  destruct (shr_fexp prec emax m e l) as [mrs' e']. cbn [fst snd] in H1, H2.
  set (m1 := round_nearest_even (shr_m mrs') (loc_of_shr_record mrs')).
  assert (Hm1 : 0 < m1).
  { unfold m1, round_nearest_even.
    destruct (loc_of_shr_record mrs') as [|[]]; try lia.
    destruct (Z.even (shr_m mrs')); lia. }
  pose proof (shr_fexp_pos m1 e' loc_Exact Hm1 ltac:(lia)) as [H3 H4].
  destruct (shr_fexp prec emax m1 e' loc_Exact) as [mrs'' e'']. cbn [fst snd] in H3, H4.
  destruct (shr_m mrs''); try lia.
  destruct (e'' <=? emax - prec); exact I.
Qed.

Lemma binary_normalize_pos p :
  pos_or_inf (binary_normalize prec emax (Zpos p) 0 false).
Proof.
  cbn [binary_normalize]. unfold binary_round, shl_align.
  unfold fexp, emin. change (3 - emax - prec) with (-1074). change prec with 53.
  destruct (Z.max (Zpos (digits2_pos p) + 0 - 53) (-1074) - 0) eqn:E;
    apply binary_round_aux_pos; lia.
Qed.

(** The conversion of a positive count is a positive number. *)
Lemma double_of_uint_pos z :
  0 < z < 2 ^ 63 -> pos_or_inf (Prim2SF (double_of_uint z)).
Proof.
  intros Hz. unfold double_of_uint. rewrite of_uint63_spec.
  change (Uint63Axioms.to_Z (Uint63.of_Z z)) with (Uint63.to_Z (Uint63.of_Z z)).
  rewrite Uint63.of_Z_spec.
  change Uint63.wB with (2 ^ 63). rewrite Z.mod_small by lia.
  destruct z as [|p|p]; try lia. apply binary_normalize_pos.
Qed.

Lemma zero_div_pos (y : double) : pos_or_inf (Prim2SF y) -> (0 / y)%float = 0%float.
Proof.
  intros H. apply Prim2SF_inj. rewrite div_spec.
  change (Prim2SF 0) with (S754_zero false).
  destruct (Prim2SF y) as [s|s| |s m e]; cbn in H; try contradiction;
    destruct s; try contradiction; reflexivity.
Qed.



(** ** Compatibility distance *)

Lemma compare_connections_nil_l cs2 m d s :
  compare_connections [] cs2 m d s = (m, d, s, length cs2).
Proof. destruct cs2; reflexivity. Qed.

Lemma compare_connections_nil_r cs1 m d s :
  compare_connections cs1 [] m d s = (m, d, s, (length cs1 + 0)%nat).
Proof. destruct cs1; reflexivity. Qed.

Lemma compare_connections_cons c1 cs1 c2 cs2 m d s :
  compare_connections (c1 :: cs1) (c2 :: cs2) m d s =
  if conn_innovation c1 =? conn_innovation c2 then
    compare_connections cs1 cs2 (S m) d
      (s + abs (conn_weight c1 - conn_weight c2))%float
  else if conn_innovation c1 <? conn_innovation c2 then
    compare_connections cs1 (c2 :: cs2) m (S d) s
  else compare_connections (c1 :: cs1) cs2 m (S d) s.
Proof. reflexivity. Qed.

(** The merge visits the same pairs in either order of the arguments. *)
Lemma compare_connections_sym cs1 cs2 m d s :
  compare_connections cs1 cs2 m d s = compare_connections cs2 cs1 m d s.
Proof.
  revert cs2 m d s. induction cs1 as [|c1 cs1 IH1]; intros cs2 m d s.
  - rewrite compare_connections_nil_l, compare_connections_nil_r.
    f_equal. lia.
  - revert m d s. induction cs2 as [|c2 cs2 IH2]; intros m d s.
    + rewrite compare_connections_nil_l, compare_connections_nil_r.
      f_equal. lia.
    + rewrite !compare_connections_cons.
      rewrite (Z.eqb_sym (conn_innovation c2) (conn_innovation c1)).
      destruct (Z.eqb_spec (conn_innovation c1) (conn_innovation c2)) as [E|E].
      * rewrite abs_sub_comm. apply IH1.
      * destruct (Z.ltb_spec (conn_innovation c1) (conn_innovation c2)) as [L|L];
          destruct (Z.ltb_spec (conn_innovation c2) (conn_innovation c1)) as [L'|L'];
          try lia.
        -- apply IH1.
        -- apply IH2.
Qed.

(** A genome against itself: every gene matches, with weight difference 0
    when the weights are finite. *)
Lemma compare_connections_diag cs m d :
  Forall (fun c => finite_double (conn_weight c) = true) cs ->
  compare_connections cs cs m d 0%float = ((m + length cs)%nat, d, 0%float, 0%nat).
Proof.
  intros H. revert m. induction H as [|c cs Hc _ IH]; intros m.
  - cbn. f_equal. f_equal. f_equal. lia.
  - rewrite compare_connections_cons, Z.eqb_refl.
    rewrite (sub_diag_finite _ Hc).
    change (0 + abs 0)%float with 0%float.
    rewrite IH. cbn [length]. f_equal. f_equal. f_equal. lia.
Qed.

Lemma zero_div_size (n : nat) :
  Z.of_nat n < 2 ^ 63 ->
  let N := double_of_size_t n in
  (0 / (if N <? 20.0 then 1.0 else N))%float = 0%float.
Proof.
  intros Hn. cbv zeta. destruct n as [|n].
  - reflexivity.
  - destruct (_ <? _)%float; [reflexivity|].
    apply zero_div_pos. apply double_of_uint_pos. lia.
Qed.

Lemma add_nan_l (y : double) : (nan + y)%float = nan.
Proof. apply Prim2SF_inj. rewrite add_spec. reflexivity. Qed.

Lemma add_nan_r (x : double) : (x + nan)%float = nan.
Proof.
  apply Prim2SF_inj. rewrite add_spec.
  change (Prim2SF nan) with S754_nan. destruct (Prim2SF x); reflexivity.
Qed.

Lemma mul_nan_r (x : double) : (x * nan)%float = nan.
Proof.
  apply Prim2SF_inj. rewrite mul_spec.
  change (Prim2SF nan) with S754_nan. destruct (Prim2SF x); reflexivity.
Qed.

Lemma div_nan_l (y : double) : (nan / y)%float = nan.
Proof. apply Prim2SF_inj. rewrite div_spec. reflexivity. Qed.

(** [x - x] is NaN when [x] is an infinity or NaN. *)
Lemma sub_diag_not_finite (x : double) : finite_double x = false -> (x - x)%float = nan.
Proof.
  unfold finite_double. intros H. apply Prim2SF_inj. rewrite sub_spec.
  destruct (Prim2SF x) as [s|s| |s m e]; try discriminate.
  - destruct s; reflexivity.
  - reflexivity.
Qed.

(** The merge loop on a genome and itself matches every gene; once the sum
    of the weight differences is NaN it stays NaN. *)
Lemma compare_connections_diag_nan cs m d s :
  s = nan \/ Exists (fun c => finite_double (conn_weight c) = false) cs ->
  compare_connections cs cs m d s = ((m + length cs)%nat, d, nan, 0%nat).
Proof.
  revert m s. induction cs as [|c cs IH]; intros m s H.
  - destruct H as [->|H]; [|inversion H]. cbn. f_equal. f_equal. f_equal. lia.
  - rewrite compare_connections_cons, Z.eqb_refl.
    rewrite IH; [cbn [length]; f_equal; f_equal; f_equal; lia|].
    destruct H as [->|H]; [left; apply add_nan_l|].
    apply Exists_cons in H. destruct H as [H|H]; [left|right; exact H].
    rewrite (sub_diag_not_finite _ H). change (abs nan) with nan. apply add_nan_r.
Qed.

Lemma neat_compatibility_distance_comm genome1 genome2 :
  neat_compatibility_distance genome1 genome2 = neat_compatibility_distance genome2 genome1.
Proof.
  unfold neat_compatibility_distance.
  rewrite (compare_connections_sym (connections genome1) (connections genome2)).
  rewrite (Nat.max_comm (connection_count genome1) (connection_count genome2)).
  reflexivity.
Qed.

(** C7, as amended.  The two distances [d(A,B)] and [d(B,A)] are the same
    value: they compare equal with [==] unless both are NaN.  The
    distance of a genome to itself is 0 when all its connection weights
    are finite numbers (and its connection count is one an array can
    have), and it is NaN when one of its connection weights is an
    infinity or NaN. *)
Theorem neat_compatibility_distance_sym_zero (genome1 genome2 : neat_genome_t) :
  let d12 := neat_compatibility_distance genome1 genome2 in
  let d21 := neat_compatibility_distance genome2 genome1 in
  let d11 := neat_compatibility_distance genome1 genome1 in
  ((d12 =? d21)%float = true \/ (is_nan d12 = true /\ is_nan d21 = true))
  /\ (Forall (fun c => finite_double (conn_weight c) = true) (connections genome1) ->
      Z.of_nat (connection_count genome1) < 2 ^ 63 ->
      d11 = 0%float)
  /\ (Exists (fun c => finite_double (conn_weight c) = false) (connections genome1) ->
      is_nan d11 = true).
Proof.
  cbv zeta. split; [|split].
  - rewrite (neat_compatibility_distance_comm genome1 genome2).
    unfold is_nan.
    destruct (neat_compatibility_distance genome2 genome1
              =? neat_compatibility_distance genome2 genome1)%float;
      [left; reflexivity | right; split; reflexivity].
  - intros Hfin Hlen. unfold neat_compatibility_distance.
    rewrite (compare_connections_diag _ 0 0 Hfin).
    rewrite Nat.max_id. cbn [Nat.add].
    change (NEAT_EXCESS_COEFF * double_of_size_t 0)%float with 0%float.
    change (NEAT_DISJOINT_COEFF * double_of_size_t 0)%float with 0%float.
    rewrite (zero_div_size _ Hlen).
    change (0 + 0)%float with 0%float.
    change (NEAT_WEIGHT_COEFF * 0)%float with 0%float.
    fold (connection_count genome1).
    destruct (connection_count genome1) as [|n] eqn:En; [reflexivity|].
    cbn [Nat.ltb Nat.leb].
    rewrite zero_div_pos by (apply double_of_uint_pos; lia).
    reflexivity.
  - intros Hex. unfold neat_compatibility_distance.
    rewrite (compare_connections_diag_nan _ 0 0 0%float (or_intror Hex)).
    cbn [Nat.add].
    destruct (connections genome1) as [|c cs] eqn:Ec; [inversion Hex|].
    cbn [length Nat.ltb Nat.leb].
    rewrite mul_nan_r, div_nan_l, add_nan_r. reflexivity.
Qed.

(** The amended statement on these genomes: both orders give 2.15 (one
    disjoint and one excess gene, mean weight difference 0.375), the
    distance of the first genome to itself is 0, and that of a genome
    with an infinite weight to itself is NaN. *)
Lemma neat_compatibility_distance_sym_zero_witness :
  ((neat_compatibility_distance distance_genome_a distance_genome_b
    =? neat_compatibility_distance distance_genome_b distance_genome_a)%float = true
   \/ (is_nan (neat_compatibility_distance distance_genome_a distance_genome_b) = true
       /\ is_nan (neat_compatibility_distance distance_genome_b distance_genome_a) = true))
  /\ neat_compatibility_distance distance_genome_a distance_genome_a = 0%float
  /\ is_nan (neat_compatibility_distance infinite_weight_genome infinite_weight_genome)
     = true.
Proof.
  split; [|split].
  - apply (proj1 (neat_compatibility_distance_sym_zero distance_genome_a distance_genome_b)).
  - apply (proj1 (proj2 (neat_compatibility_distance_sym_zero
                           distance_genome_a distance_genome_b))).
    + repeat constructor.
    + vm_compute. reflexivity.
  - apply (proj2 (proj2 (neat_compatibility_distance_sym_zero
                           infinite_weight_genome infinite_weight_genome))).
    constructor. reflexivity.
Defined.

(** C7, counterexample.  For these genomes the weight difference of the
    matching gene is [inf - inf] or [nan - nan], a NaN, and so is the
    distance of the genome to itself: it is not 0. *)
Lemma neat_compatibility_distance_self_nan :
  neat_compatibility_distance infinite_weight_genome infinite_weight_genome = nan
  /\ neat_compatibility_distance infinite_weight_genome infinite_weight_genome <> 0%float
  /\ neat_compatibility_distance nan_weight_genome nan_weight_genome = nan
  /\ neat_compatibility_distance nan_weight_genome nan_weight_genome <> 0%float.
Proof.
  vm_compute. split; [reflexivity|]. split; [discriminate|].
  split; [reflexivity|discriminate].
Qed.

(** ** Stale species *)

Lemma map_insert_same {A B} (f : A -> B) (l : list A) (i : nat) (x y : A) :
  l !! i = Some y -> f x = f y -> map f (<[i := x]> l) = map f l.
Proof.
  revert i. induction l as [|a l IH]; intros [|i] H E; simpl in *; try discriminate.
  - injection H as ->. rewrite E. reflexivity.
  - f_equal. apply (IH i H E).
Qed.

(** The loop only rewrites the [staleness] field of the species it visits:
    identifiers and member lists stay, in the same order. *)
Lemma stale_loop_keeps_species fuel i ss m ss' m' :
  stale_loop fuel i ss m = Some (ss', m') ->
  map species_ident ss' = map species_ident ss /\ map members ss' = map members ss.
Proof.
  revert i ss m. induction fuel as [|fuel IH]; intros i ss m H.
  - cbn in H. destruct (ss !! i); [discriminate|]. injection H as <- <-. auto.
  - cbn [stale_loop] in H. destruct (ss !! i) as [sp|] eqn:Ei.
    + destruct (_ <? _)%float; apply IH in H as [H1 H2];
        rewrite H1, H2; split; apply (map_insert_same _ _ _ _ sp Ei); reflexivity.
    + injection H as <- <-. auto.
Qed.

(** [neat_remove_stale_species] removes no species: whenever it
    returns, the population has the same species with the same members in
    the same order (only staleness counters and [max_fitness_achieved]
    change), however long a species has gone without improvement. *)
Theorem neat_remove_stale_species_removes_nothing (fuel : nat) (pop : neat_population_t) :
  match neat_remove_stale_species fuel pop with
  | Some pop' =>
      map species_ident (species pop') = map species_ident (species pop)
      /\ map members (species pop') = map members (species pop)
      /\ genomes pop' = genomes pop
  | None => True
  end.
Proof.
  unfold neat_remove_stale_species.
  destruct (stale_loop fuel 0 (species pop) (max_fitness_achieved pop))
    as [[ss m]|] eqn:E; [|exact I].
  apply stale_loop_keeps_species in E as [H1 H2]. cbn. auto.
Qed.

(** The call on that population: species 2 is still there, with staleness
    21, above [NEAT_DEFAULT_STAGNATION_LIMIT]. *)
Example stale_species_survives :
  option_map (fun p => map (fun sp => (species_ident sp, staleness sp)) (species p))
    (neat_remove_stale_species 3 stale_population)
  = Some [(1, 1); (2, 21)]
  /\ NEAT_DEFAULT_STAGNATION_LIMIT < 21.
Proof. vm_compute. split; reflexivity. Qed.

(** ** Reproduction *)

Lemma sort_pass_length gs mj rest : length (snd (sort_pass gs mj rest)) = length rest.
Proof.
  revert mj. induction rest as [|mk rest IH]; intros mj; [reflexivity|].
  cbn [sort_pass]. destruct (_ <? _)%float.
  - specialize (IH mk). destruct (sort_pass gs mk rest). cbn in *. lia.
  - specialize (IH mj). destruct (sort_pass gs mj rest). cbn in *. lia.
Qed.

Lemma sort_members_length gs n ms : length (sort_members gs n ms) = length ms.
Proof.
  revert ms. induction n as [|n IH]; intros ms; [destruct ms; reflexivity|].
  destruct ms as [|mj rest]; [reflexivity|]. cbn [sort_members].
  pose proof (sort_pass_length gs mj rest) as H.
  destruct (sort_pass gs mj rest) as [m r]. cbn in *. rewrite IH. lia.
Qed.

Lemma has_members_sorted gs n sp :
  has_members sp -> has_members (species_with_members (sort_members gs n (members sp)) sp).
Proof.
  unfold has_members. cbn. intros H E. apply H.
  apply (f_equal length) in E. rewrite sort_members_length in E.
  destruct (members sp); [reflexivity | discriminate].
Qed.

(** The elite pass keeps the number of species and their being non-empty,
    and never stores more than [size] genomes. *)
Lemma carry_over_elites_spec gs size ss new_genomes :
  Forall has_members ss ->
  (length new_genomes <= size)%nat ->
  let '(ss', new_genomes') := carry_over_elites gs size ss new_genomes in
  Forall has_members ss' /\ length ss' = length ss
  /\ (length new_genomes' <= size)%nat.
Proof.
  intros H. revert new_genomes. induction H as [|sp ss Hsp Hss IH]; intros new_genomes Hn.
  - cbn. auto.
  - cbn [carry_over_elites].
    destruct (length new_genomes <? size)%nat eqn:El; [|repeat split; auto].
    apply Nat.ltb_lt in El.
    set (ms := sort_members gs (member_count sp - 1) (members sp)).
    set (new1 := match ms with
                 | best :: _ => new_genomes ++ [neat_clone_genome (genome_at gs best)]
                 | [] => new_genomes
                 end).
    assert (Hn1 : (length new1 <= size)%nat).
    { unfold new1. destruct ms; [lia|]. rewrite length_app. cbn. lia. }
    specialize (IH new1 Hn1).
    destruct (carry_over_elites gs size ss new1) as [ss'' new2].
    destruct IH as (H1 & H2 & H3). repeat split.
    + constructor; [|exact H1]. apply has_members_sorted. exact Hsp.
    + cbn. lia.
    + exact H3.
Qed.

Lemma carry_over_elites_nil gs size new_genomes :
  carry_over_elites gs size [] new_genomes = ([], new_genomes).
Proof. reflexivity. Qed.

(** With at least one species the selection always yields one of them. *)
Lemma select_species_some ss r :
  ss <> [] -> exists sp, select_species ss r = Some sp /\ In sp ss.
Proof.
  revert r. induction ss as [|sp ss IH]; intros r H; [contradiction|].
  cbn [select_species]. destruct ss as [|sp' ss'].
  - exists sp. rewrite orb_true_r. split; [reflexivity | left; reflexivity].
  - destruct (_ <=? _)%float; cbn [orb].
    + exists sp. split; [reflexivity | left; reflexivity].
    + destruct (IH (r - abs (average_fitness sp))%float) as (sp0 & E & Hin); [discriminate|].
      exists sp0. split; [exact E | right; exact Hin].
Qed.

(** When every species has members, each iteration of the offspring loop
    stores one genome: [size - length new_genomes] iterations fill the
    population. *)
Lemma fill_offspring_terminates M gs ss total size fuel :
  ss <> [] -> Forall has_members ss ->
  forall table new_genomes seed,
    (size - length new_genomes <= fuel)%nat ->
    exists new_genomes' table' seed',
      fill_offspring M fuel gs ss total size table new_genomes seed
      = (Some (new_genomes', table'), seed')
      /\ length new_genomes' = Nat.max (length new_genomes) size.
Proof.
  intros Hne Hall. induction fuel as [|fuel IH]; intros table new_genomes seed Hf.
  - cbn [fill_offspring]. destruct (Nat.ltb_spec (length new_genomes) size); [lia|].
    eexists _, _, _. split; [reflexivity|]. lia.
  - cbn [fill_offspring]. destruct (Nat.ltb_spec (length new_genomes) size) as [Hl|Hl].
    + unfold bind at 1. destruct (neat_random_uniform 0 total seed) as [r seed1].
      destruct (select_species_some ss r Hne) as (sp & -> & Hin).
      assert (Hsp : has_members sp).
      { rewrite Forall_forall in Hall. apply Hall. apply list_elem_of_In. exact Hin. }
      assert (Em : (member_count sp =? 0)%nat = false).
      { apply Nat.eqb_neq. unfold member_count. intros E. apply Hsp.
        destruct (members sp); [reflexivity | discriminate]. }
      rewrite Em. unfold bind at 1.
      destruct (make_offspring M gs sp table seed1) as [[offspring table1] seed2].
      destruct (IH table1 (new_genomes ++ [offspring]) seed2) as (n' & t' & s' & E & L).
      { rewrite length_app. cbn. lia. }
      exists n', t', s'. split; [exact E|]. rewrite L, length_app. cbn. lia.
    + eexists _, _, _. split; [reflexivity|]. lia.
Qed.

(** Without species an iteration selects nothing and stores nothing. *)
Lemma fill_offspring_no_species M gs total size fuel :
  forall table new_genomes seed,
    (length new_genomes < size)%nat ->
    fst (fill_offspring M fuel gs [] total size table new_genomes seed) = None.
Proof.
  induction fuel as [|fuel IH]; intros table new_genomes seed Hl; cbn [fill_offspring];
    destruct (Nat.ltb_spec (length new_genomes) size); try lia; [reflexivity|].
  unfold bind at 1. destruct (neat_random_uniform 0 total seed) as [r seed1].
  cbn [select_species]. apply IH. exact Hl.
Qed.

(** An iteration that draws the same number again from an unchanged seed
    and selects a species without members repeats itself. *)
Lemma fill_offspring_spins M gs ss total size table new_genomes seed r sp fuel :
  (length new_genomes < size)%nat ->
  neat_random_uniform 0.0 total seed = (r, seed) ->
  select_species ss r = Some sp ->
  members sp = [] ->
  fill_offspring M fuel gs ss total size table new_genomes seed = (None, seed).
Proof.
  intros Hl Er Es Em. induction fuel as [|fuel IH]; cbn [fill_offspring];
    destruct (Nat.ltb_spec (length new_genomes) size); try lia; [reflexivity|].
  unfold bind at 1. rewrite Er, Es. unfold member_count. rewrite Em. exact IH.
Qed.

(** C10, as amended.  When the species list is not empty and every species
    has at least one member, [neat_reproduce] terminates: some amount of
    fuel gives a result, and the new population has exactly
    [population_size] genomes.  With an empty species list and a positive
    target size no amount of fuel gives a result: the offspring loop never
    selects a species. *)
Theorem neat_reproduce_termination (M : libm) (pop : neat_population_t) (seed : Z) :
  (species pop <> [] ->
   Forall (fun sp => members sp <> []) (species pop) ->
   exists fuel pop' seed',
     neat_reproduce M fuel pop seed = (Some pop', seed')
     /\ genome_count pop' = population_size pop)
  /\
  (species pop = [] ->
   (0 < population_size pop)%nat ->
   forall fuel, fst (neat_reproduce M fuel pop seed) = None).
Proof.
  split.
  - intros Hne Hall. unfold neat_reproduce.
    pose proof (carry_over_elites_spec (genomes pop) (population_size pop) (species pop) []
                  Hall ltac:(cbn; lia)) as Hc.
    destruct (carry_over_elites (genomes pop) (population_size pop) (species pop) [])
      as [ss elites].
    destruct Hc as (Hall' & Hlen & Hsize).
    assert (Hne' : ss <> []).
    { intros ->. destruct (species pop); [contradiction | discriminate]. }
    exists (population_size pop).
    destruct (fill_offspring_terminates M (genomes pop) ss
                (total_average_fitness (species pop)) (population_size pop)
                (population_size pop) Hne' Hall' (innovation_table pop) elites seed
                ltac:(lia)) as (new' & table' & seed' & E & L).
    unfold bind. rewrite E. unfold ret.
    eexists _, _. split; [reflexivity|].
    unfold genome_count. cbn. lia.
  - intros Hnil Hsize fuel. unfold neat_reproduce. rewrite Hnil.
    rewrite carry_over_elites_nil. unfold bind.
    pose proof (fill_offspring_no_species M (genomes pop) (total_average_fitness [])
                  (population_size pop) fuel (innovation_table pop) [] seed Hsize) as H.
    destruct (fill_offspring M fuel (genomes pop) [] (total_average_fitness [])
                (population_size pop) (innovation_table pop) [] seed) as [res seed'].
    cbn in H. subst res. reflexivity.
Qed.

(** The amended statement on these populations, from the seed 1. *)
Lemma neat_reproduce_termination_witness :
  (exists fuel pop' seed',
     neat_reproduce libm_at_zero fuel one_species_population 1 = (Some pop', seed')
     /\ genome_count pop' = 3%nat)
  /\ (forall fuel, fst (neat_reproduce libm_at_zero fuel no_species_population 1) = None).
Proof.
  split.
  - apply (proj1 (neat_reproduce_termination libm_at_zero one_species_population 1)).
    + discriminate.
    + repeat constructor; discriminate.
  - apply (proj2 (neat_reproduce_termination libm_at_zero no_species_population 1)).
    + reflexivity.
    + cbn. lia.
Defined.

(** A draw between 0 and 0 is [0 + (0 - 0) * u]: it is 0, or a NaN if [u]
    is not a finite number. *)
Lemma uniform_0_0 (u : double) :
  (0 + (0 - 0) * u)%float = 0%float \/ (0 + (0 - 0) * u)%float = nan.
Proof.
  change (0 - 0)%float with 0%float.
  assert (H : (0 * u)%float = 0%float \/ (0 * u)%float = (-0)%float
              \/ (0 * u)%float = nan).
  { rewrite <- (SF2Prim_Prim2SF (0 * u)), mul_spec.
    change (Prim2SF 0) with (S754_zero false).
    destruct (Prim2SF u) as [[|]|[|]| |[|] m e]; vm_compute; auto. }
  destruct H as [-> | [-> | ->]]; vm_compute; auto.
Qed.

(** When every draw selects a species without members, the offspring loop
    makes no progress, from any seed. *)
Lemma fill_offspring_spins_always M gs ss total size table new_genomes :
  (length new_genomes < size)%nat ->
  (forall seed, exists sp,
      select_species ss (fst (neat_random_uniform 0.0 total seed)) = Some sp
      /\ members sp = []) ->
  forall fuel seed,
    fst (fill_offspring M fuel gs ss total size table new_genomes seed) = None.
Proof.
  intros Hl Hsel. induction fuel as [|fuel IH]; intros seed; cbn [fill_offspring];
    destruct (Nat.ltb_spec (length new_genomes) size); try lia; [reflexivity|].
  unfold bind at 1. destruct (Hsel seed) as (sp & Es & Em).
  destruct (neat_random_uniform 0 total seed) as [r seed1]. cbn [fst] in Es.
  rewrite Es. unfold member_count. rewrite Em. apply IH.
Qed.

(** C10, counterexample.  Both populations have a species with a member,
    all fitness values are 0.0 and the target size is 2, yet
    [neat_reproduce] does not terminate on them: the elite of species 2 is
    stored, and then every iteration draws [r = 0 + (0 - 0) * u = 0],
    selects species 1 because [r - 0 <= 0], finds it without members and
    continues.  For [empty_first_population] this is shown from the seed 0
    (which [xorshift32] maps to itself); for [empty_ends_population] from
    every seed (there even a draw that is not a finite number would select
    a species without members, the last one).  And with an empty species
    list the call does terminate when the target size is 0: the offspring
    loop is not entered. *)
Lemma neat_reproduce_spins_on_empty_species :
  Exists (fun sp => members sp <> []) (species empty_first_population)
  /\ (forall (M : libm) (fuel : nat),
        neat_reproduce M fuel empty_first_population 0 = (None, 0))
  /\ Exists (fun sp => members sp <> []) (species empty_ends_population)
  /\ (forall (M : libm) (fuel : nat) (seed : Z),
        fst (neat_reproduce M fuel empty_ends_population seed) = None)
  /\ species zero_size_population = []
  /\ (forall (M : libm) (seed : Z),
        option_map genome_count (fst (neat_reproduce M 0 zero_size_population seed))
        = Some 0%nat).
Proof.
  split; [right; left; discriminate|].
  split; [|split; [right; left; discriminate|split; [|split; [reflexivity|reflexivity]]]].
  - intros M fuel. unfold neat_reproduce.
    match goal with |- context [carry_over_elites ?a ?b ?c ?d] =>
      let v := eval vm_compute in (carry_over_elites a b c d) in
      change (carry_over_elites a b c d) with v end.
    cbv beta iota. unfold bind.
    rewrite (fill_offspring_spins M _ _ _ _ _ _ 0 0%float (neat_create_species 1) fuel).
    + reflexivity.
    + cbn. lia.
    + vm_compute. reflexivity.
    + vm_compute. reflexivity.
    + reflexivity.
  - intros M fuel seed. unfold neat_reproduce.
    match goal with |- context [carry_over_elites ?a ?b ?c ?d] =>
      let v := eval vm_compute in (carry_over_elites a b c d) in
      change (carry_over_elites a b c d) with v end.
    cbv beta iota. unfold bind.
    match goal with |- context [fill_offspring M fuel ?gs ?ss ?total ?size ?table ?new seed] =>
      pose proof (fill_offspring_spins_always M gs ss total size table new
                    ltac:(cbn; lia)) as H;
      change total with 0%float in H |- * end.
    match type of H with ?P -> _ => assert (Hsel : P) end.
    { intros seed0. unfold neat_random_uniform, bind, ret.
      destruct (xorshift32 seed0) as [x seed1]. cbn [fst].
      destruct (uniform_0_0 (double_of_ulong x / double_of_uint UINT32_MAX)) as [-> | ->].
      - exists (neat_create_species 1). split; reflexivity.
      - exists (neat_create_species 3). split; reflexivity. }
    specialize (H Hsel fuel seed).
    destruct (fill_offspring M fuel _ _ _ _ _ _ seed) as [res seed'].
    cbn [fst] in H. subst res. reflexivity.
Qed.

(** ** One generation *)

(** Once [max_fitness_achieved] is the truncation [m] of a species' best
    fitness and still below it, the stale-species loop repeats the same
    iteration on the same index for ever. *)
Lemma stale_loop_spins ss i sp m fuel :
  ss !! i = Some sp ->
  staleness sp = 0 ->
  (double_of_int m <? best_fitness sp)%float = true ->
  double_to_int (best_fitness sp) = m ->
  stale_loop fuel i ss m = None.
Proof.
  intros Ei Hs Hlt Hm. induction fuel as [|fuel IH]; cbn [stale_loop]; rewrite Ei;
    [reflexivity|].
  cbn [best_fitness species_with_staleness]. rewrite Hlt, Hm.
  replace (species_with_staleness 0 _) with sp.
  - rewrite list_insert_id by exact Ei. exact IH.
  - destruct sp. cbn in *. subst. reflexivity.
Qed.

(** C5.  On [scored_population], [neat_evolve] never reaches the
    reproduction: the evaluation stores [(int)2.5 = 2] in
    [max_fitness_achieved], the one species has the best fitness 2.5, and
    [neat_remove_stale_species] finds [2.5 > 2], stores [(int)2.5] again
    and repeats without advancing.  No amount of fuel gives a result. *)
Theorem neat_evolve_does_not_return (M : libm) (fuel : nat) (seed : Z) :
  neat_evolve M fuel scored_population seed = (None, seed)
  /\ map members (species scored_population) = [[0; 1]%nat]
  /\ population_size scored_population = 2%nat.
Proof.
  split; [|split; reflexivity].
  unfold neat_evolve, neat_remove_stale_species.
  match goal with |- context [evolve_prepare ?p] =>
    let v := eval vm_compute in (evolve_prepare p) in
    change (evolve_prepare p) with v end.
  cbn [species max_fitness_achieved].
  erewrite stale_loop_spins; [reflexivity | reflexivity | reflexivity | | ];
    vm_compute; reflexivity.
Qed.

(** The offspring loop stops exactly when the new population is full. *)
Lemma fill_offspring_count M gs ss total size fuel :
  forall table new_genomes seed,
    (length new_genomes <= size)%nat ->
    match fst (fill_offspring M fuel gs ss total size table new_genomes seed) with
    | Some (new_genomes', _) => length new_genomes' = size
    | None => True
    end.
Proof.
  induction fuel as [|fuel IH]; intros table new_genomes seed Hl;
    cbn [fill_offspring];
    destruct (Nat.ltb_spec (length new_genomes) size) as [Hlt|Hge];
    try (cbn; lia); try exact I.
  unfold bind at 1. destruct (neat_random_uniform 0 total seed) as [r seed1].
  destruct (select_species ss r) as [sp|]; [|apply IH; exact Hl].
  destruct (member_count sp =? 0)%nat; [apply IH; exact Hl|].
  unfold bind at 1.
  destruct (make_offspring M gs sp table seed1) as [[offspring table1] seed2].
  apply IH. rewrite length_app. cbn. lia.
Qed.

Lemma carry_over_elites_count gs size ss new_genomes :
  (length new_genomes <= size)%nat ->
  (length (snd (carry_over_elites gs size ss new_genomes)) <= size)%nat.
Proof.
  revert new_genomes. induction ss as [|sp ss IH]; intros new_genomes Hn; [exact Hn|].
  cbn [carry_over_elites].
  destruct (Nat.ltb_spec (length new_genomes) size) as [Hlt|Hge]; [|exact Hn].
  match goal with |- context [carry_over_elites gs size ss ?n] =>
    specialize (IH n); destruct (carry_over_elites gs size ss n) as [ss'' new2] end.
  cbn [snd] in *. apply IH.
  destruct (sort_members _ _ _); [lia|]. rewrite length_app. cbn. lia.
Qed.

Lemma neat_reproduce_count M fuel pop seed pop' seed' :
  neat_reproduce M fuel pop seed = (Some pop', seed') ->
  genome_count pop' = population_size pop.
Proof.
  unfold neat_reproduce. intros H.
  pose proof (carry_over_elites_count (genomes pop) (population_size pop) (species pop) []
                ltac:(cbn; lia)) as Hc.
  destruct (carry_over_elites (genomes pop) (population_size pop) (species pop) [])
    as [ss elites]. cbn [snd] in Hc.
  unfold bind in H.
  pose proof (fill_offspring_count M (genomes pop) ss
                (total_average_fitness (species pop)) (population_size pop) fuel
                (innovation_table pop) elites seed Hc) as Hf.
  destruct (fill_offspring M fuel (genomes pop) ss _ _ _ elites seed)
    as [[[new_genomes table]|] seed1]; unfold ret in H; [|discriminate].
  injection H as <- <-. unfold genome_count. cbn in *. exact Hf.
Qed.

Lemma evaluate_all_length f gs m : length (fst (evaluate_all f gs m)) = length gs.
Proof.
  revert m. induction gs as [|g gs IH]; intros m; [reflexivity|].
  cbn [evaluate_all]. destruct (f g) as [fit g'].
  match goal with |- context [evaluate_all f gs ?m'] =>
    specialize (IH m'); destruct (evaluate_all f gs m') as [r m2] end.
  cbn in *. lia.
Qed.

Lemma neat_speciate_population_size pop :
  population_size (neat_speciate pop) = population_size pop.
Proof.
  unfold neat_speciate. destruct (genomes pop); [reflexivity|].
  destruct (speciate_genomes _ _ _ _). reflexivity.
Qed.

Lemma evolve_prepare_population_size pop :
  population_size (evolve_prepare pop) = population_size pop.
Proof.
  unfold evolve_prepare. cbn [population_size pop_with_genomes].
  rewrite neat_speciate_population_size.
  destruct (evaluate_genome pop); [|reflexivity].
  destruct (evaluate_all _ _ _). reflexivity.
Qed.

(** Population size stability, for the runs that end: whenever
    [neat_evolve] returns, the population holds exactly [population_size]
    genomes. *)
Theorem neat_evolve_genome_count (M : libm) (fuel : nat) (pop pop' : neat_population_t)
    (seed seed' : Z) :
  neat_evolve M fuel pop seed = (Some pop', seed') ->
  genome_count pop' = population_size pop.
Proof.
  unfold neat_evolve. intros H.
  destruct (neat_remove_stale_species fuel (evolve_prepare pop)) as [p1|] eqn:E1;
    [|discriminate].
  apply neat_reproduce_count in H. rewrite H. cbn.
  unfold neat_remove_stale_species in E1.
  destruct (stale_loop _ _ _ _) as [[ss m]|]; [|discriminate].
  injection E1 as <-. cbn. apply evolve_prepare_population_size.
Qed.

(** A generation that ends: the scores are whole numbers, the one species
    keeps its share, and the new population has two genomes. *)
Lemma neat_evolve_genome_count_witness :
  exists pop' seed',
    neat_evolve libm_at_zero 4 unit_scored_population 1 = (Some pop', seed')
    /\ genome_count pop' = 2%nat.
Proof.
  let r := eval vm_compute in (neat_evolve libm_at_zero 4 unit_scored_population 1) in
  match r with
  | (Some ?p, ?s) =>
      assert (E : neat_evolve libm_at_zero 4 unit_scored_population 1 = (Some p, s))
        by (vm_compute; reflexivity);
      exists p, s; split;
        [ exact E
        | exact (neat_evolve_genome_count libm_at_zero 4 unit_scored_population p 1 s E) ]
  end.
Defined.

(** ** Staleness after a generation *)












(** * Further properties of the code *)

(** ** The random number generator *)

Lemma lxor_below a b n :
  0 <= a < 2 ^ n -> 0 <= b < 2 ^ n -> 0 <= Z.lxor a b < 2 ^ n.
Proof.
  intros Ha Hb.
  assert (H0 : 0 <= Z.lxor a b) by (apply Z.lxor_nonneg; lia).
  split; [exact H0|].
  destruct (Z.eq_dec (Z.lxor a b) 0) as [E|E]; [lia|].
  destruct (Z.eq_dec a 0) as [->|Na]; [rewrite Z.lxor_0_l; lia|].
  destruct (Z.eq_dec b 0) as [->|Nb]; [rewrite Z.lxor_0_r; lia|].
  assert (Hn : 0 <= n).
  { destruct (Z.lt_ge_cases n 0) as [Hlt|]; [|assumption].
    rewrite Z.pow_neg_r in Ha by assumption. lia. }
  apply Z.log2_lt_pow2; [lia|].
  pose proof (Z.log2_lxor a b ltac:(lia) ltac:(lia)) as Hl.
  assert (Z.log2 a < n) by (apply Z.log2_lt_pow2; lia).
  assert (Z.log2 b < n) by (apply Z.log2_lt_pow2; lia).
  lia.
Qed.

Lemma lxor_shiftl_zero x k :
  0 <= k -> Z.gcd (2 ^ 64) (2 ^ k - 1) = 1 ->
  0 <= x < 2 ^ 64 -> Z.lxor x (Z.shiftl x k mod 2 ^ 64) = 0 -> x = 0.
Proof.
  intros Hk Hg Hx H. apply Z.lxor_eq in H.
  rewrite Z.shiftl_mul_pow2 in H by assumption.
  assert (Hd : (2 ^ 64 | (2 ^ k - 1) * x)).
  { exists (x * 2 ^ k / 2 ^ 64).
    pose proof (Z.div_mod (x * 2 ^ k) (2 ^ 64) ltac:(lia)) as Hdm.
    rewrite <- H in Hdm. lia. }
  apply Z.gauss in Hd; [|exact Hg].
  destruct Hd as [q Hq].
  assert (q = 0) by nia. lia.
Qed.

Lemma lxor_shiftr_zero x k :
  0 < k -> 0 <= x -> Z.lxor x (Z.shiftr x k) = 0 -> x = 0.
Proof.
  intros Hk Hx H. apply Z.lxor_eq in H.
  rewrite Z.shiftr_div_pow2 in H by lia.
  destruct (Z.eq_dec x 0) as [|N]; [assumption|].
  assert (1 < 2 ^ k) by (apply Z.pow_gt_1; lia).
  pose proof (Z.div_lt x (2 ^ k) ltac:(lia) ltac:(lia)). lia.
Qed.

Lemma xorshift32_state seed :
  0 <= seed < 2 ^ ULONG_BITS ->
  snd (xorshift32 seed) = fst (xorshift32 seed)
  /\ 0 <= fst (xorshift32 seed) < 2 ^ ULONG_BITS
  /\ (fst (xorshift32 seed) = 0 <-> seed = 0).
Proof.
  unfold xorshift32, ULONG_BITS. cbv zeta. cbn [fst snd]. intros Hs.
  set (x1 := Z.lxor seed (Z.shiftl seed 13 mod 2 ^ 64)).
  set (x2 := Z.lxor x1 (Z.shiftr x1 17)).
  set (x3 := Z.lxor x2 (Z.shiftl x2 5 mod 2 ^ 64)).
  assert (H1 : 0 <= x1 < 2 ^ 64).
  { apply lxor_below; [exact Hs|]. apply Z.mod_pos_bound. lia. }
  assert (H2 : 0 <= x2 < 2 ^ 64).
  { apply lxor_below; [exact H1|]. rewrite Z.shiftr_div_pow2 by lia.
    split; [apply Z.div_pos; lia|].
    apply Z.le_lt_trans with x1; [|lia]. apply Z.div_le_upper_bound; lia. }
  assert (H3 : 0 <= x3 < 2 ^ 64).
  { apply lxor_below; [exact H2|]. apply Z.mod_pos_bound. lia. }
  split; [reflexivity|]. split; [exact H3|]. split.
  - intros E. apply lxor_shiftl_zero in E; [|lia|reflexivity|exact H2].
    unfold x2 in E. apply lxor_shiftr_zero in E; [|lia|lia].
    unfold x1 in E. apply lxor_shiftl_zero in E; [exact E|lia|reflexivity|exact Hs].
  - intros ->. reflexivity.
Qed.

(** The generator after [neat_srand]: with the seed 0 every draw is 0; with
    any other seed no draw is ever 0, and every draw is a 64 bit value. *)
Theorem xorshift32_never_zero (s seed0 : Z) (n : nat) :
  0 <= s < 2 ^ ULONG_BITS ->
  let draws := fst ((let* _ := neat_srand s in xorshift32_draws n) seed0) in
  if s =? 0 then draws = repeat 0 n
  else Forall (fun x => 0 < x < 2 ^ ULONG_BITS) draws.
Proof.
  intros Hs. cbv zeta. unfold bind, neat_srand. cbv beta iota. clear seed0.
  destruct (Z.eqb_spec s 0) as [->|Hnz].
  - induction n as [|n IH]; [reflexivity|].
    cbn [xorshift32_draws repeat]. unfold bind at 1.
    change (xorshift32 0) with (0, 0). unfold bind at 1.
    destruct (xorshift32_draws n 0) as [r seed'] eqn:E. cbn in *. rewrite IH. reflexivity.
  - revert s Hs Hnz. induction n as [|n IH]; intros s Hs Hnz; [constructor|].
    cbn [xorshift32_draws]. unfold bind at 1.
    destruct (xorshift32_state s Hs) as (E1 & E2 & E3).
    destruct (xorshift32 s) as [x seed'] eqn:E. cbn [fst snd] in *. subst seed'.
    unfold bind at 1.
    assert (Hx : x <> 0) by (intros Hx; apply Hnz, E3, Hx).
    specialize (IH x E2 Hx).
    destruct (xorshift32_draws n x) as [r seed'']. cbn [fst ret] in *.
    constructor; [lia | exact IH].
Qed.

(** From the default seed 1: ten draws, none of them 0. *)
Lemma xorshift32_never_zero_witness :
  Forall (fun x => 0 < x < 2 ^ ULONG_BITS)
    (fst ((let* _ := neat_srand 1 in xorshift32_draws 10) 1)).
Proof.
  apply (xorshift32_never_zero 1 1 10). unfold ULONG_BITS. lia.
Defined.

Lemma to_int_mod_ulong v :
  INT_MIN <= v <= INT_MAX -> to_int (v mod 2 ^ ULONG_BITS) = v.
Proof.
  unfold to_int, INT_MIN, INT_MAX, ULONG_BITS. intros Hv.
  rewrite Zplus_mod.
  rewrite (Z.mod_mod_divide v (2 ^ 64) (2 ^ 32)) by (exists (2 ^ 32); reflexivity).
  rewrite <- Zplus_mod. rewrite Z.mod_small by lia. lia.
Qed.

(** [neat_random_int min max] stays within its bounds: for every generator
    state and every pair of [int] bounds [min <= max] whose distance fits
    an [int], the result [r] satisfies [min <= r <= max]. *)
Theorem neat_random_int_range (min max seed : Z) :
  0 <= seed < 2 ^ ULONG_BITS ->
  INT_MIN <= min -> min <= max -> max <= INT_MAX -> max - min < INT_MAX ->
  min <= fst (neat_random_int min max seed) <= max.
Proof.
  intros Hs Hmin Hle Hmax Hd. unfold neat_random_int, bind, ret.
  destruct (xorshift32_state seed Hs) as (_ & Hx & _).
  destruct (xorshift32 seed) as [x seed']. cbn [fst] in *.
  assert (Hk : (max - min + 1) mod 2 ^ ULONG_BITS = max - min + 1).
  { apply Z.mod_small. unfold INT_MAX, ULONG_BITS in *. lia. }
  rewrite Hk.
  pose proof (Z.mod_pos_bound x (max - min + 1) ltac:(lia)) as Hr.
  rewrite to_int_mod_ulong; unfold INT_MIN, INT_MAX in *; lia.
Qed.

(** A draw of a node index among ten nodes, from the default seed. *)
Lemma neat_random_int_range_witness :
  0 <= fst (neat_random_int 0 9 1) <= 9.
Proof.
  apply (neat_random_int_range 0 9 1); unfold ULONG_BITS, INT_MIN, INT_MAX; lia.
Defined.

(** ** Reasoning about computations with random draws *)

Lemma rand_post_ret {A} (P : A -> Prop) (a : A) : P a -> rand_post P (ret a).
Proof. intros H seed. exact H. Qed.

Lemma rand_post_bind {A B} (P : A -> Prop) (Q : B -> Prop) (m : Rand A) (k : A -> Rand B) :
  rand_post P m -> (forall a, P a -> rand_post Q (k a)) -> rand_post Q (bind m k).
Proof.
  intros Hm Hk seed. unfold bind. specialize (Hm seed).
  destruct (m seed) as [a seed']. apply Hk. exact Hm.
Qed.

Lemma rand_post_true {A} (m : Rand A) : rand_post (fun _ => True) m.
Proof. intros seed. exact I. Qed.

Lemma rand_post_draw {A B} (Q : B -> Prop) (m : Rand A) (k : A -> Rand B) :
  (forall a, rand_post Q (k a)) -> rand_post Q (bind m k).
Proof.
  intros Hk. apply rand_post_bind with (P := fun _ => True); [apply rand_post_true|].
  intros a _. apply Hk.
Qed.

Lemma rand_post_weaken {A} (P Q : A -> Prop) (m : Rand A) :
  (forall a, P a -> Q a) -> rand_post P m -> rand_post Q m.
Proof. intros H Hm seed. apply H, Hm. Qed.

(** ** Mutation operators *)

Lemma array_get_Some {A} (l : list A) (i : Z) (x : A) :
  array_get l i = Some x -> l !! Z.to_nat i = Some x.
Proof. unfold array_get. destruct (i <? 0); [discriminate|auto]. Qed.

Lemma add_connection_unchanged (M : libm) (genome : neat_genome_t)
    (table : option neat_innovation_table_t) (seed : Z) :
  x_pos_unset genome ->
  fst (neat_mutate_add_connection M genome table seed) = (genome, table).
Proof.
  intros H. unfold neat_mutate_add_connection.
  destruct (node_count genome <? 2)%nat; [reflexivity|].
  unfold bind at 1. destruct (neat_random_int 0 _ seed) as [from seed1].
  unfold bind at 1. destruct (neat_random_int 0 _ seed1) as [to seed2].
  destruct (from =? to); [reflexivity|].
  destruct (array_get (nodes genome) from) as [fn|] eqn:Ef; [|reflexivity].
  destruct (array_get (nodes genome) to) as [tn|] eqn:Et; [|reflexivity].
  apply array_get_Some in Ef, Et.
  rewrite (Forall_lookup_1 _ _ _ _ H Ef), (Forall_lookup_1 _ _ _ _ H Et). reflexivity.
Qed.

(** [neat_mutate_add_connection] has no effect on a genome built with the
    functions of the library: every node has [x_pos] 0, so the test
    [from_node->x_pos >= to_node->x_pos] of the non-recurrent mode rejects
    every pair of nodes.  Genome and registry are returned as they were. *)
Theorem neat_mutate_add_connection_no_effect (M : libm) (genome : neat_genome_t)
    (table : option neat_innovation_table_t) (seed : Z) :
  x_pos_unset genome ->
  fst (neat_mutate_add_connection M genome table seed) = (genome, table).
Proof. exact (add_connection_unchanged M genome table seed). Qed.

(** An input node and an output node without a connection between them:
    the mutation does not connect them. *)
Lemma neat_mutate_add_connection_no_effect_witness :
  fst (neat_mutate_add_connection libm_at_zero two_node_genome (Some split_table) 1)
  = (two_node_genome, Some split_table).
Proof.
  apply neat_mutate_add_connection_no_effect. repeat constructor.
Defined.

Lemma mutate_connection_weights_shape M cs :
  rand_post (fun cs' => map (conn_with_weight 0) cs' = map (conn_with_weight 0) cs)
    (mutate_connection_weights M cs).
Proof.
  induction cs as [|conn cs IH]; [apply rand_post_ret; reflexivity|].
  cbn [mutate_connection_weights]. apply rand_post_draw. intros u.
  apply rand_post_bind
    with (P := fun conn' => conn_with_weight 0 conn' = conn_with_weight 0 conn).
  - destruct (u <? NEAT_WEIGHT_MUTATION_POWER)%float; [|apply rand_post_ret; reflexivity].
    apply rand_post_draw. intros d. apply rand_post_draw. intros u2.
    destruct (u2 <? 0.1)%float; [apply rand_post_draw; intros w'|];
      apply rand_post_ret; reflexivity.
  - intros conn' Hc. apply rand_post_bind with (1 := IH). intros rest Hr.
    apply rand_post_ret. cbn [map]. rewrite Hc, Hr. reflexivity.
Qed.

Lemma mutate_node_biases_shape M ns :
  rand_post (fun ns' => map (node_with_bias 0) ns' = map (node_with_bias 0) ns)
    (mutate_node_biases M ns).
Proof.
  induction ns as [|node ns IH]; [apply rand_post_ret; reflexivity|].
  cbn [mutate_node_biases]. apply rand_post_draw. intros u.
  apply rand_post_bind
    with (P := fun node' => node_with_bias 0 node' = node_with_bias 0 node).
  - destruct (u <? NEAT_MUTATE_WEIGHT_RATE)%float; [|apply rand_post_ret; reflexivity].
    apply rand_post_draw. intros d. apply rand_post_ret. reflexivity.
  - intros node' Hn. apply rand_post_bind with (1 := IH). intros rest Hr.
    apply rand_post_ret. cbn [map]. rewrite Hn, Hr. reflexivity.
Qed.

Lemma mutate_weights_shape (M : libm) (genome : neat_genome_t) (seed : Z) :
  let genome' := fst (neat_mutate_weights M genome seed) in
  map (conn_with_weight 0) (connections genome')
  = map (conn_with_weight 0) (connections genome)
  /\ map (node_with_bias 0) (nodes genome') = map (node_with_bias 0) (nodes genome)
  /\ genome_with_nodes [] (genome_with_connections [] genome')
     = genome_with_nodes [] (genome_with_connections [] genome).
Proof.
  cbv zeta. revert seed.
  change (rand_post
            (fun genome' =>
               map (conn_with_weight 0) (connections genome')
               = map (conn_with_weight 0) (connections genome)
               /\ map (node_with_bias 0) (nodes genome')
                  = map (node_with_bias 0) (nodes genome)
               /\ genome_with_nodes [] (genome_with_connections [] genome')
                  = genome_with_nodes [] (genome_with_connections [] genome))
            (neat_mutate_weights M genome)).
  unfold neat_mutate_weights.
  apply rand_post_bind with (1 := mutate_connection_weights_shape M (connections genome)).
  intros cs Hcs.
  apply rand_post_bind with (1 := mutate_node_biases_shape M (nodes genome)).
  intros ns Hns. apply rand_post_ret. cbn. auto.
Qed.

(** [neat_mutate_weights] changes connection weights and node biases and
    nothing else: the nodes keep id, kind, placement, activation function
    and value, the connections keep innovation number, endpoints and
    enabled flag, both in their order, and the scalar fields of the genome
    and its cached evaluation order are the same. *)
Theorem neat_mutate_weights_keeps_topology (M : libm) (genome : neat_genome_t) (seed : Z) :
  let genome' := fst (neat_mutate_weights M genome seed) in
  map (conn_with_weight 0) (connections genome')
  = map (conn_with_weight 0) (connections genome)
  /\ map (node_with_bias 0) (nodes genome') = map (node_with_bias 0) (nodes genome)
  /\ genome_with_nodes [] (genome_with_connections [] genome')
     = genome_with_nodes [] (genome_with_connections [] genome).
Proof. exact (mutate_weights_shape M genome seed). Qed.

Lemma enable_nth_disabled_shape cs target found :
  map (conn_with_enabled true) (enable_nth_disabled cs target found)
  = map (conn_with_enabled true) cs
  /\ exists i, forall j, j <> i -> enable_nth_disabled cs target found !! j = cs !! j.
Proof.
  revert found. induction cs as [|c cs IH]; intros found; cbn [enable_nth_disabled].
  - split; [reflexivity|]. exists 0%nat. reflexivity.
  - destruct (negb (conn_enabled c)); [destruct (found =? target)|].
    + split; [reflexivity|]. exists 0%nat. intros [|j] Hj; [lia|reflexivity].
    + destruct (IH (found + 1)) as (E & i & Hi). split; [cbn; rewrite E; reflexivity|].
      exists (S i). intros [|j] Hj; [reflexivity|]. apply Hi. lia.
    + destruct (IH found) as (E & i & Hi). split; [cbn; rewrite E; reflexivity|].
      exists (S i). intros [|j] Hj; [reflexivity|]. apply Hi. lia.
Qed.

Lemma map_alter_same {A B} (f : A -> B) (g : A -> A) (l : list A) (i : nat) :
  (forall x, f (g x) = f x) -> map f (alter g i l) = map f l.
Proof.
  intros H. revert i. induction l as [|a l IH]; intros [|i]; cbn; [reflexivity..| |].
  - rewrite H. reflexivity.
  - f_equal. apply IH.
Qed.

Lemma toggle_connection_shape (genome : neat_genome_t) (seed : Z) :
  let genome' := fst (neat_mutate_toggle_connection genome seed) in
  nodes genome' = nodes genome
  /\ map (conn_with_enabled true) (connections genome')
     = map (conn_with_enabled true) (connections genome)
  /\ exists i, forall j, j <> i -> connections genome' !! j = connections genome !! j.
Proof.
  cbv zeta. unfold neat_mutate_toggle_connection.
  destruct (connection_count genome =? 0)%nat.
  { cbn. split; [reflexivity|]. split; [reflexivity|]. exists 0%nat. reflexivity. }
  unfold bind.
  destruct (choose_enabled (connections genome) 0 0 None seed) as [[enabled_count conn] seed1].
  destruct conn as [i|].
  - cbn. split; [reflexivity|]. split; [apply map_alter_same; reflexivity|].
    exists i. intros j Hj. apply list_lookup_alter_ne. lia.
  - destruct (0 <? Z.of_nat (connection_count genome) - enabled_count).
    + destruct (neat_random_int 0 _ seed1) as [target seed2]. cbn.
      split; [reflexivity|]. apply enable_nth_disabled_shape.
    + cbn. split; [reflexivity|]. split; [reflexivity|]. exists 0%nat. reflexivity.
Qed.


Lemma mutate_activation_shape (genome : neat_genome_t) (seed : Z) :
  let genome' := fst (neat_mutate_activation genome seed) in
  connections genome' = connections genome
  /\ map (node_with_activation_type NEAT_ACTIVATION_SIGMOID) (nodes genome')
     = map (node_with_activation_type NEAT_ACTIVATION_SIGMOID) (nodes genome)
  /\ (exists i, forall j, j <> i -> nodes genome' !! j = nodes genome !! j)
  /\ (forall j n, nodes genome !! j = Some n ->
        is_input (node_type n) || is_bias (node_type n) = true ->
        nodes genome' !! j = Some n).
Proof.
  cbv zeta. unfold neat_mutate_activation.
  assert (Hsame : connections genome = connections genome
                  /\ map (node_with_activation_type NEAT_ACTIVATION_SIGMOID) (nodes genome)
                     = map (node_with_activation_type NEAT_ACTIVATION_SIGMOID) (nodes genome)
                  /\ (exists i : nat, forall j, j <> i -> nodes genome !! j = nodes genome !! j)
                  /\ (forall j n, nodes genome !! j = Some n ->
                        is_input (node_type n) || is_bias (node_type n) = true ->
                        nodes genome !! j = Some n)).
  { split; [reflexivity|]. split; [reflexivity|]. split; [exists 0%nat; reflexivity|]. auto. }
  destruct (node_count genome =? 0)%nat; [exact Hsame|].
  unfold bind. destruct (neat_random_int 0 _ seed) as [node_idx seed1].
  destruct (array_get (nodes genome) node_idx) as [node|] eqn:E; [|exact Hsame].
  destruct (is_input (node_type node) || is_bias (node_type node)) eqn:Ek; [exact Hsame|].
  destruct (neat_random_int 0 _ seed1) as [a seed2]. cbn.
  apply array_get_Some in E.
  split; [reflexivity|]. split; [apply map_alter_same; reflexivity|].
  split.
  - exists (Z.to_nat node_idx). intros j Hj. apply list_lookup_alter_ne. lia.
  - intros j n Hn Hk. destruct (Nat.eq_dec j (Z.to_nat node_idx)) as [->|Hne].
    + rewrite E in Hn. injection Hn as ->. congruence.
    + rewrite list_lookup_alter_ne by lia. exact Hn.
Qed.

(** [neat_mutate_activation] changes the activation function of at most
    one node, and never that of an input or bias node: those nodes are
    returned as they were.  Connections, and every other field of every
    node, are unchanged. *)
Theorem neat_mutate_activation_spares_inputs (genome : neat_genome_t) (seed : Z) :
  let genome' := fst (neat_mutate_activation genome seed) in
  connections genome' = connections genome
  /\ map (node_with_activation_type NEAT_ACTIVATION_SIGMOID) (nodes genome')
     = map (node_with_activation_type NEAT_ACTIVATION_SIGMOID) (nodes genome)
  /\ (exists i, forall j, j <> i -> nodes genome' !! j = nodes genome !! j)
  /\ (forall j n, nodes genome !! j = Some n ->
        is_input (node_type n) || is_bias (node_type n) = true ->
        nodes genome' !! j = Some n).
Proof. exact (mutate_activation_shape genome seed). Qed.

Lemma pick_enabled_connection_Some attempts cs seed i :
  fst (pick_enabled_connection attempts cs seed) = Some i ->
  exists conn, cs !! i = Some conn /\ conn_enabled conn = true.
Proof.
  revert seed. induction attempts as [|attempts IH]; intros seed;
    cbn [pick_enabled_connection]; [discriminate|].
  unfold bind. destruct (neat_random_int 0 _ seed) as [conn_index seed1].
  destruct (array_get cs conn_index) as [conn|] eqn:E; [|discriminate].
  destruct (conn_enabled conn) eqn:Ee; [|apply IH].
  cbn. intros [= <-]. exists conn. split; [apply array_get_Some, E | exact Ee].
Qed.

Lemma connection_exists_alter f cs k i o :
  (forall c, conn_in_node (f c) = conn_in_node c /\ conn_out_node (f c) = conn_out_node c) ->
  connection_exists (alter f k cs) i o = connection_exists cs i o.
Proof.
  intros Hf. unfold connection_exists. revert k.
  induction cs as [|c cs IH]; intros [|k]; cbn; [reflexivity..| |].
  - destruct (Hf c) as [-> ->]. reflexivity.
  - rewrite IH. reflexivity.
Qed.

Lemma connection_exists_fresh cs i o :
  Forall (fun c => conn_in_node c <> i \/ conn_out_node c <> o) cs ->
  connection_exists cs i o = false.
Proof.
  intros H. apply connection_exists_Forall. eapply Forall_impl; [exact H|].
  intros c [Hc|Hc] [H1 H2]; contradiction.
Qed.

Lemma neat_add_connection_fresh genome i o w e :
  connection_exists (connections genome) i o = false ->
  snd (neat_add_connection genome i o w e)
  = genome_with_evaluation_order None
      (genome_with_connections (connections genome ++ [Connection (-1) i o w e]) genome).
Proof. unfold neat_add_connection. intros ->. reflexivity. Qed.

Lemma alter_last_two {A} (f1 f2 : A -> A) (l : list A) (a b : A) :
  alter f2 (length ((l ++ [a]) ++ [b]) - 1)%nat
    (alter f1 (length ((l ++ [a]) ++ [b]) - 2)%nat ((l ++ [a]) ++ [b]))
  = l ++ [f1 a; f2 b].
Proof.
  rewrite <- app_assoc. cbn [app]. rewrite length_app. cbn [length].
  replace (length l + 2 - 2)%nat with (length l + 0)%nat by lia.
  replace (length l + 2 - 1)%nat with (length l + 1)%nat by lia.
  rewrite !alter_app_r. reflexivity.
Qed.

Lemma add_node_cases (M : libm) (genome : neat_genome_t)
    (table : option neat_innovation_table_t) (seed : Z) :
  endpoints_in_range genome ->
  let '(genome', table') := fst (neat_mutate_add_node M genome table seed) in
  let n := Z.of_nat (node_count genome) in
  (genome' = genome /\ table' = table)
  \/ exists i conn bias,
       connections genome !! i = Some conn
       /\ conn_enabled conn = true
       /\ nodes genome'
          = nodes genome
            ++ [Node n NEAT_NODE_HIDDEN NEAT_PLACEMENT_HIDDEN NEAT_ACTIVATION_SIGMOID
                  0 bias true 0]
       /\ take (connection_count genome) (connections genome')
          = alter (conn_with_enabled false) i (connections genome)
       /\ map connection_gene (drop (connection_count genome) (connections genome'))
          = [(conn_in_node conn, n, 1.0%float, true);
             (n, conn_out_node conn, conn_weight conn, true)]
       /\ endpoints_in_range genome'.
Proof.
  intros Hr. unfold neat_mutate_add_node.
  destruct (connection_count genome =? 0)%nat; [left; split; reflexivity|].
  unfold bind at 1.
  destruct (pick_enabled_connection 100 (connections genome) seed) as [found seed1] eqn:Ep.
  destruct found as [idx|]; [|left; split; reflexivity].
  destruct (pick_enabled_connection_Some 100 (connections genome) seed idx) as (conn & Ec & Ee);
    [rewrite Ep; reflexivity|].
  rewrite Ec. unfold bind at 1.
  unfold neat_add_node, neat_create_node, bind, ret.
  destruct (neat_random_normal M 0 1 seed1) as [bias seed2].
  cbn -[get_innovation_opt neat_add_connection set_innovation_at alter].
  unfold endpoints_in_range, node_count, connection_count in *.
  set (n := Z.of_nat (length (nodes genome))) in *.
  set (new_node := Node n NEAT_NODE_HIDDEN NEAT_PLACEMENT_HIDDEN NEAT_ACTIVATION_SIGMOID
                     0 bias true 0).
  set (cs1 := alter (conn_with_enabled false) idx (connections genome)).
  set (g1 := genome_with_nodes (nodes genome ++ [new_node])
               (genome_with_connections cs1 genome)).
  assert (Hcs1 : Forall (fun c => 0 <= conn_in_node c < n /\ 0 <= conn_out_node c < n) cs1).
  { apply Forall_alter; [exact Hr|]. intros c _ Hc. exact Hc. }
  assert (Hconn : 0 <= conn_in_node conn < n /\ 0 <= conn_out_node conn < n).
  { exact (Forall_lookup_1 _ _ _ _ Hr Ec). }
  set (c1 := Connection (-1) (conn_in_node conn) n 1 true).
  set (c2 := Connection (-1) n (conn_out_node conn) (conn_weight conn) true).
  assert (E1 : snd (neat_add_connection g1 (conn_in_node conn) n 1 true)
               = genome_with_evaluation_order None (genome_with_connections (cs1 ++ [c1]) g1)).
  { apply neat_add_connection_fresh. apply connection_exists_fresh.
    eapply Forall_impl; [exact Hcs1|]. cbn beta. intros c Hc. right. lia. }
  rewrite E1.
  set (g2 := genome_with_evaluation_order None (genome_with_connections (cs1 ++ [c1]) g1)).
  assert (E2 : snd (neat_add_connection g2 n (conn_out_node conn) (conn_weight conn) true)
               = genome_with_evaluation_order None
                   (genome_with_connections ((cs1 ++ [c1]) ++ [c2]) g2)).
  { apply neat_add_connection_fresh. apply connection_exists_fresh.
    cbn [g2 connections genome_with_evaluation_order genome_with_connections].
    apply Forall_app. split.
    - eapply Forall_impl; [exact Hcs1|]. cbn beta. intros c Hc. left. lia.
    - constructor; [|constructor]. left. cbn. lia. }
  rewrite E2. clear E1 E2.
  destruct (get_innovation_opt table _ _ _) as [innovation1 table1].
  destruct (get_innovation_opt table1 _ _ _) as [innovation2 table2].
  assert (Hlen : length cs1 = length (connections genome)) by apply length_alter.
  assert (Hnew : Forall (fun c => 0 <= conn_in_node c < Z.of_nat (length (nodes genome ++ [new_node]))
                                  /\ 0 <= conn_out_node c < Z.of_nat (length (nodes genome ++ [new_node])))
                   (cs1 ++ [conn_with_innovation innovation1 c1;
                            conn_with_innovation innovation2 c2])
                 /\ Forall (fun c => 0 <= conn_in_node c < Z.of_nat (length (nodes genome ++ [new_node]))
                                     /\ 0 <= conn_out_node c < Z.of_nat (length (nodes genome ++ [new_node])))
                      ((cs1 ++ [c1]) ++ [c2])).
  { rewrite length_app. cbn [length]. fold n.
    split; [|rewrite <- app_assoc]; (apply Forall_app; split;
      [ eapply Forall_impl; [exact Hcs1|]; cbn beta; intros c Hc; lia
      | repeat constructor; cbn; lia ]). }
  destruct (negb (innovation1 =? -1) && _);
    cbn [fst snd g2 g1 nodes connections genome_with_evaluation_order
         genome_with_connections genome_with_nodes set_innovation_at];
    right; exists idx, conn, bias;
    (split; [exact Ec|]); (split; [exact Ee|]).
  - rewrite alter_last_two. rewrite <- Hlen.
    rewrite take_app_length, drop_app_length.
    split; [reflexivity|]. split; [reflexivity|]. split; [reflexivity|].
    exact (proj1 Hnew).
  - rewrite <- app_assoc. cbn [app]. rewrite <- Hlen.
    rewrite take_app_length, drop_app_length.
    split; [reflexivity|]. split; [reflexivity|]. split; [reflexivity|].
    rewrite <- app_assoc in Hnew. exact (proj2 Hnew).
Qed.

(** [neat_mutate_add_node] on a genome whose connections join existing
    nodes and whose connection array has a free slot: either genome and
    registry are returned unchanged (no enabled connection was found), or
    one enabled connection [in -> out] with weight [w] was split: it is
    disabled in place, a hidden node with the id [node_count] is
    appended, and the connections [in -> new] with weight 1.0 and
    [new -> out] with weight [w], both enabled, are appended in this
    order.  No other node or connection changes, and the endpoints of the
    result are again indices of its nodes.  The new node has the sigmoid,
    the value 0 and a random bias. *)
Theorem neat_mutate_add_node_split (M : libm) (genome : neat_genome_t)
    (table : option neat_innovation_table_t) (seed : Z) :
  endpoints_in_range genome ->
  connections_have_room genome ->
  let '(genome', table') := fst (neat_mutate_add_node M genome table seed) in
  let n := Z.of_nat (node_count genome) in
  (genome' = genome /\ table' = table)
  \/ exists i conn bias,
       connections genome !! i = Some conn
       /\ conn_enabled conn = true
       /\ nodes genome'
          = nodes genome
            ++ [Node n NEAT_NODE_HIDDEN NEAT_PLACEMENT_HIDDEN NEAT_ACTIVATION_SIGMOID
                  0 bias true 0]
       /\ take (connection_count genome) (connections genome')
          = alter (conn_with_enabled false) i (connections genome)
       /\ map connection_gene (drop (connection_count genome) (connections genome'))
          = [(conn_in_node conn, n, 1.0%float, true);
             (n, conn_out_node conn, conn_weight conn, true)]
       /\ endpoints_in_range genome'.
Proof. intros Hr _. exact (add_node_cases M genome table seed Hr). Qed.

(** The split of the one connection of [split_genome_a]: the connection
    0 -> 1 is disabled, node 2 is appended with the connections 0 -> 2
    and 2 -> 1. *)
Lemma neat_mutate_add_node_split_witness :
  let '(genome', table') :=
    fst (neat_mutate_add_node libm_at_zero split_genome_a (Some split_table) 1) in
  let n := Z.of_nat (node_count split_genome_a) in
  (genome' = split_genome_a /\ table' = Some split_table)
  \/ exists i conn bias,
       connections split_genome_a !! i = Some conn
       /\ conn_enabled conn = true
       /\ nodes genome'
          = nodes split_genome_a
            ++ [Node n NEAT_NODE_HIDDEN NEAT_PLACEMENT_HIDDEN NEAT_ACTIVATION_SIGMOID
                  0 bias true 0]
       /\ take (connection_count split_genome_a) (connections genome')
          = alter (conn_with_enabled false) i (connections split_genome_a)
       /\ map connection_gene (drop (connection_count split_genome_a) (connections genome'))
          = [(conn_in_node conn, n, 1.0%float, true);
             (n, conn_out_node conn, conn_weight conn, true)]
       /\ endpoints_in_range genome'.
Proof.
  apply (neat_mutate_add_node_split libm_at_zero split_genome_a (Some split_table) 1).
  - constructor; [|constructor]. cbn. lia.
  - unfold connections_have_room. vm_compute. lia.
Defined.

(** *** Well-formed genomes under mutation *)

Ltac solve_ids_are_indices :=
  let j := fresh "j" in let n := fresh "n" in let H := fresh "H" in
  intros j n H;
  repeat (destruct j as [|j]; [injection H as <-; reflexivity|]);
  discriminate H.

Ltac solve_well_formed :=
  split; [solve_ids_are_indices|];
  split; [repeat constructor|];
  split; [repeat (constructor; [cbn; lia|]); constructor|];
  unfold endpoints; cbn;
  repeat (constructor;
          [let H := fresh "H" in
           intros H; apply list_elem_of_In in H; cbn in H; intuition congruence|]);
  constructor.

Lemma map_eq_lookup {A B} (f : A -> B) (l l' : list A) (j : nat) (x : A) :
  map f l' = map f l -> l !! j = Some x -> exists x', l' !! j = Some x' /\ f x' = f x.
Proof.
  revert l' j. induction l as [|a l IH]; intros [|a' l'] [|j] E H;
    try discriminate; cbn in *; injection E as E1 E2.
  - injection H as <-. eauto.
  - eauto.
Qed.

Lemma map_eq_compose {A B C} (f : A -> B) (h : A -> C) (h' : B -> C) (l l' : list A) :
  (forall x, h x = h' (f x)) -> map f l' = map f l -> map h l' = map h l.
Proof.
  intros Hh E.
  rewrite (List.map_ext h (fun x => h' (f x)) Hh l').
  rewrite (List.map_ext h (fun x => h' (f x)) Hh l).
  rewrite <- (List.map_map f h' l'), <- (List.map_map f h' l), E. reflexivity.
Qed.

Lemma endpoints_in_range_alt genome :
  endpoints_in_range genome <->
  Forall (fun e => 0 <= fst e < Z.of_nat (node_count genome)
                   /\ 0 <= snd e < Z.of_nat (node_count genome)) (endpoints genome).
Proof. unfold endpoints_in_range, endpoints. rewrite List.Forall_map. reflexivity. Qed.

Lemma node_kept_refl n : node_kept n n.
Proof. unfold node_kept. auto. Qed.

Lemma nodes_kept_refl genome : nodes_kept genome genome.
Proof. intros j n H. exists n. split; [exact H | apply node_kept_refl]. Qed.

Lemma nodes_kept_trans g1 g2 g3 : nodes_kept g1 g2 -> nodes_kept g2 g3 -> nodes_kept g1 g3.
Proof.
  intros H12 H23 j n Hn.
  destruct (H12 j n Hn) as (n2 & Hn2 & K2 & T2 & P2 & A2).
  destruct (H23 j n2 Hn2) as (n3 & Hn3 & K3 & T3 & P3 & A3).
  exists n3. split; [exact Hn3|]. unfold node_kept.
  rewrite T2 in A3.
  split; [congruence|]. split; [congruence|]. split; [congruence|].
  intros Hk. rewrite A3, A2; auto.
Qed.

Lemma grown_by_refl k genome : well_formed genome -> grown_by k genome genome.
Proof.
  intros H. split; [exact H|]. split; [apply nodes_kept_refl|]. lia.
Qed.

Lemma grown_by_trans a b g1 g2 g3 :
  grown_by a g1 g2 -> grown_by b g2 g3 -> grown_by (a + b) g1 g3.
Proof.
  intros (_ & K12 & N12 & C12) (W3 & K23 & N23 & C23).
  split; [exact W3|]. split; [exact (nodes_kept_trans _ _ _ K12 K23)|]. lia.
Qed.

(** A genome with the same node frames and the same endpoints as a
    well-formed genome is well formed. *)
Lemma well_formed_same_shape g g' :
  map node_frame (nodes g') = map node_frame (nodes g) ->
  endpoints g' = endpoints g ->
  well_formed g -> well_formed g'.
Proof.
  intros Hn He (Hi & Hx & Hr & Hd).
  assert (Hlen : node_count g' = node_count g).
  { unfold node_count. rewrite <- (length_map node_frame (nodes g')), Hn.
    apply length_map. }
  assert (Hback : forall j n', nodes g' !! j = Some n' ->
                    exists n, nodes g !! j = Some n /\ node_frame n = node_frame n').
  { intros j n' H. apply (map_eq_lookup node_frame (nodes g') (nodes g) j n'); auto. }
  split; [|split; [|split]].
  - intros j n' H. destruct (Hback j n' H) as (n & Hn' & E).
    injection E as E1 _ _ _. rewrite <- E1. apply (Hi j n Hn').
  - apply Forall_lookup_2. intros j n' H. destruct (Hback j n' H) as (n & Hn' & E).
    injection E as _ _ _ E4. rewrite <- E4. exact (Forall_lookup_1 _ _ _ _ Hx Hn').
  - apply endpoints_in_range_alt. rewrite He, Hlen. apply endpoints_in_range_alt, Hr.
  - rewrite He. exact Hd.
Qed.

Lemma grown_by_same_shape g g' :
  map node_frame (nodes g') = map node_frame (nodes g) ->
  endpoints g' = endpoints g ->
  nodes_kept g g' ->
  well_formed g -> grown_by 0 g g'.
Proof.
  intros Hn He Hk Hw. split; [exact (well_formed_same_shape g g' Hn He Hw)|].
  split; [exact Hk|].
  unfold node_count, connection_count.
  rewrite <- (length_map node_frame (nodes g')), Hn, length_map.
  assert (length (connections g') = length (connections g)) as ->.
  { unfold endpoints in He.
    rewrite <- (length_map (fun c => (conn_in_node c, conn_out_node c)) (connections g')), He.
    apply length_map. }
  lia.
Qed.

Lemma mutate_weights_grown M genome :
  well_formed genome -> rand_post (grown_by 0 genome) (neat_mutate_weights M genome).
Proof.
  intros Hw seed. destruct (mutate_weights_shape M genome seed) as (Hc & Hn & _).
  apply grown_by_same_shape; [| | |exact Hw].
  - apply (map_eq_compose (node_with_bias 0) node_frame node_frame); [reflexivity|exact Hn].
  - apply (map_eq_compose (conn_with_weight 0)
             (fun c => (conn_in_node c, conn_out_node c))
             (fun c => (conn_in_node c, conn_out_node c))); [reflexivity|exact Hc].
  - intros j n H.
    destruct (map_eq_lookup (node_with_bias 0) _ _ j n Hn H) as (n' & H' & E).
    exists n'. split; [exact H'|]. destruct n, n'. injection E as -> -> -> -> -> -> ->.
    unfold node_kept. cbn. auto.
Qed.

Lemma toggle_connection_grown genome :
  well_formed genome -> rand_post (grown_by 0 genome) (neat_mutate_toggle_connection genome).
Proof.
  intros Hw seed. destruct (toggle_connection_shape genome seed) as (Hn & Hc & _).
  apply grown_by_same_shape; [| | |exact Hw].
  - rewrite Hn. reflexivity.
  - apply (map_eq_compose (conn_with_enabled true)
             (fun c => (conn_in_node c, conn_out_node c))
             (fun c => (conn_in_node c, conn_out_node c))); [reflexivity|exact Hc].
  - intros j n H. exists n. rewrite Hn. split; [exact H | apply node_kept_refl].
Qed.

Lemma mutate_activation_grown genome :
  well_formed genome -> rand_post (grown_by 0 genome) (neat_mutate_activation genome).
Proof.
  intros Hw seed. destruct (mutate_activation_shape genome seed) as (Hc & Hn & _ & Hk).
  apply grown_by_same_shape; [| | |exact Hw].
  - apply (map_eq_compose (node_with_activation_type NEAT_ACTIVATION_SIGMOID)
             node_frame node_frame); [reflexivity|exact Hn].
  - unfold endpoints. rewrite Hc. reflexivity.
  - intros j n H.
    destruct (map_eq_lookup (node_with_activation_type NEAT_ACTIVATION_SIGMOID)
                _ _ j n Hn H) as (n' & H' & E).
    exists n'. split; [exact H'|].
    unfold node_kept. destruct n, n'. injection E as -> -> -> -> -> -> ->. cbn.
    split; [reflexivity|]. split; [reflexivity|]. split; [reflexivity|].
    intros Hin. specialize (Hk j _ H Hin). rewrite H' in Hk. injection Hk as ->. reflexivity.
Qed.

Lemma add_connection_grown M genome table :
  well_formed genome ->
  rand_post (fun r => grown_by 0 genome (fst r) /\ (table = None -> snd r = None))
    (neat_mutate_add_connection M genome table).
Proof.
  intros Hw seed. rewrite add_connection_unchanged by apply Hw.
  split; [apply grown_by_refl, Hw | auto].
Qed.

Lemma add_node_grown M genome table :
  well_formed genome ->
  rand_post (fun r => grown_by 1 genome (fst r)) (neat_mutate_add_node M genome table).
Proof.
  intros Hw seed. pose proof (add_node_cases M genome table seed (proj1 (proj2 (proj2 Hw)))) as H.
  destruct (fst (neat_mutate_add_node M genome table seed)) as [genome' table'].
  cbv zeta in H. cbn [fst].
  destruct H as [[-> _]|(i & conn & bias & Ec & Ee & Hn & Ht & Hd & Hr)];
    [apply grown_by_refl, Hw|].
  destruct Hw as (Hi & Hx & Hr0 & Hnd).
  assert (Hcs : connections genome'
                = alter (conn_with_enabled false) i (connections genome)
                  ++ drop (connection_count genome) (connections genome')).
  { rewrite <- Ht. symmetry. apply take_drop. }
  assert (Hep : endpoints genome'
                = endpoints genome
                  ++ [(conn_in_node conn, Z.of_nat (node_count genome));
                      (Z.of_nat (node_count genome), conn_out_node conn)]).
  { unfold endpoints at 1. rewrite Hcs, map_app. f_equal.
    - apply map_alter_same. reflexivity.
    - change (fun c => (conn_in_node c, conn_out_node c))
        with (fun c => (fun g : Z * Z * double * bool => (fst (fst (fst g)), snd (fst (fst g))))
                         (connection_gene c)).
      rewrite <- List.map_map, Hd. reflexivity. }
  pose proof (Forall_lookup_1 _ _ _ _ Hr0 Ec) as Hconn. cbn beta in Hconn.
  split; [split; [|split; [|split]]|split; [|split]].
  - intros j n. rewrite Hn. intros H. apply lookup_app_Some in H.
    destruct H as [H|[Hj H]]; [exact (Hi j n H)|].
    destruct (j - length (nodes genome))%nat as [|k] eqn:Ek; [|discriminate].
    injection H as <-. cbn. unfold node_count. lia.
  - unfold x_pos_unset. rewrite Hn. apply Forall_app. split; [exact Hx|].
    constructor; [reflexivity|constructor].
  - exact Hr.
  - rewrite Hep. apply NoDup_app. split; [exact Hnd|]. split.
    + intros e He Hin. apply endpoints_in_range_alt in Hr0.
      pose proof (proj1 (Forall_forall _ _) Hr0 e He) as Hb. cbn beta in Hb.
      apply list_elem_of_In in Hin. cbn in Hin.
      destruct Hin as [<-|[<-|[]]]; cbn in Hb; lia.
    + apply NoDup_cons. split; [|apply NoDup_singleton].
      intros Hin. apply list_elem_of_singleton in Hin. injection Hin as H1 H2. lia.
  - intros j n H. exists n. rewrite Hn. split; [|apply node_kept_refl].
    apply lookup_app_l_Some. exact H.
  - unfold node_count. rewrite Hn, length_app. cbn. lia.
  - unfold connection_count. rewrite Hcs, length_app, length_alter.
    rewrite <- (length_map connection_gene (drop _ _)), Hd. cbn. lia.
Qed.

Lemma mutate_grown (M : libm) (genome : neat_genome_t)
    (table : option neat_innovation_table_t) (seed : Z) :
  well_formed genome ->
  grown_by 1 genome (fst (fst (neat_mutate M genome table seed))).
Proof.
  intros Hw. revert seed.
  change (rand_post (fun r => grown_by 1 genome (fst r)) (neat_mutate M genome table)).
  unfold neat_mutate.
  apply rand_post_draw. intros u1.
  apply rand_post_bind with (P := grown_by 0 genome).
  { destruct (u1 <? NEAT_MUTATE_WEIGHT_RATE)%float;
      [apply mutate_weights_grown, Hw | apply rand_post_ret, grown_by_refl, Hw]. }
  intros g1 H1. apply rand_post_draw. intros u2.
  apply rand_post_bind with (P := fun r => grown_by 1 genome (fst r)).
  { destruct (u2 <? NEAT_MUTATE_NODE_RATE)%float.
    - eapply rand_post_weaken; [|apply (add_node_grown M g1 table), H1].
      intros r Hr. exact (grown_by_trans 0 1 _ _ _ H1 Hr).
    - apply rand_post_ret.
      exact (grown_by_trans 0 1 _ _ _ H1 (grown_by_refl 1 g1 (proj1 H1))). }
  intros [g2 t2] H2. cbn [fst] in H2. apply rand_post_draw. intros u3.
  apply rand_post_bind with (P := fun r => grown_by 1 genome (fst r)).
  { destruct (u3 <? NEAT_MUTATE_LINK_RATE)%float.
    - eapply rand_post_weaken; [|apply (add_connection_grown M g2 t2), H2].
      intros r [Hr _]. exact (grown_by_trans 1 0 _ _ _ H2 Hr).
    - apply rand_post_ret. exact H2. }
  intros [g3 t3] H3. cbn [fst] in H3. apply rand_post_draw. intros u4.
  apply rand_post_bind with (P := grown_by 1 genome).
  { destruct (u4 <? NEAT_MUTATE_TOGGLE_LINK_RATE)%float.
    - eapply rand_post_weaken; [|apply (toggle_connection_grown g3), H3].
      intros r Hr. exact (grown_by_trans 1 0 _ _ _ H3 Hr).
    - apply rand_post_ret. exact H3. }
  intros g4 H4. apply rand_post_draw. intros u5.
  apply rand_post_bind with (P := grown_by 1 genome).
  { destruct (u5 <? NEAT_MUTATE_ACTIVATION_RATE)%float.
    - eapply rand_post_weaken; [|apply (mutate_activation_grown g4), H4].
      intros r Hr. exact (grown_by_trans 1 0 _ _ _ H4 Hr).
    - apply rand_post_ret. exact H4. }
  intros g5 H5. apply rand_post_ret. exact H5.
Qed.

(** [neat_mutate] keeps a genome well formed when its connection array
    has a free slot: after the five operators the node ids are still the
    indices, the connections still join nodes of the genome and have
    distinct endpoints, and no node has a position.  Every node of the
    genome is still there under its index with the same id, kind and
    placement, and an input or bias node has the same activation
    function.  At most one node and two connections are added and none
    is removed. *)
Theorem neat_mutate_keeps_well_formed (M : libm) (genome : neat_genome_t)
    (table : option neat_innovation_table_t) (seed : Z) :
  well_formed genome ->
  connections_have_room genome ->
  let genome' := fst (fst (neat_mutate M genome table seed)) in
  well_formed genome'
  /\ nodes_kept genome genome'
  /\ (node_count genome <= node_count genome' <= node_count genome + 1)%nat
  /\ (connection_count genome <= connection_count genome'
      <= connection_count genome + 2)%nat.
Proof. intros Hw _. exact (mutate_grown M genome table seed Hw). Qed.

(** A mutation of [split_genome_a] that splits its connection: from this
    generator state the second draw of [neat_mutate] is below
    [NEAT_MUTATE_NODE_RATE], and the result has three nodes and three
    connections. *)
Lemma neat_mutate_keeps_well_formed_witness :
  let genome' :=
    fst (fst (neat_mutate libm_at_zero split_genome_a (Some split_table) 15438505250136185088)) in
  (node_count genome' = 3%nat /\ connection_count genome' = 3%nat)
  /\ well_formed genome'
  /\ nodes_kept split_genome_a genome'
  /\ (node_count split_genome_a <= node_count genome' <= node_count split_genome_a + 1)%nat
  /\ (connection_count split_genome_a <= connection_count genome'
      <= connection_count split_genome_a + 2)%nat.
Proof.
  split.
  - vm_compute. split; reflexivity.
  - apply (neat_mutate_keeps_well_formed libm_at_zero split_genome_a (Some split_table)
             15438505250136185088).
    + solve_well_formed.
    + unfold connections_have_room. vm_compute. lia.
Defined.

(** ** Network evaluation *)

Lemma node_with_value_congr x n n' :
  node_with_value 0 n' = node_with_value 0 n -> node_with_value x n' = node_with_value x n.
Proof. destruct n, n'. intros [= -> -> -> -> -> -> ->]. reflexivity. Qed.

Lemma node_evaluated_refl n : node_evaluated n n.
Proof. split; auto. Qed.

Lemma node_evaluated_trans n1 n2 n3 :
  node_evaluated n1 n2 -> node_evaluated n2 n3 -> node_evaluated n1 n3.
Proof.
  intros [E1 I1] [E2 I2]. split; [congruence|].
  intros H. pose proof (I1 H) as E. subst n2. exact (I2 H).
Qed.

Lemma nodes_evaluated_refl ns : Forall2 node_evaluated ns ns.
Proof. induction ns; constructor; [apply node_evaluated_refl | assumption]. Qed.

Lemma nodes_evaluated_trans ns1 ns2 ns3 :
  Forall2 node_evaluated ns1 ns2 -> Forall2 node_evaluated ns2 ns3 ->
  Forall2 node_evaluated ns1 ns3.
Proof. apply Forall2_trans. exact node_evaluated_trans. Qed.

Lemma nodes_evaluated_shape ns ns' :
  Forall2 node_evaluated ns ns' ->
  map (node_with_value 0) ns' = map (node_with_value 0) ns
  /\ List.filter (fun n => is_input (node_type n)) ns'
     = List.filter (fun n => is_input (node_type n)) ns.
Proof.
  induction 1 as [|n n' ns ns' [E I] _ [IH1 IH2]]; [split; reflexivity|].
  split; [cbn; rewrite E, IH1; reflexivity|].
  cbn [List.filter].
  assert (Ht : node_type n' = node_type n).
  { change (node_type (node_with_value 0 n') = node_type (node_with_value 0 n)).
    rewrite E. reflexivity. }
  rewrite Ht. destruct (is_input (node_type n)) eqn:Ei; [|exact IH2].
  rewrite (I eq_refl), IH2. reflexivity.
Qed.

Lemma reset_values_evaluated ns : Forall2 node_evaluated ns (reset_values ns).
Proof.
  unfold reset_values. induction ns as [|n ns IH]; cbn [map]; constructor; [|exact IH].
  destruct (is_input (node_type n)) eqn:Ei; [apply node_evaluated_refl|].
  split; [reflexivity|]. rewrite Ei. discriminate.
Qed.

Lemma evaluate_in_order_evaluated M order cs ns ns' :
  evaluate_in_order M order cs ns = Some ns' -> Forall2 node_evaluated ns ns'.
Proof.
  revert ns. induction order as [|node_idx order IH]; intros ns; cbn [evaluate_in_order].
  - intros [= <-]. apply nodes_evaluated_refl.
  - destruct (array_get ns node_idx) as [node|] eqn:E; [|discriminate].
    destruct (is_input (node_type node)) eqn:Ei; [apply IH|].
    destruct (sum_inputs ns cs (node_id node) 0) as [sum|]; [|discriminate].
    intros H. apply IH in H. refine (nodes_evaluated_trans _ _ _ _ H).
    apply array_get_Some in E.
    rewrite <- (list_insert_id ns (Z.to_nat node_idx) node E) at 1.
    apply Forall2_insert; [apply nodes_evaluated_refl|].
    split; [reflexivity|]. rewrite Ei. discriminate.
Qed.

Lemma set_inputs_shape ns inputs k r :
  set_inputs ns inputs k = Some r ->
  map (node_with_value 0) r = map (node_with_value 0) ns.
Proof.
  revert k r. induction ns as [|node ns IH]; intros k r; cbn [set_inputs].
  - intros [= <-]. reflexivity.
  - destruct (node_type node);
      [destruct (k <? NEAT_MAX_INPUTS)%nat; [destruct (inputs !! k); [|discriminate]|]| | |];
      match goal with |- context [set_inputs ns inputs ?k'] =>
        destruct (set_inputs ns inputs k') as [r'|] eqn:E; [|discriminate] end;
      intros [= <-]; cbn [map]; rewrite (IH _ _ E); reflexivity.
Qed.

Lemma set_inputs_congr ns ns' inputs k :
  map (node_with_value 0) ns' = map (node_with_value 0) ns ->
  set_inputs ns' inputs k = set_inputs ns inputs k.
Proof.
  revert ns' k. induction ns as [|node ns IH]; intros [|node' ns'] k E; try discriminate;
    [reflexivity|].
  cbn [map] in E.
  pose proof (f_equal (hd node) E) as En. pose proof (f_equal (@tl _) E) as Es.
  cbn [hd tl] in En, Es. clear E.
  assert (Ht : node_type node' = node_type node).
  { change (node_type (node_with_value 0 node') = node_type (node_with_value 0 node)).
    rewrite En. reflexivity. }
  cbn [set_inputs]. rewrite Ht.
  destruct (node_type node);
    [destruct (k <? NEAT_MAX_INPUTS)%nat; [destruct (inputs !! k); [|reflexivity]|]| | |];
    rewrite (IH ns' _ Es); rewrite (node_with_value_congr _ _ _ En); reflexivity.
Qed.

Lemma set_inputs_values ns inputs k r :
  set_inputs ns inputs k = Some r ->
  (k + length (List.filter (fun n => is_input (node_type n)) ns) <= NEAT_MAX_INPUTS)%nat ->
  map node_value (List.filter (fun n => is_input (node_type n)) r)
  = take (length (List.filter (fun n => is_input (node_type n)) ns)) (drop k inputs).
Proof.
  revert k r. induction ns as [|node ns IH]; intros k r; cbn [set_inputs List.filter].
  - intros [= <-] _. reflexivity.
  - destruct (node_type node) eqn:Et; cbn [is_input length].
    + intros H Hk. destruct (Nat.ltb_spec k NEAT_MAX_INPUTS) as [Hlt|Hge]; [|lia].
      destruct (inputs !! k) as [x|] eqn:Ex; [|discriminate].
      destruct (set_inputs ns inputs (S k)) as [r'|] eqn:E; [|discriminate].
      injection H as <-. cbn [List.filter node_type node_with_value]. rewrite Et.
      cbn [is_input map node_value]. rewrite (IH _ _ E) by lia.
      rewrite (drop_S _ _ _ Ex). reflexivity.
    + destruct (set_inputs ns inputs k) as [r'|] eqn:E; [|discriminate].
      intros [= <-] Hk. cbn [List.filter node_type node_with_value]. rewrite Et.
      cbn [is_input]. apply (IH _ _ E Hk).
    + destruct (set_inputs ns inputs k) as [r'|] eqn:E; [|discriminate].
      intros [= <-] Hk. cbn [List.filter node_type node_with_value]. rewrite Et.
      cbn [is_input]. apply (IH _ _ E Hk).
    + destruct (set_inputs ns inputs k) as [r'|] eqn:E; [|discriminate].
      intros [= <-] Hk. cbn [List.filter node_type node_with_value]. rewrite Et.
      cbn [is_input]. apply (IH _ _ E Hk).
Qed.

Lemma array_get_in_range {A} (l : list A) (i : Z) :
  0 <= i < Z.of_nat (length l) -> is_Some (array_get l i).
Proof.
  intros H. unfold array_get. destruct (Z.ltb_spec i 0); [lia|].
  apply lookup_lt_is_Some_2. lia.
Qed.

Lemma sum_inputs_defined ns cs id sum :
  Forall (fun c => 0 <= conn_in_node c < Z.of_nat (length ns)) cs ->
  is_Some (sum_inputs ns cs id sum).
Proof.
  intros H. revert sum. induction H as [|conn cs Hc _ IH]; intros sum; cbn [sum_inputs].
  - eexists; reflexivity.
  - destruct ((conn_out_node conn =? id) && conn_enabled conn); [|apply IH].
    destruct (array_get_in_range ns _ Hc) as [in_node ->]. apply IH.
Qed.

Lemma evaluate_in_order_defined M order cs ns :
  Forall (fun i => 0 <= i < Z.of_nat (length ns)) order ->
  Forall (fun c => 0 <= conn_in_node c < Z.of_nat (length ns)) cs ->
  is_Some (evaluate_in_order M order cs ns).
Proof.
  intros Ho. revert ns Ho. induction order as [|node_idx order IH]; intros ns Ho Hc;
    cbn [evaluate_in_order]; [eexists; reflexivity|].
  apply Forall_cons in Ho. destruct Ho as [Hi Ho].
  destruct (array_get_in_range ns _ Hi) as [node ->].
  destruct (is_input (node_type node)); [apply IH; assumption|].
  destruct (sum_inputs_defined ns cs (node_id node) 0 Hc) as [sum ->].
  apply IH; rewrite length_insert; assumption.
Qed.

Lemma default_evaluation_order_in_range n :
  Forall (fun i => 0 <= i < Z.of_nat n) (default_evaluation_order n).
Proof.
  unfold default_evaluation_order. apply List.Forall_map.
  apply Forall_forall. intros i Hi. apply list_elem_of_In, in_seq in Hi. lia.
Qed.

Lemma map_eq_length {A B} (f : A -> B) (l l' : list A) :
  map f l' = map f l -> length l' = length l.
Proof. intros E. rewrite <- (length_map f l'), E. apply length_map. Qed.

Lemma filter_shape {A B} (f : A -> B) (P : A -> bool) (Q : B -> bool) (l l' : list A) :
  (forall x, P x = Q (f x)) -> map f l' = map f l ->
  map f (List.filter P l') = map f (List.filter P l).
Proof.
  intros HP. revert l'. induction l as [|a l IH]; intros [|a' l'] E; try discriminate;
    [reflexivity|].
  cbn [map] in E.
  pose proof (f_equal (hd (f a)) E) as Ea. pose proof (f_equal (@tl _) E) as El.
  cbn [hd tl] in Ea, El. cbn [List.filter]. rewrite !HP, Ea.
  destruct (Q (f a)); cbn [map]; rewrite ?Ea, (IH l' El); reflexivity.
Qed.

Lemma evaluation_shape M order cs ns ns1 :
  evaluate_in_order M order cs (reset_values ns) = Some ns1 ->
  map (node_with_value 0) ns1 = map (node_with_value 0) ns
  /\ List.filter (fun n => is_input (node_type n)) ns1
     = List.filter (fun n => is_input (node_type n)) ns.
Proof.
  intros E. apply evaluate_in_order_evaluated in E.
  apply nodes_evaluated_shape.
  exact (nodes_evaluated_trans _ _ _ (reset_values_evaluated ns) E).
Qed.

(** [neat_evaluate] leaves no trace that a later call can see: after an
    evaluation of a genome, evaluating the resulting genome on any input
    vector gives exactly what the original genome gives on that vector
    (the same outputs and the same resulting genome).  The node values and
    the cached order stored by the first call do not influence the
    second. *)
Theorem neat_evaluate_stateless (M : libm) (genome genome' : neat_genome_t)
    (inputs outputs inputs2 : list double) :
  neat_evaluate M genome inputs = Some (genome', outputs) ->
  neat_evaluate M genome' inputs2 = neat_evaluate M genome inputs2.
Proof.
  unfold neat_evaluate.
  destruct (set_inputs (nodes genome) inputs 0) as [ns|] eqn:E1; [|discriminate].
  unfold neat_update_network at 1.
  unfold node_count. cbn [evaluation_order connections nodes genome_with_nodes].
  set (order := match evaluation_order genome with
                | Some o => o
                | None => default_evaluation_order (length ns)
                end).
  destruct (evaluate_in_order M order (connections genome) (reset_values ns))
    as [ns1|] eqn:E3; cbn beta iota; [|discriminate].
  intros [= <- _].
  cbn [nodes genome_with_evaluation_order genome_with_nodes].
  destruct (evaluation_shape M order _ ns ns1 E3) as [S3 _].
  pose proof (set_inputs_shape _ _ _ _ E1) as S1.
  rewrite (set_inputs_congr (nodes genome) ns1 inputs2 0) by congruence.
  destruct (set_inputs (nodes genome) inputs2 0) as [ms|] eqn:E4; [|reflexivity].
  pose proof (set_inputs_shape _ _ _ _ E4) as S4.
  unfold neat_update_network, node_count.
  cbn [evaluation_order connections nodes genome_with_nodes
       genome_with_evaluation_order].
  assert (Ho : match evaluation_order genome with
               | Some o => o
               | None => default_evaluation_order (length ms)
               end = order).
  { unfold order. destruct (evaluation_order genome); [reflexivity|].
    rewrite (map_eq_length _ _ _ S4), (map_eq_length _ _ _ S1). reflexivity. }
  rewrite Ho.
  destruct (evaluate_in_order M order (connections genome) (reset_values ms)); reflexivity.
Qed.

(** Two evaluations in a row of [two_node_genome]. *)
Lemma neat_evaluate_stateless_witness :
  exists genome' outputs,
    neat_evaluate libm_at_zero two_node_genome [1.0%float] = Some (genome', outputs)
    /\ neat_evaluate libm_at_zero genome' [2.0%float]
       = neat_evaluate libm_at_zero two_node_genome [2.0%float].
Proof.
  let r := eval vm_compute in (neat_evaluate libm_at_zero two_node_genome [1.0%float]) in
  match r with
  | Some (?g, ?o) =>
      assert (E : neat_evaluate libm_at_zero two_node_genome [1.0%float] = Some (g, o))
        by (vm_compute; reflexivity);
      exists g, o; split;
        [ exact E
        | exact (neat_evaluate_stateless libm_at_zero two_node_genome g
                   [1.0%float] o [2.0%float] E) ]
  end.
Defined.

Lemma evaluate_defined (M : libm) (genome : neat_genome_t) (inputs : list double) :
  endpoints_in_range genome ->
  evaluation_order_in_range genome ->
  (input_node_count genome <= length inputs)%nat ->
  exists genome' outputs,
    neat_evaluate M genome inputs = Some (genome', outputs)
    /\ map (node_with_value 0) (nodes genome') = map (node_with_value 0) (nodes genome)
    /\ connections genome' = connections genome
    /\ length outputs = Nat.min NEAT_MAX_OUTPUTS (output_node_count genome)
    /\ ((input_node_count genome <= NEAT_MAX_INPUTS)%nat ->
        map node_value (List.filter (fun n => is_input (node_type n)) (nodes genome'))
        = take (input_node_count genome) inputs).
Proof.
  intros Hr Ho Hi. unfold neat_evaluate.
  destruct (set_inputs_enough (nodes genome) inputs 0) as [ns E1];
    [unfold input_node_count in Hi; lia|].
  rewrite E1. unfold neat_update_network.
  unfold node_count. cbn [evaluation_order connections nodes genome_with_nodes].
  pose proof (set_inputs_shape _ _ _ _ E1) as S1.
  pose proof (map_eq_length _ _ _ S1) as L1.
  set (order := match evaluation_order genome with
                | Some o => o
                | None => default_evaluation_order (length ns)
                end).
  assert (Hlen : length (reset_values ns) = length (nodes genome)).
  { unfold reset_values. rewrite length_map. exact L1. }
  destruct (evaluate_in_order_defined M order (connections genome) (reset_values ns))
    as [ns1 E3].
  { rewrite Hlen. unfold order, evaluation_order_in_range, node_count in *.
    destruct (evaluation_order genome); [exact Ho|].
    rewrite L1. apply default_evaluation_order_in_range. }
  { rewrite Hlen. eapply Forall_impl; [exact Hr|]. cbn beta. unfold node_count. intros c Hc. lia. }
  rewrite E3. eexists _, _. split; [reflexivity|].
  cbn [nodes connections genome_with_evaluation_order genome_with_nodes].
  destruct (evaluation_shape M order _ ns ns1 E3) as [S3 F3].
  assert (S : map (node_with_value 0) ns1 = map (node_with_value 0) (nodes genome))
    by congruence.
  split; [exact S|]. split; [reflexivity|]. split.
  - unfold collect_outputs, output_node_count. rewrite length_take, length_map.
    f_equal.
    apply (map_eq_length (node_with_value 0)).
    apply (filter_shape _ _ (fun n => is_output (node_type n))); [reflexivity|exact S].
  - intros Hmax. rewrite F3.
    rewrite (set_inputs_values _ _ _ _ E1) by (unfold input_node_count in Hmax; lia).
    reflexivity.
Qed.

(** The reads of [inputs] stop at [NEAT_MAX_INPUTS] entries. *)
Lemma set_inputs_take_capped ns inputs k n :
  (Nat.min (k + length (List.filter (fun n => is_input (node_type n)) ns)) NEAT_MAX_INPUTS
   <= n)%nat ->
  set_inputs ns (take n inputs) k = set_inputs ns inputs k.
Proof.
  revert k. induction ns as [|node ns IH]; intros k Hn; [reflexivity|].
  cbn [set_inputs]. cbn [List.filter] in Hn.
  destruct (node_type node); cbn [is_input length] in Hn.
  - destruct (Nat.ltb_spec k NEAT_MAX_INPUTS) as [Hlt|Hge].
    + rewrite lookup_take_lt by lia. destruct (inputs !! k); [|reflexivity].
      rewrite IH by lia. reflexivity.
    + rewrite IH by lia. reflexivity.
  - rewrite IH by lia. reflexivity.
  - rewrite IH by lia. reflexivity.
  - rewrite IH by lia. reflexivity.
Qed.

Lemma set_inputs_enough_capped ns inputs k :
  (Nat.min (k + length (List.filter (fun n => is_input (node_type n)) ns)) NEAT_MAX_INPUTS
   <= length inputs)%nat ->
  is_Some (set_inputs ns inputs k).
Proof.
  revert k. induction ns as [|node ns IH]; intros k Hn; [eexists; reflexivity|].
  cbn [set_inputs]. cbn [List.filter] in Hn.
  destruct (node_type node); cbn [is_input length] in Hn.
  - destruct (Nat.ltb_spec k NEAT_MAX_INPUTS) as [Hlt|Hge].
    + destruct (lookup_lt_is_Some_2 inputs k) as [x ->]; [lia|].
      destruct (IH (S k)) as [r ->]; [lia|]. eexists; reflexivity.
    + destruct (IH k) as [r ->]; [lia|]. eexists; reflexivity.
  - destruct (IH k) as [r ->]; [lia|]. eexists; reflexivity.
  - destruct (IH k) as [r ->]; [lia|]. eexists; reflexivity.
  - destruct (IH k) as [r ->]; [lia|]. eexists; reflexivity.
Qed.

(** The values that the first loop of [neat_evaluate] stores in the input
    nodes: the entries of [inputs] from [k] on while the count is below
    [NEAT_MAX_INPUTS], and 0.0 after that. *)
Lemma set_inputs_values_capped ns inputs k r :
  set_inputs ns inputs k = Some r ->
  let c := length (List.filter (fun n => is_input (node_type n)) ns) in
  map node_value (List.filter (fun n => is_input (node_type n)) r)
  = take (Nat.min c (NEAT_MAX_INPUTS - k)) (drop k inputs)
    ++ repeat 0.0%float (c - (NEAT_MAX_INPUTS - k)).
Proof.
  cbv zeta. revert k r. induction ns as [|node ns IH]; intros k r; cbn [set_inputs List.filter].
  - intros [= <-]. reflexivity.
  - destruct (node_type node) eqn:Et; cbn [is_input length].
    + destruct (Nat.ltb_spec k NEAT_MAX_INPUTS) as [Hlt|Hge].
      * intros H. destruct (inputs !! k) as [x|] eqn:Ex; [|discriminate].
        destruct (set_inputs ns inputs (S k)) as [r'|] eqn:E; [|discriminate].
        injection H as <-. cbn [List.filter node_type node_with_value]. rewrite Et.
        cbn [is_input map node_value]. rewrite (IH _ _ E).
        rewrite (drop_S _ _ _ Ex).
        replace (NEAT_MAX_INPUTS - k)%nat with (S (NEAT_MAX_INPUTS - S k)) by lia.
        rewrite <- Nat.succ_min_distr, Nat.sub_succ. reflexivity.
      * intros H. destruct (set_inputs ns inputs k) as [r'|] eqn:E; [|discriminate].
        injection H as <-. cbn [List.filter node_type node_with_value]. rewrite Et.
        cbn [is_input map node_value]. rewrite (IH _ _ E).
        replace (NEAT_MAX_INPUTS - k)%nat with 0%nat by lia.
        rewrite !Nat.min_0_r, !Nat.sub_0_r. reflexivity.
    + destruct (set_inputs ns inputs k) as [r'|] eqn:E; [|discriminate].
      intros [= <-]. cbn [List.filter node_type node_with_value]. rewrite Et.
      cbn [is_input]. apply (IH _ _ E).
    + destruct (set_inputs ns inputs k) as [r'|] eqn:E; [|discriminate].
      intros [= <-]. cbn [List.filter node_type node_with_value]. rewrite Et.
      cbn [is_input]. apply (IH _ _ E).
    + destruct (set_inputs ns inputs k) as [r'|] eqn:E; [|discriminate].
      intros [= <-]. cbn [List.filter node_type node_with_value]. rewrite Et.
      cbn [is_input]. apply (IH _ _ E).
Qed.

(** After [neat_evaluate] the first [NEAT_MAX_INPUTS] input nodes hold the
    entries of [inputs], in order, and every further input node holds
    0.0. *)
Lemma evaluate_input_values (M : libm) (genome genome' : neat_genome_t)
    (inputs outputs : list double) :
  neat_evaluate M genome inputs = Some (genome', outputs) ->
  map node_value (List.filter (fun n => is_input (node_type n)) (nodes genome'))
  = take (Nat.min (input_node_count genome) NEAT_MAX_INPUTS) inputs
    ++ repeat 0.0%float (input_node_count genome - NEAT_MAX_INPUTS).
Proof.
  unfold neat_evaluate, neat_update_network. intros H.
  destruct (set_inputs (nodes genome) inputs 0) as [ns|] eqn:E1; [|discriminate].
  cbn [evaluation_order connections nodes genome_with_nodes] in H.
  destruct (evaluate_in_order M _ (connections genome) (reset_values ns)) as [ns1|] eqn:E3;
    [|discriminate].
  injection H as <- _.
  cbn [nodes genome_with_evaluation_order genome_with_nodes].
  destruct (evaluation_shape M _ _ ns ns1 E3) as [_ F3]. rewrite F3.
  rewrite (set_inputs_values_capped _ _ _ _ E1). unfold input_node_count.
  rewrite Nat.sub_0_r. reflexivity.
Qed.

Lemma evaluate_result (M : libm) (genome : neat_genome_t) (inputs : list double) :
  endpoints_in_range genome ->
  evaluation_order_in_range genome ->
  (Nat.min (input_node_count genome) NEAT_MAX_INPUTS <= length inputs)%nat ->
  exists genome' outputs,
    neat_evaluate M genome inputs = Some (genome', outputs)
    /\ map (node_with_value 0) (nodes genome') = map (node_with_value 0) (nodes genome)
    /\ genome_with_nodes [] (genome_with_evaluation_order None genome')
       = genome_with_nodes [] (genome_with_evaluation_order None genome)
    /\ evaluation_order genome'
       = Some (match evaluation_order genome with
               | Some order => order
               | None => default_evaluation_order (node_count genome)
               end)
    /\ length outputs = Nat.min NEAT_MAX_OUTPUTS (output_node_count genome)
    /\ map node_value (List.filter (fun n => is_input (node_type n)) (nodes genome'))
       = take (Nat.min (input_node_count genome) NEAT_MAX_INPUTS) inputs
         ++ repeat 0.0%float (input_node_count genome - NEAT_MAX_INPUTS).
Proof.
  intros Hr Ho Hi.
  assert (Hsome : exists genome' outputs,
             neat_evaluate M genome inputs = Some (genome', outputs)
             /\ map (node_with_value 0) (nodes genome')
                = map (node_with_value 0) (nodes genome)
             /\ genome_with_nodes [] (genome_with_evaluation_order None genome')
                = genome_with_nodes [] (genome_with_evaluation_order None genome)
             /\ evaluation_order genome'
                = Some (match evaluation_order genome with
                        | Some order => order
                        | None => default_evaluation_order (node_count genome)
                        end)
             /\ length outputs = Nat.min NEAT_MAX_OUTPUTS (output_node_count genome)).
  { unfold neat_evaluate.
    destruct (set_inputs_enough_capped (nodes genome) inputs 0) as [ns E1];
      [unfold input_node_count in Hi; exact Hi|].
    rewrite E1. unfold neat_update_network.
    unfold node_count. cbn [evaluation_order connections nodes genome_with_nodes].
    pose proof (set_inputs_shape _ _ _ _ E1) as S1.
    pose proof (map_eq_length _ _ _ S1) as L1.
    set (order := match evaluation_order genome with
                  | Some o => o
                  | None => default_evaluation_order (length ns)
                  end).
    assert (Hlen : length (reset_values ns) = length (nodes genome)).
    { unfold reset_values. rewrite length_map. exact L1. }
    destruct (evaluate_in_order_defined M order (connections genome) (reset_values ns))
      as [ns1 E3].
    { rewrite Hlen. unfold order, evaluation_order_in_range, node_count in *.
      destruct (evaluation_order genome); [exact Ho|].
      rewrite L1. apply default_evaluation_order_in_range. }
    { rewrite Hlen. eapply Forall_impl; [exact Hr|]. cbn beta. unfold node_count.
      intros c Hc. lia. }
    rewrite E3. eexists _, _. split; [reflexivity|].
    cbn [nodes connections evaluation_order genome_with_evaluation_order genome_with_nodes].
    destruct (evaluation_shape M order _ ns ns1 E3) as [S3 F3].
    assert (S : map (node_with_value 0) ns1 = map (node_with_value 0) (nodes genome))
      by congruence.
    split; [exact S|]. split; [destruct genome; reflexivity|]. split.
    - unfold order. rewrite L1. reflexivity.
    - unfold collect_outputs, output_node_count. rewrite length_take, length_map.
      f_equal.
      apply (map_eq_length (node_with_value 0)).
      apply (filter_shape _ _ (fun n => is_output (node_type n))); [reflexivity|exact S]. }
  destruct Hsome as (genome' & outputs & E & H1 & H2 & H3 & H4).
  exists genome', outputs. repeat (split; [assumption|]).
  exact (evaluate_input_values M genome genome' inputs outputs E).
Qed.

(** [neat_evaluate] stays within its arrays on a genome whose connections
    join existing nodes and whose cached order (if any) holds node
    indices, when the input vector has an entry for each of the first
    [NEAT_MAX_INPUTS] input nodes.  It then changes nothing but node
    values and the cached order: a node keeps its other fields, every
    other field of the genome is the same, and the cached order is the
    one the genome had or else the node indices in ascending order.  It
    writes one output per output node (at most [NEAT_MAX_OUTPUTS]); the
    first [NEAT_MAX_INPUTS] input nodes hold the input vector, in order,
    and every further input node holds 0.0. *)
Theorem neat_evaluate_defined (M : libm) (genome : neat_genome_t) (inputs : list double) :
  endpoints_in_range genome ->
  evaluation_order_in_range genome ->
  (Nat.min (input_node_count genome) NEAT_MAX_INPUTS <= length inputs)%nat ->
  exists genome' outputs,
    neat_evaluate M genome inputs = Some (genome', outputs)
    /\ map (node_with_value 0) (nodes genome') = map (node_with_value 0) (nodes genome)
    /\ genome_with_nodes [] (genome_with_evaluation_order None genome')
       = genome_with_nodes [] (genome_with_evaluation_order None genome)
    /\ evaluation_order genome'
       = Some (match evaluation_order genome with
               | Some order => order
               | None => default_evaluation_order (node_count genome)
               end)
    /\ length outputs = Nat.min NEAT_MAX_OUTPUTS (output_node_count genome)
    /\ map node_value (List.filter (fun n => is_input (node_type n)) (nodes genome'))
       = take (Nat.min (input_node_count genome) NEAT_MAX_INPUTS) inputs
         ++ repeat 0.0%float (input_node_count genome - NEAT_MAX_INPUTS).
Proof. exact (evaluate_result M genome inputs). Qed.

(** [wide_genome] has one input node more than [NEAT_MAX_INPUTS]: a vector
    of [NEAT_MAX_INPUTS] entries is enough, and the last input node
    holds 0.0 after the call. *)
Lemma neat_evaluate_defined_witness :
  exists genome' outputs,
    neat_evaluate libm_at_zero wide_genome (repeat 1.0%float NEAT_MAX_INPUTS)
    = Some (genome', outputs)
    /\ map (node_with_value 0) (nodes genome') = map (node_with_value 0) (nodes wide_genome)
    /\ genome_with_nodes [] (genome_with_evaluation_order None genome')
       = genome_with_nodes [] (genome_with_evaluation_order None wide_genome)
    /\ evaluation_order genome'
       = Some (match evaluation_order wide_genome with
               | Some order => order
               | None => default_evaluation_order (node_count wide_genome)
               end)
    /\ length outputs = Nat.min NEAT_MAX_OUTPUTS (output_node_count wide_genome)
    /\ map node_value (List.filter (fun n => is_input (node_type n)) (nodes genome'))
       = take (Nat.min (input_node_count wide_genome) NEAT_MAX_INPUTS)
           (repeat 1.0%float NEAT_MAX_INPUTS)
         ++ repeat 0.0%float (input_node_count wide_genome - NEAT_MAX_INPUTS).
Proof.
  apply (neat_evaluate_defined libm_at_zero wide_genome (repeat 1.0%float NEAT_MAX_INPUTS)).
  - constructor.
  - exact I.
  - apply Nat.leb_le. vm_compute. reflexivity.
Defined.

(** C9, as amended.  [neat_evaluate] has no arity check and no error result:
    it reads one entry of the input vector for each of the first
    [NEAT_MAX_INPUTS] input nodes of the genome and never looks at the
    rest, so a longer vector gives exactly the result of its prefix, and
    the loop that stores the inputs succeeds on every vector that is at
    least that long.  After the call those input nodes hold the entries
    read, in order, and an input node beyond the first [NEAT_MAX_INPUTS]
    holds 0.0. *)
Theorem neat_evaluate_no_arity_check (M : libm) (genome : neat_genome_t)
    (inputs : list double) :
  let arity := Nat.min (input_node_count genome) NEAT_MAX_INPUTS in
  neat_evaluate M genome inputs = neat_evaluate M genome (take arity inputs)
  /\ ((arity <= length inputs)%nat -> is_Some (set_inputs (nodes genome) inputs 0))
  /\ (forall genome' outputs,
        neat_evaluate M genome inputs = Some (genome', outputs) ->
        map node_value (List.filter (fun n => is_input (node_type n)) (nodes genome'))
        = take arity inputs
          ++ repeat 0.0%float (input_node_count genome - NEAT_MAX_INPUTS)).
Proof.
  cbv zeta. split; [|split].
  - unfold neat_evaluate. rewrite set_inputs_take_capped; [reflexivity|].
    unfold input_node_count. lia.
  - intros H. apply set_inputs_enough_capped. unfold input_node_count in H. exact H.
  - intros genome' outputs E. exact (evaluate_input_values M genome genome' inputs outputs E).
Qed.

(** The statement on [two_node_genome] (one input node) and a vector of two
    entries: the result is the one for the first entry, and the inputs
    are stored without a read outside the vector.  On [wide_genome],
    which has [NEAT_MAX_INPUTS + 1] input nodes, a vector of
    [NEAT_MAX_INPUTS] entries is stored without a read outside it. *)
Lemma neat_evaluate_no_arity_check_witness :
  neat_evaluate libm_at_zero two_node_genome [1.0%float; 2.0%float]
  = neat_evaluate libm_at_zero two_node_genome [1.0%float]
  /\ is_Some (set_inputs (nodes two_node_genome) [1.0%float; 2.0%float] 0)
  /\ is_Some (set_inputs (nodes wide_genome) (repeat 1.0%float NEAT_MAX_INPUTS) 0).
Proof.
  split; [|split].
  - exact (proj1 (neat_evaluate_no_arity_check libm_at_zero two_node_genome
                    [1.0%float; 2.0%float])).
  - apply (proj1 (proj2 (neat_evaluate_no_arity_check libm_at_zero two_node_genome
                           [1.0%float; 2.0%float]))).
    cbn. lia.
  - apply (proj1 (proj2 (neat_evaluate_no_arity_check libm_at_zero wide_genome
                           (repeat 1.0%float NEAT_MAX_INPUTS)))).
    apply Nat.leb_le. vm_compute. reflexivity.
Defined.

(** C9, counterexample.  [two_node_genome] has one input node; called with
    a vector of two entries, [neat_evaluate] completes like the call with
    the first entry alone, and the caller gets the output value: no error
    is surfaced. *)
Lemma neat_evaluate_arity_mismatch_no_error :
  length [1.0%float; 2.0%float] <> input_node_count two_node_genome
  /\ neat_evaluate libm_at_zero two_node_genome [1.0%float; 2.0%float]
     = neat_evaluate libm_at_zero two_node_genome [1.0%float]
  /\ option_map snd (neat_evaluate libm_at_zero two_node_genome [1.0%float; 2.0%float])
     = Some [0.5%float].
Proof. vm_compute. split; [discriminate|]. split; reflexivity. Qed.

(** ** Crossover *)

Lemma neat_add_node_post M genome type placement :
  rand_post
    (fun r => exists bias,
       r = (Z.of_nat (node_count genome),
            genome_with_nodes
              (nodes genome
               ++ [Node (Z.of_nat (node_count genome)) type placement
                     NEAT_ACTIVATION_SIGMOID 0 bias true 0]) genome))
    (neat_add_node M genome type placement).
Proof.
  intros seed. unfold neat_add_node, neat_create_node, bind, ret.
  destruct (neat_random_normal M 0 1 seed) as [bias seed']. exists bias. reflexivity.
Qed.

Lemma copy_nodes_post M ns child :
  rand_post
    (fun child' =>
       nodes child' = nodes child ++ copied_nodes (node_count child) ns
       /\ genome_with_nodes [] child' = genome_with_nodes [] child)
    (copy_nodes M ns child).
Proof.
  revert child. induction ns as [|node ns IH]; intros child; cbn [copy_nodes copied_nodes].
  - apply rand_post_ret. rewrite app_nil_r. auto.
  - apply rand_post_bind with (1 := neat_add_node_post M child _ _).
    intros [new_node_id child1] (bias & E). injection E as -> ->.
    cbn [nodes genome_with_nodes]. rewrite Nat2Z.id.
    unfold node_count.
    rewrite alter_app_r_alt by lia. rewrite Nat.sub_diag. cbn [alter list_alter].
    eapply rand_post_weaken; [|apply IH].
    cbn beta. intros child' [En Es].
    unfold node_count in En. cbn [nodes genome_with_nodes] in En.
    rewrite length_app in En. cbn [length] in En.
    rewrite Nat.add_1_r in En. rewrite <- app_assoc in En. cbn [app] in En.
    split; [exact En | exact Es].
Qed.

Lemma add_connection_inherited ps genome c :
  In c ps -> inherited_from ps genome ->
  inherited_from ps (snd (neat_add_connection genome (conn_in_node c) (conn_out_node c)
                            (conn_weight c) (conn_enabled c))).
Proof.
  intros Hc [Hd Hf]. unfold neat_add_connection.
  destruct (connection_exists (connections genome) (conn_in_node c) (conn_out_node c)) eqn:E;
    [split; assumption|].
  cbn [snd]. unfold inherited_from, endpoints.
  cbn [connections genome_with_evaluation_order genome_with_connections].
  split.
  - rewrite map_app. cbn [map]. apply NoDup_app. split; [exact Hd|].
    split; [|apply NoDup_singleton].
    intros e Hin Hin'. apply list_elem_of_singleton in Hin'. subst e.
    apply connection_exists_Forall in E. rewrite Forall_forall in E.
    apply list_elem_of_In, in_map_iff in Hin. destruct Hin as (c' & Hc' & Hcin).
    injection Hc' as H1 H2. apply (E c'); [apply list_elem_of_In; exact Hcin | auto].
  - apply Forall_app. split; [exact Hf|]. constructor; [|constructor].
    exists c. split; [exact Hc | reflexivity].
Qed.

Lemma inherit_connections_post ps cs other_cs child :
  (forall c, In c cs -> In c ps) -> (forall c, In c other_cs -> In c ps) ->
  inherited_from ps child ->
  rand_post (fun child' => inherited_from ps child' /\ nodes child' = nodes child)
    (inherit_connections cs other_cs child).
Proof.
  intros Hcs Ho. revert child.
  induction cs as [|conn cs IH]; intros child Hi; cbn [inherit_connections].
  - apply rand_post_ret. auto.
  - apply rand_post_bind with (P := fun c => In c ps).
    + destruct (find _ other_cs) as [matching_conn|] eqn:Ef.
      * apply rand_post_draw. intros u. apply find_some in Ef.
        destruct (u <? 0.5)%float; apply rand_post_ret;
          [apply Ho, Ef | apply Hcs; left; reflexivity].
      * apply rand_post_ret. apply Hcs. left. reflexivity.
    + intros c Hc. eapply rand_post_weaken; [|apply IH].
      * cbn beta. intros child' [H1 H2]. split; [exact H1|]. rewrite H2.
        unfold neat_add_connection. destruct (connection_exists _ _ _); reflexivity.
      * intros c' Hc'. apply Hcs. right. exact Hc'.
      * apply add_connection_inherited; assumption.
Qed.

Lemma inherit_remaining_post ps cs fitter_cs child :
  (forall c, In c cs -> In c ps) ->
  inherited_from ps child ->
  rand_post (fun child' => inherited_from ps child' /\ nodes child' = nodes child)
    (inherit_remaining cs fitter_cs child).
Proof.
  intros Hcs. revert child.
  induction cs as [|conn cs IH]; intros child Hi; cbn [inherit_remaining].
  - apply rand_post_ret. auto.
  - cbv zeta.
    apply rand_post_bind
      with (P := fun child' => inherited_from ps child' /\ nodes child' = nodes child).
    + destruct (negb _); [|apply rand_post_ret; auto].
      apply rand_post_draw. intros u.
      destruct (u <? 0.5)%float; apply rand_post_ret; [|auto].
      split; [apply add_connection_inherited; [apply Hcs; left; reflexivity | exact Hi]|].
      unfold neat_add_connection. destruct (connection_exists _ _ _); reflexivity.
    + intros child1 [H1 H2]. eapply rand_post_weaken; [|apply IH].
      * cbn beta. intros child' [H3 H4]. split; [exact H3 | congruence].
      * intros c' Hc'. apply Hcs. right. exact Hc'.
      * exact H1.
Qed.

Lemma crossover_post M parent1 parent2 :
  rand_post
    (fun child =>
       nodes child = copied_nodes 0 (nodes (fitter_parent parent1 parent2))
       /\ inherited_from (connections parent1 ++ connections parent2) child)
    (neat_crossover M parent1 parent2).
Proof.
  unfold neat_crossover. cbv zeta.
  fold (fitter_parent parent1 parent2). fold (other_parent parent1 parent2).
  set (ps := connections parent1 ++ connections parent2).
  assert (Hf : forall c, In c (connections (fitter_parent parent1 parent2)) -> In c ps).
  { intros c Hc. apply in_or_app. unfold fitter_parent in Hc.
    destruct (fitness parent2 <=? fitness parent1)%float; auto. }
  assert (Ho : forall c, In c (connections (other_parent parent1 parent2)) -> In c ps).
  { intros c Hc. apply in_or_app. unfold other_parent in Hc.
    destruct (fitness parent2 <=? fitness parent1)%float; auto. }
  apply rand_post_bind with (1 := copy_nodes_post M _ (neat_create_genome (-1))).
  intros child0 [En Es]. unfold node_count in En.
  cbn [nodes neat_create_genome app length] in En.
  assert (Hc0 : connections child0 = []).
  { change (connections (genome_with_nodes [] child0) = []). rewrite Es. reflexivity. }
  assert (Hi0 : inherited_from ps child0).
  { unfold inherited_from, endpoints. rewrite Hc0. split; [apply NoDup_nil; exact I|constructor]. }
  apply rand_post_bind with (1 := inherit_connections_post ps _ _ child0 Hf Ho Hi0).
  intros child1 [Hi1 Hn1].
  eapply rand_post_weaken; [|apply (inherit_remaining_post ps _ _ child1 Ho Hi1)].
  cbn beta. intros child [Hi Hn]. split; [congruence | exact Hi].
Qed.

Lemma copied_nodes_lookup start ns j n' :
  copied_nodes start ns !! j = Some n' ->
  node_id n' = Z.of_nat (start + j) /\ node_x_pos n' = 0.
Proof.
  revert start j. induction ns as [|n ns IH]; intros start [|j]; cbn; try discriminate.
  - intros [= <-]. cbn. split; [f_equal; lia | reflexivity].
  - intros H. apply IH in H. rewrite <- Nat.add_succ_comm. exact H.
Qed.

Lemma copied_nodes_length start ns : length (copied_nodes start ns) = length ns.
Proof. revert start. induction ns as [|n ns IH]; intros start; cbn; [|rewrite IH]; reflexivity. Qed.

Lemma is_nan_Prim2SF (x : double) : is_nan x = true -> Prim2SF x = S754_nan.
Proof.
  unfold is_nan. rewrite FloatAxioms.eqb_spec. unfold SFeqb, SFcompare.
  destruct (Prim2SF x) as [s|s| |s m e]; try reflexivity; intros H; exfalso.
  - destruct s; discriminate.
  - destruct s; discriminate.
  - rewrite Z.compare_refl in H.
    change (PosDef.Pos.compare_cont Eq m m) with (Pos.compare m m) in H.
    rewrite Pos.compare_refl in H. destruct s; discriminate.
Qed.

(** [y <= x] is false when [x] or [y] is NaN. *)
Lemma leb_nan (x y : double) :
  is_nan x = true \/ is_nan y = true -> (y <=? x)%float = false.
Proof.
  rewrite FloatAxioms.leb_spec. unfold SFleb, SFcompare.
  intros [H|H]; apply is_nan_Prim2SF in H; rewrite H.
  - destruct (Prim2SF y); reflexivity.
  - reflexivity.
Qed.

(** The child of [neat_crossover] has the nodes of the parent that the test
    [parent1->fitness >= parent2->fitness] selects: parent 1 when the
    test holds, parent 2 in every other case, which includes a NaN
    fitness of either parent.  Kind, placement, activation function and
    bias of the nodes are copied, the id is the index and the value is 0.
    The connections of the child have pairwise distinct endpoints, and
    each of them has endpoints, weight and enabled flag of a connection
    of one of the parents. *)
Theorem neat_crossover_genes (M : libm) (parent1 parent2 : neat_genome_t) (seed : Z) :
  let child := fst (neat_crossover M parent1 parent2 seed) in
  let selected :=
    if (fitness parent2 <=? fitness parent1)%float then parent1 else parent2 in
  nodes child = copied_nodes 0 (nodes selected)
  /\ (is_nan (fitness parent1) = true \/ is_nan (fitness parent2) = true ->
      selected = parent2)
  /\ NoDup (endpoints child)
  /\ Forall (fun c => exists p, In p (connections parent1 ++ connections parent2)
                                /\ connection_gene c = connection_gene p)
       (connections child).
Proof.
  cbv zeta. destruct (crossover_post M parent1 parent2 seed) as (Hn & Hd & Hf).
  split; [exact Hn|]. split; [|split; [exact Hd|exact Hf]].
  intros H. rewrite (leb_nan _ _ H). reflexivity.
Qed.

(** Crossover of well-formed parents gives a well-formed child when the
    less fit parent has no more nodes than the fitter one. *)
Theorem neat_crossover_well_formed (M : libm) (parent1 parent2 : neat_genome_t) (seed : Z) :
  well_formed parent1 -> well_formed parent2 ->
  (node_count (other_parent parent1 parent2) <= node_count (fitter_parent parent1 parent2))%nat ->
  well_formed (fst (neat_crossover M parent1 parent2 seed)).
Proof.
  intros W1 W2 Hle.
  destruct (crossover_post M parent1 parent2 seed) as (Hn & Hd & Hf).
  set (child := fst (neat_crossover M parent1 parent2 seed)) in *.
  assert (Hcount : node_count child = node_count (fitter_parent parent1 parent2)).
  { unfold node_count. rewrite Hn. apply copied_nodes_length. }
  split; [|split; [|split]].
  - intros j n H. rewrite Hn in H. apply copied_nodes_lookup in H. apply H.
  - apply Forall_lookup_2. intros j n H. rewrite Hn in H.
    apply copied_nodes_lookup in H. apply H.
  - unfold endpoints_in_range. eapply Forall_impl; [exact Hf|]. cbn beta.
    intros c (p & Hp & E). injection E as -> -> _ _. rewrite Hcount.
    assert (Hmax : forall g, g = parent1 \/ g = parent2 ->
                     (node_count g <= node_count (fitter_parent parent1 parent2))%nat).
    { unfold fitter_parent, other_parent in *.
      destruct (fitness parent2 <=? fitness parent1)%float; intros g [->| ->]; lia. }
    apply in_app_or in Hp. destruct Hp as [Hp|Hp].
    + pose proof (proj1 (Forall_forall _ _) (proj1 (proj2 (proj2 W1))) p
                    (proj2 (list_elem_of_In _ _) Hp)) as Hb. cbn beta in Hb.
      specialize (Hmax parent1 (or_introl eq_refl)). lia.
    + pose proof (proj1 (Forall_forall _ _) (proj1 (proj2 (proj2 W2))) p
                    (proj2 (list_elem_of_In _ _) Hp)) as Hb. cbn beta in Hb.
      specialize (Hmax parent2 (or_intror eq_refl)). lia.
  - exact Hd.
Qed.

Lemma small_parent_well_formed : well_formed small_parent.
Proof. solve_well_formed. Qed.

Lemma large_parent_well_formed : well_formed large_parent.
Proof. solve_well_formed. Qed.

(** Two parents with the same nodes. *)
Lemma neat_crossover_well_formed_witness :
  well_formed (fst (neat_crossover libm_at_zero small_parent small_parent 1)).
Proof.
  apply neat_crossover_well_formed.
  - exact small_parent_well_formed.
  - exact small_parent_well_formed.
  - vm_compute. lia.
Defined.

(** [neat_crossover] of two well-formed parents can give a child with a
    connection from a node the child does not have, when the less fit
    parent has more nodes.  [small_parent] is the fitter parent, so the
    child has its two nodes; from the generator state below the crossover
    keeps the connection 2 -> 1 of [large_parent], whose source is the
    hidden node 2 of that parent.  [neat_evaluate] on the child then
    reads [nodes[2]], outside the two nodes of the child. *)
Theorem neat_crossover_dangling_endpoint (M : libm) :
  well_formed small_parent /\ well_formed large_parent
  /\ let child := fst (neat_crossover M small_parent large_parent 3299489074638565454) in
     node_count child = 2%nat
     /\ endpoints child = [(0, 1); (2, 1)]
     /\ map conn_enabled (connections child) = [true; true]
     /\ neat_evaluate M child [1.0%float] = None.
Proof.
  split; [exact small_parent_well_formed|]. split; [exact large_parent_well_formed|].
  destruct M. vm_compute. repeat split.
Qed.

(** ** Species *)

Lemma remove_member_absent genome ms : ~ In genome ms -> remove_member genome ms = None.
Proof.
  induction ms as [|m ms IH]; intros H; [reflexivity|]. cbn [remove_member].
  destruct (Nat.eqb_spec m genome) as [->|Hne]; [exfalso; apply H; left; reflexivity|].
  rewrite IH; [reflexivity|]. intros Hin. apply H. right. exact Hin.
Qed.

Lemma remove_member_last genome ms :
  ~ In genome ms -> remove_member genome (ms ++ [genome]) = Some ms.
Proof.
  induction ms as [|m ms IH]; intros H; cbn [remove_member app].
  - rewrite Nat.eqb_refl. reflexivity.
  - destruct (Nat.eqb_spec m genome) as [->|Hne]; [exfalso; apply H; left; reflexivity|].
    rewrite IH; [reflexivity|]. intros Hin. apply H. right. exact Hin.
Qed.

(** [neat_remove_genome_from_species] leaves a species unchanged when the
    genome is not a member, and it undoes the member list of
    [neat_add_genome_to_species] for such a genome; but the best fitness
    and the staleness that the addition stored stay as the addition left
    them, also when the removed genome was the best one. *)
Theorem neat_remove_genome_round_trip (gs : list neat_genome_t) (sp : neat_species_t)
    (genome : nat) :
  ~ In genome (members sp) ->
  let added := neat_add_genome_to_species gs sp genome in
  let removed := neat_remove_genome_from_species gs added genome in
  neat_remove_genome_from_species gs sp genome = sp
  /\ members removed = members sp
  /\ best_fitness removed = best_fitness added
  /\ staleness removed = staleness added
  /\ representative removed = representative sp.
Proof.
  intros H. cbv zeta. unfold neat_remove_genome_from_species.
  rewrite (remove_member_absent _ _ H). split; [reflexivity|].
  cbn [members neat_add_genome_to_species].
  rewrite (remove_member_last _ _ H). cbn. auto.
Qed.

(** Genome 2 joins and leaves [pair_species]. *)
Lemma neat_remove_genome_round_trip_witness :
  let gs := [bare_genome 1.0; bare_genome 0.0; bare_genome 5.0] in
  let added := neat_add_genome_to_species gs pair_species 2 in
  let removed := neat_remove_genome_from_species gs added 2 in
  neat_remove_genome_from_species gs pair_species 2 = pair_species
  /\ members removed = members pair_species
  /\ best_fitness removed = best_fitness added
  /\ staleness removed = staleness added
  /\ representative removed = representative pair_species.
Proof.
  apply (neat_remove_genome_round_trip
           [bare_genome 1.0; bare_genome 0.0; bare_genome 5.0] pair_species 2).
  cbn. intuition discriminate.
Defined.

Lemma consecutive_ids_snoc base n :
  consecutive_ids base (S n) = consecutive_ids base n ++ [base + Z.of_nat n].
Proof. unfold consecutive_ids. rewrite List.seq_S, map_app. reflexivity. Qed.

Lemma add_genome_coherent gs sp genome :
  (0 <? member_count sp)%nat = true ->
  (forall r, representative sp = Some r ->
     (neat_compatibility_distance (genome_at gs genome) (genome_at gs r)
      <? NEAT_COMPATIBILITY_THRESHOLD)%float = true) ->
  species_coherent gs sp ->
  species_coherent gs (neat_add_genome_to_species gs sp genome).
Proof.
  intros Hm Hd (r & Hr & Hh & Hf). exists r.
  cbn [representative members neat_add_genome_to_species].
  split; [exact Hr|]. split.
  - destruct (members sp); [discriminate|exact Hh].
  - apply Forall_app. split; [exact Hf|]. constructor; [|constructor].
    right. apply Hd, Hr.
Qed.

Lemma place_in_species_spec gs genome ss ss' :
  place_in_species gs genome ss = Some ss' ->
  Forall (species_coherent gs) ss ->
  Permutation (concat (map members ss')) (genome :: concat (map members ss))
  /\ map species_ident ss' = map species_ident ss
  /\ Forall (species_coherent gs) ss'.
Proof.
  revert ss'. induction ss as [|sp ss IH]; intros ss'; cbn [place_in_species]; [discriminate|].
  intros H Hall. apply Forall_cons in Hall. destruct Hall as [Hsp Hall].
  destruct (representative sp) as [r|] eqn:Er.
  - destruct ((0 <? member_count sp)%nat
              && (neat_compatibility_distance (genome_at gs genome) (genome_at gs r)
                  <? NEAT_COMPATIBILITY_THRESHOLD)%float) eqn:Ec.
    + injection H as <-. apply andb_true_iff in Ec. destruct Ec as [Ec1 Ec2].
      split; [|split].
      * cbn [map concat members neat_add_genome_to_species].
        rewrite <- app_assoc. cbn [app]. symmetry. apply Permutation_middle.
      * reflexivity.
      * constructor; [|exact Hall]. apply add_genome_coherent; [exact Ec1| |exact Hsp].
        intros r' Hr'. rewrite Er in Hr'. injection Hr' as <-. exact Ec2.
    + destruct (place_in_species gs genome ss) as [r'|]; [|discriminate].
      injection H as <-. destruct (IH r' eq_refl Hall) as (P & I & C).
      split; [|split].
      * cbn [map concat]. rewrite P. symmetry. apply Permutation_middle.
      * cbn [map]. rewrite I. reflexivity.
      * constructor; assumption.
  - destruct (place_in_species gs genome ss) as [r'|]; [|discriminate].
    injection H as <-. destruct (IH r' eq_refl Hall) as (P & I & C).
    split; [|split].
    + cbn [map concat]. rewrite P. symmetry. apply Permutation_middle.
    + cbn [map]. rewrite I. reflexivity.
    + constructor; assumption.
Qed.

Lemma founder_coherent gs id genome :
  species_coherent gs
    (neat_add_genome_to_species gs (Species id [] (-1e10)%float 0 0 0 (Some genome)) genome).
Proof.
  exists genome. cbn. split; [reflexivity|]. split; [reflexivity|].
  constructor; [left; reflexivity | constructor].
Qed.

Lemma speciate_genomes_spec gs base is_ ss next_id :
  Forall (species_coherent gs) ss ->
  map species_ident ss = consecutive_ids base (length ss) ->
  next_id = base + Z.of_nat (length ss) ->
  let '(ss', next_id') := speciate_genomes gs is_ ss next_id in
  Permutation (concat (map members ss')) (concat (map members ss) ++ is_)
  /\ Forall (species_coherent gs) ss'
  /\ map species_ident ss' = consecutive_ids base (length ss')
  /\ next_id' = base + Z.of_nat (length ss').
Proof.
  revert ss next_id. induction is_ as [|i is_ IH]; intros ss next_id Hc Hi Hn;
    cbn [speciate_genomes].
  - rewrite app_nil_r. auto.
  - destruct (place_in_species gs i ss) as [ss1|] eqn:Ep.
    + destruct (place_in_species_spec gs i ss ss1 Ep Hc) as (P1 & I1 & C1).
      assert (L1 : length ss1 = length ss).
      { rewrite <- (length_map species_ident ss1), I1. apply length_map. }
      specialize (IH ss1 next_id C1).
      rewrite L1, I1 in IH. specialize (IH Hi Hn).
      destruct (speciate_genomes gs is_ ss1 next_id) as [ss' next_id'].
      destruct IH as (P & C & I & N). split; [|auto].
      rewrite P, P1. cbn [app]. apply Permutation_middle.
    + set (sp := neat_add_genome_to_species gs
                   (Species next_id [] (-1e10)%float 0 0 0 (Some i)) i).
      specialize (IH (ss ++ [sp]) (next_id + 1)).
      rewrite length_app in IH. cbn [length] in IH. rewrite Nat.add_1_r in IH.
      destruct (speciate_genomes gs is_ (ss ++ [sp]) (next_id + 1)) as [ss' next_id'].
      destruct IH as (P & C & I & N).
      * apply Forall_app. split; [exact Hc|]. constructor; [apply founder_coherent|constructor].
      * rewrite map_app, Hi, consecutive_ids_snoc. cbn. rewrite Hn. reflexivity.
      * lia.
      * split; [|auto]. rewrite P. rewrite map_app, concat_app. cbn.
        rewrite <- app_assoc. reflexivity.
Qed.

Lemma species_coherent_members gs sp : species_coherent gs sp -> members sp <> [].
Proof. intros (r & _ & Hh & _) E. rewrite E in Hh. discriminate. Qed.

Lemma filter_all {A} (P : A -> bool) (l : list A) :
  Forall (fun x => P x = true) l -> List.filter P l = l.
Proof.
  induction 1 as [|x l Hx _ IH]; [reflexivity|]. cbn. rewrite Hx, IH. reflexivity.
Qed.

Lemma speciate_post pop :
  let pop' := neat_speciate pop in
  genomes pop' = genomes pop
  /\ Permutation (concat (map members (species pop'))) (seq 0 (genome_count pop))
  /\ Forall (species_coherent (genomes pop)) (species pop')
  /\ map species_ident (species pop')
     = consecutive_ids (next_species_id (innovation_table pop)) (species_count pop')
  /\ next_species_id (innovation_table pop')
     = next_species_id (innovation_table pop) + Z.of_nat (species_count pop').
Proof.
  cbv zeta. unfold neat_speciate, genome_count, species_count.
  destruct (genomes pop) as [|g gs] eqn:Eg.
  { cbn. rewrite Eg. repeat split; try reflexivity; try constructor. lia. }
  rewrite <- Eg. set (all := genomes pop).
  set (id0 := next_species_id (innovation_table pop)).
  set (first := neat_add_genome_to_species all
                  (Species id0 [] (-1e10)%float 0 0 0 (Some 0%nat)) 0%nat).
  pose proof (speciate_genomes_spec all id0 (seq 1 (length all - 1)) [first] (id0 + 1)) as H.
  destruct (speciate_genomes all (seq 1 (length all - 1)) [first] (id0 + 1)) as [ss next_id].
  destruct H as (P & C & I & N).
  { constructor; [apply founder_coherent|constructor]. }
  { cbn. rewrite Z.add_0_r. reflexivity. }
  { cbn. lia. }
  assert (F : List.filter (fun sp => negb (member_count sp =? 0)%nat) ss = ss).
  { apply filter_all. eapply Forall_impl; [exact C|]. cbn beta. intros sp Hsp.
    apply species_coherent_members in Hsp. unfold member_count.
    destruct (members sp); [contradiction|reflexivity]. }
  rewrite F. cbn [genomes species innovation_table next_species_id
                  table_with_next_species_id].
  split; [reflexivity|]. split; [|auto].
  rewrite P. cbn [map concat members first neat_add_genome_to_species app].
  unfold all. rewrite Eg. cbn [length].
  replace (S (length gs) - 1)%nat with (length gs) by lia. reflexivity.
Qed.

(** [neat_speciate] partitions the population: every genome is a member of
    exactly one species, and the genomes themselves are not changed.
    Each species has its founder as representative and first member, and
    every other member was within [NEAT_COMPATIBILITY_THRESHOLD] of that
    representative; in particular no species is empty.  The species get
    consecutive identifiers from the registry's [next_species_id], which
    is advanced past them. *)
Theorem neat_speciate_partition (pop : neat_population_t) :
  let pop' := neat_speciate pop in
  genomes pop' = genomes pop
  /\ Permutation (concat (map members (species pop'))) (seq 0 (genome_count pop))
  /\ Forall (species_coherent (genomes pop)) (species pop')
  /\ map species_ident (species pop')
     = consecutive_ids (next_species_id (innovation_table pop)) (species_count pop')
  /\ next_species_id (innovation_table pop')
     = next_species_id (innovation_table pop) + Z.of_nat (species_count pop').
Proof. exact (speciate_post pop). Qed.

(** After [neat_speciate] a population with at least one genome can
    reproduce: [neat_reproduce] ends for some bound on the iterations of
    its offspring loop, with [population_size] genomes and the generation
    counter advanced by one. *)
Theorem neat_reproduce_after_speciate (M : libm) (pop : neat_population_t) (seed : Z) :
  genomes pop <> [] ->
  exists fuel pop' seed',
    neat_reproduce M fuel (neat_speciate pop) seed = (Some pop', seed')
    /\ genome_count pop' = population_size pop
    /\ generation pop' = generation pop + 1.
Proof.
  intros Hg. destruct (speciate_post pop) as (_ & P & C & _).
  assert (Hsize : population_size (neat_speciate pop) = population_size pop
                  /\ generation (neat_speciate pop) = generation pop).
  { unfold neat_speciate. destruct (genomes pop); [contradiction|].
    destruct (speciate_genomes _ _ _ _). split; reflexivity. }
  destruct Hsize as [Hsize Hgen].
  set (sp := neat_speciate pop) in *.
  assert (Hall : Forall has_members (species sp)).
  { eapply Forall_impl; [exact C|]. exact (species_coherent_members _). }
  assert (Hne : species sp <> []).
  { intros E. rewrite E in P. cbn in P. apply Permutation_nil_l in P.
    unfold genome_count in P. destruct (genomes pop); [contradiction|discriminate]. }
  unfold neat_reproduce.
  pose proof (carry_over_elites_spec (genomes sp) (population_size sp) (species sp) []
                Hall ltac:(cbn; lia)) as Hc.
  destruct (carry_over_elites (genomes sp) (population_size sp) (species sp) [])
    as [ss elites].
  destruct Hc as (Hall' & Hlen & Hle).
  assert (Hne' : ss <> []).
  { intros ->. destruct (species sp); [contradiction | discriminate]. }
  exists (population_size sp).
  destruct (fill_offspring_terminates M (genomes sp) ss
              (total_average_fitness (species sp)) (population_size sp)
              (population_size sp) Hne' Hall' (innovation_table sp) elites seed
              ltac:(lia)) as (new' & table' & seed' & E & L).
  unfold bind. rewrite E. unfold ret.
  eexists _, _. split; [reflexivity|].
  unfold genome_count. cbn. rewrite <- Hsize, <- Hgen. split; [lia | reflexivity].
Qed.

(** The two genomes of [scored_population], before its speciation. *)
Lemma neat_reproduce_after_speciate_witness :
  exists fuel pop' seed',
    neat_reproduce libm_at_zero fuel (neat_speciate unit_scored_population) 1
    = (Some pop', seed')
    /\ genome_count pop' = population_size unit_scored_population
    /\ generation pop' = generation unit_scored_population + 1.
Proof.
  apply (neat_reproduce_after_speciate libm_at_zero unit_scored_population 1).
  discriminate.
Defined.

(** ** The order of binary64 numbers *)

Lemma SFltb_trans x y z : SFltb x y = true -> SFltb y z = true -> SFltb x z = true.
Proof.
  unfold SFltb, SFcompare.
  destruct x as [sx|sx| |sx mx ex], y as [sy|sy| |sy my ey], z as [sz|sz| |sz mz ez];
    try discriminate; try reflexivity;
    repeat match goal with s : bool |- _ => destruct s end;
    try discriminate; try reflexivity.
  all: change (PosDef.Pos.compare_cont Eq mx my) with (Pos.compare mx my);
       change (PosDef.Pos.compare_cont Eq my mz) with (Pos.compare my mz);
       change (PosDef.Pos.compare_cont Eq mx mz) with (Pos.compare mx mz).
  all: destruct (Z.compare_spec ex ey), (Z.compare_spec ey ez), (Z.compare_spec ex ez);
    try discriminate; try lia; try reflexivity.
  all: destruct (Pos.compare_spec mx my), (Pos.compare_spec my mz), (Pos.compare_spec mx mz);
    cbn; try discriminate; try lia; try reflexivity.
Qed.

Lemma SFltb_irrefl x : SFltb x x = false.
Proof.
  unfold SFltb, SFcompare. destruct x as [s|s| |s m e]; try reflexivity.
  - destruct s; reflexivity.
  - rewrite Z.compare_refl. change (PosDef.Pos.compare_cont Eq m m) with (Pos.compare m m).
    rewrite Pos.compare_refl. destruct s; reflexivity.
Qed.

(** [<] on [double] is transitive and irreflexive (a NaN is below and
    above nothing). *)
Lemma ltb_trans (x y z : double) :
  (x <? y)%float = true -> (y <? z)%float = true -> (x <? z)%float = true.
Proof. rewrite !ltb_spec. apply SFltb_trans. Qed.

Lemma ltb_irrefl (x : double) : (x <? x)%float = false.
Proof. rewrite ltb_spec. apply SFltb_irrefl. Qed.

Lemma ltb_false_trans (x y z : double) :
  (x <? y)%float = true -> (x <? z)%float = false -> (y <? z)%float = false.
Proof.
  intros Hxy Hxz. destruct (y <? z)%float eqn:E; [|reflexivity].
  rewrite (ltb_trans x y z Hxy E) in Hxz. discriminate.
Qed.

Lemma ltb_asym (x y : double) : (x <? y)%float = true -> (y <? x)%float = false.
Proof. intros H. apply (ltb_false_trans x y x H), ltb_irrefl. Qed.

(** ** Reproduction *)

Lemma sort_pass_spec gs mj rest :
  let '(m, r) := sort_pass gs mj rest in
  (m = mj \/ (fitness (genome_at gs mj) <? fitness (genome_at gs m))%float = true)
  /\ fittest_of gs m (mj :: rest)
  /\ Permutation (m :: r) (mj :: rest).
Proof.
  revert mj. induction rest as [|mk rest IH]; intros mj; cbn [sort_pass].
  - split; [left; reflexivity|]. split; [|reflexivity].
    constructor; [apply ltb_irrefl | constructor].
  - destruct (fitness (genome_at gs mj) <? fitness (genome_at gs mk))%float eqn:E.
    + specialize (IH mk). destruct (sort_pass gs mk rest) as [m r].
      destruct IH as (Hm & Hf & Hp).
      assert (Hlt : (fitness (genome_at gs mj) <? fitness (genome_at gs m))%float = true).
      { destruct Hm as [->|Hm]; [exact E | exact (ltb_trans _ _ _ E Hm)]. }
      split; [right; exact Hlt|]. split.
      * constructor; [apply ltb_asym, Hlt | exact Hf].
      * rewrite <- Hp. apply perm_swap.
    + specialize (IH mj). destruct (sort_pass gs mj rest) as [m r].
      destruct IH as (Hm & Hf & Hp). split; [exact Hm|]. split.
      * apply Forall_cons in Hf. destruct Hf as [Hf1 Hf2].
        constructor; [exact Hf1|]. constructor; [|exact Hf2].
        destruct Hm as [->|Hm]; [exact E | exact (ltb_false_trans _ _ _ Hm E)].
      * rewrite (perm_swap mk mj rest), <- Hp. apply perm_swap.
Qed.

Lemma sort_members_perm gs n ms : Permutation (sort_members gs n ms) ms.
Proof.
  revert ms. induction n as [|n IH]; intros ms; [destruct ms; reflexivity|].
  destruct ms as [|mj rest]; [reflexivity|]. cbn [sort_members].
  pose proof (sort_pass_spec gs mj rest) as H.
  destruct (sort_pass gs mj rest) as [m r]. destruct H as (_ & _ & Hp).
  rewrite <- Hp. constructor. apply IH.
Qed.

Lemma sort_members_head gs ms e :
  head (sort_members gs (length ms - 1) ms) = Some e -> fittest_of gs e ms.
Proof.
  destruct ms as [|mj [|mk rest]]; [discriminate| |].
  - cbn. intros [= <-]. constructor; [apply ltb_irrefl | constructor].
  - cbn [length]. replace (S (S (length rest)) - 1)%nat with (S (length rest)) by lia.
    cbn [sort_members].
    pose proof (sort_pass_spec gs mj (mk :: rest)) as H.
    destruct (sort_pass gs mj (mk :: rest)) as [m r]. destruct H as (_ & Hf & _).
    cbn. intros [= <-]. exact Hf.
Qed.

Lemma carry_over_elites_sorted gs size ss new_genomes :
  let '(ss', _) := carry_over_elites gs size ss new_genomes in
  forall i sp, ss !! i = Some sp -> (length new_genomes + i < size)%nat ->
    ss' !! i
    = Some (species_with_members (sort_members gs (member_count sp - 1) (members sp)) sp).
Proof.
  revert new_genomes. induction ss as [|sp0 ss IH]; intros new_genomes;
    cbn [carry_over_elites]; [intros i sp H; discriminate|].
  destruct (Nat.ltb_spec (length new_genomes) size) as [Hl|Hl];
    [|intros i sp _ Hi; lia].
  set (ms := sort_members gs (member_count sp0 - 1) (members sp0)).
  set (new1 := match ms with
               | best :: _ => new_genomes ++ [neat_clone_genome (genome_at gs best)]
               | [] => new_genomes
               end).
  assert (Hn1 : (length new1 <= length new_genomes + 1)%nat).
  { unfold new1. destruct ms; [lia|]. rewrite length_app. cbn. lia. }
  specialize (IH new1). destruct (carry_over_elites gs size ss new1) as [ss'' new2].
  intros [|i] sp H Hi.
  - injection H as <-. reflexivity.
  - cbn. apply IH; [exact H | lia].
Qed.

(** Elitism in [neat_reproduce]: when the call returns, every species among
    the first [population_size] ones has the same members as before, in
    an order whose first entry is a member that no member exceeds in
    fitness; this first member is the one whose clone was carried over. *)
Theorem neat_reproduce_elites (M : libm) (fuel : nat) (pop pop' : neat_population_t)
    (seed seed' : Z) (i : nat) (sp : neat_species_t) :
  neat_reproduce M fuel pop seed = (Some pop', seed') ->
  species pop !! i = Some sp ->
  (i < population_size pop)%nat ->
  exists sp',
    species pop' !! i = Some sp'
    /\ Permutation (members sp') (members sp)
    /\ (forall e, head (members sp') = Some e -> fittest_of (genomes pop) e (members sp)).
Proof.
  unfold neat_reproduce. intros H Hsp Hi.
  pose proof (carry_over_elites_sorted (genomes pop) (population_size pop) (species pop) [])
    as Hc.
  destruct (carry_over_elites (genomes pop) (population_size pop) (species pop) [])
    as [ss elites].
  specialize (Hc i sp Hsp Hi).
  unfold bind in H.
  destruct (fill_offspring M fuel (genomes pop) ss _ _ _ elites seed) as [[[new t]|] seed1];
    [|discriminate].
  injection H as <- _.
  eexists. split; [exact Hc|]. cbn [members species_with_members].
  split; [apply sort_members_perm|].
  intros e He. apply sort_members_head. exact He.
Qed.

(** The species of [one_species_population]: genome 1 (fitness 2) comes
    first. *)
Lemma neat_reproduce_elites_witness :
  exists pop' seed' sp',
    neat_reproduce libm_at_zero 4 one_species_population 1 = (Some pop', seed')
    /\ species pop' !! 0%nat = Some sp'
    /\ Permutation (members sp') [0%nat; 1%nat]
    /\ (forall e, head (members sp') = Some e ->
          fittest_of (genomes one_species_population) e [0%nat; 1%nat]).
Proof.
  let r := eval vm_compute in (neat_reproduce libm_at_zero 4 one_species_population 1) in
  match r with
  | (Some ?p, ?s) =>
      assert (E : neat_reproduce libm_at_zero 4 one_species_population 1 = (Some p, s))
        by (vm_compute; reflexivity);
      destruct (neat_reproduce_elites libm_at_zero 4 one_species_population p 1 s 0%nat
                  (Species 1 [0%nat; 1%nat] 2.0 1.5 0 0 (Some 0%nat)) E eq_refl
                  ltac:(cbn; lia)) as (sp' & H1 & H2 & H3);
      exists p, s, sp'; split; [exact E|]; split; [exact H1|]; split; [exact H2 | exact H3]
  end.
Defined.

(** ** The innovation registry *)

Lemma registry_consistent_initial : registry_consistent neat_create_innovation_table.
Proof.
  split; [reflexivity|]. split; [constructor|]. intros r1 r2 [].
Qed.

Lemma innovation_matches_true i o k r :
  innovation_matches i o k r = true ->
  innov_in_node r = i /\ innov_out_node r = o /\ innov_is_new_node r = k.
Proof.
  unfold innovation_matches. rewrite !andb_true_iff, !Z.eqb_eq.
  intros [[H1 H2] H3]. apply Bool.eqb_prop in H3. auto.
Qed.

(** A request keeps the registry consistent; a request for a connection
    returns the number of a connection record with the requested
    endpoints, and no record is dropped. *)
Lemma get_innovation_record table i o k id w :
  registry_consistent table ->
  let '(n, table') := neat_get_innovation table i o k id w in
  registry_consistent table'
  /\ (forall x, In x (innovations table) -> In x (innovations table'))
  /\ (k = false ->
      exists r, In r (innovations table') /\ innov_is_new_node r = false
                /\ innov_in_node r = i /\ innov_out_node r = o
                /\ innov_innovation_number r = n).
Proof.
  intros (Hpos & Hall & Hinj). unfold neat_get_innovation.
  destruct (find _ (innovations table)) as [innov|] eqn:E.
  - apply find_some in E. destruct E as [Hin Hm].
    apply innovation_matches_true in Hm. destruct Hm as (H1 & H2 & H3).
    split; [split; [|split]; assumption|]. split; [auto|].
    intros ->. exists innov. auto.
  - assert (Hold : forall r, In r (innovations table) -> innov_is_new_node r = false ->
                     0 < innov_innovation_number r < next_innovation table).
    { intros r Hr. rewrite Forall_forall in Hall. apply Hall, list_elem_of_In, Hr. }
    destruct k; unfold registry_consistent; cbn [innovations next_innovation].
    + split; [split; [lia|split]|split].
      * apply Forall_app. split.
        -- eapply Forall_impl; [exact Hall|]. cbn beta. intros r Hr Hk. specialize (Hr Hk). lia.
        -- constructor; [discriminate|constructor].
      * intros r1 r2 H1 H2 K1 K2. apply in_app_or in H1, H2.
        destruct H1 as [H1|[<-|[]]]; [|discriminate].
        destruct H2 as [H2|[<-|[]]]; [|discriminate].
        apply Hinj; assumption.
      * intros x Hx. apply in_or_app. left. exact Hx.
      * discriminate.
    + split; [split; [lia|split]|split].
      * apply Forall_app. split.
        -- eapply Forall_impl; [exact Hall|]. cbn beta. intros r Hr Hk. specialize (Hr Hk). lia.
        -- constructor; [cbn; lia|constructor].
      * intros r1 r2 H1 H2 K1 K2 En. apply in_app_or in H1, H2.
        destruct H1 as [H1|[<-|[]]], H2 as [H2|[<-|[]]].
        -- apply Hinj; assumption.
        -- specialize (Hold r1 H1 K1). cbn in En. lia.
        -- specialize (Hold r2 H2 K2). cbn in En. lia.
        -- split; reflexivity.
      * intros x Hx. apply in_or_app. left. exact Hx.
      * intros _. eexists. split; [apply in_or_app; right; left; reflexivity|].
        cbn. auto.
Qed.

Lemma get_innovation_again table i o k id w id' w' :
  neat_get_innovation (snd (neat_get_innovation table i o k id w)) i o k id' w'
  = (fst (neat_get_innovation table i o k id w),
     snd (neat_get_innovation table i o k id w)).
Proof.
  unfold neat_get_innovation.
  destruct (find _ (innovations table)) as [innov|] eqn:E.
  - cbn [fst snd]. rewrite E. reflexivity.
  - destruct k; cbn [fst snd innovations];
      rewrite (find_app_last _ _ _ E (innovation_matches_refl _ _ _ _ _ _ _));
      reflexivity.
Qed.

(** Innovation numbers identify endpoints: in a consistent registry (the
    initial one is, and every request keeps it so), two requests for
    connections get the same number exactly when they name the same
    endpoints, and the numbers are positive, so never the value -1 that
    marks a connection without a number. *)
Theorem neat_get_innovation_distinct (table : neat_innovation_table_t)
    (i o id i' o' id' : Z) (w w' : double) :
  registry_consistent table ->
  let '(n, table1) := neat_get_innovation table i o false id w in
  let '(n', table2) := neat_get_innovation table1 i' o' false id' w' in
  registry_consistent table2
  /\ 0 < n /\ 0 < n'
  /\ (n = n' <-> i = i' /\ o = o').
Proof.
  intros Hc.
  pose proof (get_innovation_record table i o false id w Hc) as H1.
  pose proof (get_innovation_again table i o false id w id' w') as Ha.
  destruct (neat_get_innovation table i o false id w) as [n table1].
  destruct H1 as (Hc1 & _ & Hr1). destruct (Hr1 eq_refl) as (r1 & R1 & K1 & I1 & O1 & N1).
  cbn [fst snd] in Ha.
  pose proof (get_innovation_record table1 i' o' false id' w' Hc1) as H2.
  destruct (neat_get_innovation table1 i' o' false id' w') as [n' table2] eqn:E2.
  destruct H2 as (Hc2 & Hmono & Hr2).
  destruct (Hr2 eq_refl) as (r2 & R2 & K2 & I2 & O2 & N2).
  destruct Hc2 as (Hp2 & Hall2 & Hinj2).
  rewrite Forall_forall in Hall2.
  pose proof (Hall2 r1 (proj2 (list_elem_of_In _ _) (Hmono r1 R1)) K1) as B1.
  pose proof (Hall2 r2 (proj2 (list_elem_of_In _ _) R2) K2) as B2.
  split; [split; [exact Hp2|split]; [apply Forall_forall; exact Hall2 | exact Hinj2]|].
  split; [lia|]. split; [lia|]. split.
  - intros En. destruct (Hinj2 r1 r2 (Hmono r1 R1) R2 K1 K2 ltac:(lia)) as [Ei Eo].
    split; congruence.
  - intros [<- <-]. rewrite Ha in E2. injection E2 as <- _. reflexivity.
Qed.

(** Two requests against the initial registry. *)
Lemma neat_get_innovation_distinct_witness :
  let '(n, table1) := neat_get_innovation neat_create_innovation_table 0 2 false 0 0.5 in
  let '(n', table2) := neat_get_innovation table1 1 2 false 0 0.25 in
  registry_consistent table2
  /\ 0 < n /\ 0 < n'
  /\ (n = n' <-> 0 = 1 /\ 2 = 2).
Proof.
  apply (neat_get_innovation_distinct neat_create_innovation_table 0 2 0 1 2 0 0.5 0.25).
  exact registry_consistent_initial.
Defined.

(** ** The initial population *)

Lemma for_each_app {A S} (l l' : list A) (body : A -> S -> Rand S) (s : S) (seed : Z) :
  for_each (l ++ l') body s seed
  = (let '(s1, seed1) := for_each l body s seed in for_each l' body s1 seed1).
Proof.
  revert s seed. induction l as [|a l IH]; intros s seed; [reflexivity|].
  cbn [app for_each]. unfold bind. destruct (body a s seed) as [s1 seed1]. apply IH.
Qed.

Lemma for_each_map {A B S} (g : A -> B) (l : list A) (body : B -> S -> Rand S) (s : S)
    (seed : Z) :
  for_each (map g l) body s seed = for_each l (fun a => body (g a)) s seed.
Proof.
  revert s seed. induction l as [|a l IH]; intros s seed; [reflexivity|].
  cbn [map for_each]. unfold bind. destruct (body (g a) s seed) as [s1 seed1]. apply IH.
Qed.

Lemma for_each_list_prod {A B S} (l1 : list A) (l2 : list B) (f : A -> B -> S -> Rand S)
    (s : S) (seed : Z) :
  for_each l1 (fun a => for_each l2 (f a)) s seed
  = for_each (list_prod l1 l2) (fun p => f (fst p) (snd p)) s seed.
Proof.
  revert s seed. induction l1 as [|a l1 IH]; intros s seed; [reflexivity|].
  cbn [list_prod for_each]. rewrite for_each_app, for_each_map. cbn [fst snd].
  unfold bind.
  change (fun a0 : B => f a a0) with (f a).
  destruct (for_each l2 (f a) s seed) as [s1 seed1]. apply IH.
Qed.

Lemma NoDup_list_prod {A B} (l1 : list A) (l2 : list B) :
  NoDup l1 -> NoDup l2 -> NoDup (list_prod l1 l2).
Proof.
  intros H1 H2. induction H1 as [|a l1 Ha H1 IH]; [constructor|].
  cbn [list_prod]. apply NoDup_app. split; [|split; [|exact IH]].
  - apply (NoDup_fmap_2 (pair a));
      first [exact H2 | intros y y' [= ->]; reflexivity].
  - intros [x y] Hin Hin'. apply list_elem_of_In, in_map_iff in Hin.
    destruct Hin as (y' & [= <- <-] & _).
    apply list_elem_of_In, in_prod_iff in Hin'. apply Ha, list_elem_of_In, Hin'.
Qed.

Lemma initial_keys_NoDup input_size output_size :
  NoDup (initial_keys input_size output_size).
Proof.
  unfold initial_keys. apply (NoDup_fmap_2_strong (initial_endpoint input_size)).
  - intros [a b] [a' b'] _ _. unfold initial_endpoint. cbn. intros [= H1 H2].
    f_equal; lia.
  - apply NoDup_list_prod; apply NoDup_seq.
Qed.

Lemma numbered_links_app start keys keys' :
  numbered_links start (keys ++ keys')
  = numbered_links start keys ++ numbered_links (start + length keys) keys'.
Proof.
  revert start. induction keys as [|[i o] keys IH]; intros start; cbn [app numbered_links length].
  - rewrite Nat.add_0_r. reflexivity.
  - rewrite IH. rewrite Nat.add_succ_comm. reflexivity.
Qed.

Lemma numbered_links_keys start keys :
  map (fun l => (snd (fst (fst l)), snd (fst l))) (numbered_links start keys) = keys.
Proof.
  revert start. induction keys as [|[i o] keys IH]; intros start; [reflexivity|].
  cbn. rewrite IH. reflexivity.
Qed.

Lemma registry_find recs start keys k i o :
  map record_link recs = numbered_links start keys ->
  keys !! k = Some (i, o) ->
  (forall j, (j < k)%nat -> keys !! j <> Some (i, o)) ->
  exists r, find (innovation_matches i o false) recs = Some r
            /\ innov_innovation_number r = 2 * Z.of_nat (start + k) + 2.
Proof.
  revert recs start k. induction keys as [|[i0 o0] keys IH]; intros recs start k E Hk Hfirst;
    [discriminate|].
  destruct recs as [|r recs]; [discriminate|].
  cbn [map numbered_links] in E.
  pose proof (f_equal (hd (record_link r)) E) as Er. pose proof (f_equal (@tl _) E) as Es.
  cbn [hd tl] in Er, Es. clear E.
  unfold record_link in Er. injection Er as En Ei Eo Ek.
  apply negb_true_iff in Ek.
  cbn [find]. unfold innovation_matches at 1. rewrite Ei, Eo, Ek. cbn [Bool.eqb].
  rewrite andb_true_r.
  destruct k as [|k].
  - injection Hk as -> ->. rewrite !Z.eqb_refl. cbn. exists r. split; [reflexivity|].
    rewrite Nat.add_0_r. exact En.
  - assert (Hne : (i0 =? i) && (o0 =? o) = false).
    { apply not_true_iff_false. rewrite andb_true_iff, !Z.eqb_eq. intros [-> ->].
      apply (Hfirst 0%nat); [lia | reflexivity]. }
    rewrite Hne. destruct (IH recs (S start) k Es Hk) as (r' & Hr' & Hn').
    { intros j Hj. apply (Hfirst (S j)). lia. }
    exists r'. split; [exact Hr'|]. rewrite Hn'. f_equal. f_equal. lia.
Qed.

Lemma registry_find_none recs start keys i o :
  map record_link recs = numbered_links start keys ->
  ~ In (i, o) keys ->
  find (innovation_matches i o false) recs = None.
Proof.
  revert recs start. induction keys as [|[i0 o0] keys IH]; intros recs start E Hn.
  - destruct recs; [reflexivity|discriminate].
  - destruct recs as [|r recs]; [discriminate|].
    cbn [map numbered_links] in E.
    pose proof (f_equal (hd (record_link r)) E) as Er. pose proof (f_equal (@tl _) E) as Es.
    cbn [hd tl] in Er, Es. clear E.
    unfold record_link in Er. injection Er as En Ei Eo Ek.
    cbn [find]. unfold innovation_matches at 1. rewrite Ei, Eo.
    assert (Hne : (i0 =? i) && (o0 =? o) = false).
    { apply not_true_iff_false. rewrite andb_true_iff, !Z.eqb_eq. intros [-> ->].
      apply Hn. left. reflexivity. }
    rewrite Hne. cbn [andb]. apply (IH recs (S start) Es).
    intros Hin. apply Hn. right. exact Hin.
Qed.

Lemma lookup_registered table keys k i o id w :
  registry_holds table keys -> NoDup keys -> keys !! k = Some (i, o) ->
  neat_get_innovation table i o false id w = (2 * Z.of_nat k + 2, table).
Proof.
  intros [Hr _] Hd Hk. unfold neat_get_innovation.
  destruct (registry_find (innovations table) 0 keys k i o Hr Hk) as (r & -> & Hn).
  { intros j Hj Hj'. pose proof (NoDup_lookup _ _ _ _ Hd Hk Hj'). lia. }
  rewrite Hn. reflexivity.
Qed.

Lemma register_new table keys i o id w :
  registry_holds table keys -> ~ In (i, o) keys ->
  exists table',
    neat_get_innovation table i o false id w = (2 * Z.of_nat (length keys) + 2, table')
    /\ registry_holds table' (keys ++ [(i, o)]).
Proof.
  intros [Hr Hn] Hin. unfold neat_get_innovation.
  rewrite (registry_find_none _ 0 keys i o Hr Hin). cbv beta iota zeta.
  eexists. split; [f_equal; lia|].
  split; cbn [innovations next_innovation].
  - rewrite map_app, Hr, numbered_links_app. cbn. rewrite Hn.
    unfold record_link. cbn. do 5 f_equal. lia.
  - rewrite Hn, length_app. cbn [length]. lia.
Qed.

Lemma conn_links_fresh genome keys i o :
  conn_links genome = numbered_links 0 keys -> ~ In (i, o) keys ->
  connection_exists (connections genome) i o = false.
Proof.
  intros Hl Hin. apply connection_exists_Forall. apply Forall_forall.
  intros c Hc [Hi Ho]. apply Hin. rewrite <- (numbered_links_keys 0 keys), <- Hl.
  unfold conn_links. rewrite List.map_map. cbn [fst snd].
  apply in_map_iff. exists c. split; [congruence | apply list_elem_of_In, Hc].
Qed.

Lemma add_numbered_connection genome i o w n :
  connection_exists (connections genome) i o = false ->
  let g1 := snd (neat_add_connection genome i o w true) in
  let g2 := set_innovation_at (connection_count g1 - 1) n g1 in
  conn_links g2 = conn_links genome ++ [(n, i, o, true)]
  /\ nodes g2 = nodes genome
  /\ genome_id g2 = genome_id genome
  /\ evaluation_order g2 = None.
Proof.
  intros E. cbv zeta. rewrite (neat_add_connection_fresh genome i o w true E).
  unfold set_innovation_at, conn_links, connection_count.
  cbn [connections nodes genome_id evaluation_order genome_with_connections
       genome_with_evaluation_order].
  rewrite length_app. cbn [length]. rewrite Nat.add_sub.
  rewrite alter_app_r_alt by lia. rewrite Nat.sub_diag. cbn [alter list_alter].
  rewrite map_app. auto.
Qed.

Lemma connect_loop M input_size post pre genome table c :
  let all := map (initial_endpoint input_size) (pre ++ post) in
  NoDup all ->
  (length pre <= c <= length all)%nat ->
  registry_holds table (take c all) ->
  conn_links genome = numbered_links 0 (map (initial_endpoint input_size) pre) ->
  evaluation_order genome = None ->
  rand_post
    (fun r => conn_links (fst r) = numbered_links 0 all
              /\ registry_holds (snd r) all
              /\ nodes (fst r) = nodes genome
              /\ genome_id (fst r) = genome_id genome
              /\ evaluation_order (fst r) = None)
    (for_each post (fun p => connect_initial M input_size (fst p) (snd p)) (genome, table)).
Proof.
  revert pre genome table c. induction post as [|p post IH];
    intros pre genome table c all Hd Hc Hr Hl He.
  - apply rand_post_ret. cbn [fst snd]. unfold all in *. rewrite app_nil_r in *.
    rewrite take_ge in Hr by (rewrite length_map in *; lia). auto.
  - cbn [for_each].
    assert (Hall : all = map (initial_endpoint input_size) ((pre ++ [p]) ++ post)).
    { unfold all. rewrite <- app_assoc. reflexivity. }
    assert (Hk : all !! length pre = Some (initial_endpoint input_size p)).
    { unfold all. rewrite map_app. rewrite lookup_app_r by (rewrite length_map; lia).
      rewrite length_map, Nat.sub_diag. reflexivity. }
    assert (Hfresh : ~ In (initial_endpoint input_size p)
                       (map (initial_endpoint input_size) pre)).
    { intros Hin. apply list_elem_of_In, list_elem_of_lookup in Hin. destruct Hin as [j Hj].
      assert (Hj' : all !! j = Some (initial_endpoint input_size p)).
      { unfold all. rewrite map_app. apply lookup_app_l_Some. exact Hj. }
      pose proof (NoDup_lookup _ _ _ _ Hd Hk Hj') as Ej.
      apply lookup_lt_Some in Hj. rewrite length_map in Hj. lia. }
    apply rand_post_bind
      with (P := fun r =>
                   conn_links (fst r)
                   = numbered_links 0 (map (initial_endpoint input_size) (pre ++ [p]))
                   /\ (exists c', (length (pre ++ [p]) <= c' <= length all)%nat
                                  /\ registry_holds (snd r) (take c' all))
                   /\ nodes (fst r) = nodes genome
                   /\ genome_id (fst r) = genome_id genome
                   /\ evaluation_order (fst r) = None).
    + unfold connect_initial. cbv zeta. apply rand_post_draw. intros weight.
      pose proof (add_numbered_connection genome (Z.of_nat (fst p))
                    (Z.of_nat (input_size + 1 + snd p)) weight) as Hadd.
      specialize (fun n => Hadd n (conn_links_fresh genome _ _ _ Hl Hfresh)).
      cbv zeta in Hadd.
      assert (Hnum : exists table' c',
                 neat_get_innovation table (Z.of_nat (fst p))
                   (Z.of_nat (input_size + 1 + snd p)) false 0 weight
                 = (2 * Z.of_nat (length pre) + 2, table')
                 /\ (length (pre ++ [p]) <= c' <= length all)%nat
                 /\ registry_holds table' (take c' all)).
      { destruct (Nat.eq_dec c (length pre)) as [->|Hne].
        - destruct (register_new table (take (length pre) all) (Z.of_nat (fst p))
                      (Z.of_nat (input_size + 1 + snd p)) 0 weight Hr) as (table' & E & Hr').
          { unfold all. rewrite map_app, take_app_length'; [exact Hfresh|].
            rewrite length_map. reflexivity. }
          exists table', (S (length pre)).
          rewrite length_take, Nat.min_l in E by lia.
          split; [exact E|]. rewrite length_app. cbn [length]. split.
          + apply lookup_lt_Some in Hk. lia.
          + rewrite (take_S_r _ _ _ Hk). exact Hr'.
        - exists table, c. split; [|split; [rewrite length_app; cbn [length]; lia | exact Hr]].
          apply (lookup_registered table (take c all) (length pre)); [exact Hr| |].
          + pose proof Hd as Hd'. rewrite <- (take_drop c all) in Hd'.
            apply NoDup_app in Hd'. exact (proj1 Hd').
          + rewrite lookup_take_lt by lia. exact Hk. }
      destruct Hnum as (table' & c' & E & Hc' & Hr'). rewrite E.
      specialize (Hadd (2 * Z.of_nat (length pre) + 2)).
      destruct Hadd as (A1 & A2 & A3 & A4).
      apply rand_post_ret. cbn [fst snd].
      split; [|split; [exists c'; auto | auto]].
      rewrite A1, Hl, map_app, numbered_links_app. cbn. rewrite length_map.
      reflexivity.
    + intros [g1 t1] (B1 & (c' & Hc' & Hr') & B3 & B4 & B5). cbn [fst snd] in *.
      eapply rand_post_weaken; [|apply (IH (pre ++ [p]) g1 t1 c')].
      * cbn beta. intros r (R1 & R2 & R3 & R4 & R5). rewrite <- Hall in R1, R2.
        split; [exact R1|]. split; [exact R2|]. split; [congruence|]. split; [congruence|].
        exact R5.
      * rewrite <- Hall. exact Hd.
      * rewrite <- Hall. exact Hc'.
      * rewrite <- Hall. exact Hr'.
      * exact B1.
      * exact B5.
Qed.

Lemma add_nodes_loop M {A} (l : list A) type placement genome :
  rand_post
    (fun g' =>
       map node_frame (nodes g')
       = map node_frame (nodes genome)
         ++ map (fun k => (Z.of_nat k, type, placement, 0))
              (seq (node_count genome) (length l))
       /\ genome_with_nodes [] g' = genome_with_nodes [] genome)
    (for_each l
       (fun _ genome => let* (_, genome) := neat_add_node M genome type placement in ret genome)
       genome).
Proof.
  revert genome. induction l as [|a l IH]; intros genome; cbn [for_each length seq map].
  - apply rand_post_ret. rewrite app_nil_r. auto.
  - apply rand_post_bind
      with (P := fun g1 => exists bias,
                   g1 = genome_with_nodes
                          (nodes genome
                           ++ [Node (Z.of_nat (node_count genome)) type placement
                                 NEAT_ACTIVATION_SIGMOID 0 bias true 0]) genome).
    + apply rand_post_bind with (1 := neat_add_node_post M genome type placement).
      intros [id g1] (bias & E). injection E as -> ->. apply rand_post_ret.
      exists bias. reflexivity.
    + intros g1 (bias & ->). eapply rand_post_weaken; [|apply IH].
      cbn beta. intros g' [F S]. unfold node_count in *.
      cbn [nodes genome_with_nodes] in F. rewrite length_app, map_app in F.
      cbn [length map] in F. rewrite Nat.add_1_r, <- app_assoc in F.
      split; [exact F | exact S].
Qed.

Lemma initial_frames_ids input_size output_size :
  map (fun fr => fst (fst (fst fr))) (initial_frames input_size output_size)
  = map Z.of_nat (seq 0 (input_size + 1 + output_size)).
Proof.
  unfold initial_frames. rewrite !map_app, !List.map_map. cbn [map fst].
  rewrite !List.seq_app, !map_app. cbn [seq map]. rewrite <- app_assoc.
  rewrite Nat.add_0_l. reflexivity.
Qed.

Lemma initial_layout_well_formed input_size output_size genome :
  initial_layout input_size output_size genome -> well_formed genome.
Proof.
  intros (Hf & Hl & _).
  assert (Hids : map node_id (nodes genome)
                 = map Z.of_nat (seq 0 (input_size + 1 + output_size))).
  { rewrite <- initial_frames_ids, <- Hf, List.map_map. reflexivity. }
  assert (Hcount : node_count genome = (input_size + 1 + output_size)%nat).
  { unfold node_count. rewrite <- (length_map node_id), Hids, length_map, length_seq.
    reflexivity. }
  assert (Hep : endpoints genome = initial_keys input_size output_size).
  { rewrite <- (numbered_links_keys 0 (initial_keys input_size output_size)), <- Hl.
    unfold conn_links, endpoints. rewrite List.map_map. reflexivity. }
  split; [|split; [|split]].
  - intros j n Hn.
    assert (Hj : map node_id (nodes genome) !! j = Some (node_id n)).
    { rewrite (list_lookup_fmap node_id). rewrite Hn. reflexivity. }
    rewrite Hids in Hj. rewrite (list_lookup_fmap Z.of_nat) in Hj.
    destruct (seq 0 (input_size + 1 + output_size) !! j) as [k|] eqn:Ek; [|discriminate].
    apply lookup_seq in Ek. injection Hj as <-. f_equal. lia.
  - unfold x_pos_unset.
    assert (Hx : Forall (fun fr => snd fr = 0) (map node_frame (nodes genome))).
    { rewrite Hf. unfold initial_frames. rewrite !Forall_app. repeat split.
      - apply List.Forall_map. apply Forall_forall. reflexivity.
      - constructor; [reflexivity|constructor].
      - apply List.Forall_map. apply Forall_forall. reflexivity. }
    apply List.Forall_map in Hx. exact Hx.
  - apply endpoints_in_range_alt. rewrite Hep, Hcount. unfold initial_keys.
    apply List.Forall_map. apply Forall_forall. intros [a b] Hin.
    apply list_elem_of_In, in_prod_iff in Hin. destruct Hin as [Ha Hb].
    apply in_seq in Ha, Hb. unfold initial_endpoint. cbn [fst snd]. lia.
  - rewrite Hep. apply initial_keys_NoDup.
Qed.

Lemma initial_genome_post M input_size output_size i table c :
  (c <= length (initial_keys input_size output_size))%nat ->
  registry_holds table (take c (initial_keys input_size output_size)) ->
  rand_post
    (fun r => initial_layout input_size output_size (fst r)
              /\ genome_id (fst r) = Z.of_nat i
              /\ registry_holds (snd r) (initial_keys input_size output_size))
    (initial_genome M input_size output_size i table).
Proof.
  intros Hc Hr. unfold initial_genome. cbv zeta.
  apply rand_post_bind with (1 := add_nodes_loop M _ _ _ _).
  intros g1 [F1 S1]. unfold node_count in F1. cbn [nodes neat_create_genome length app map] in F1.
  rewrite length_seq in F1.
  apply rand_post_bind with (1 := neat_add_node_post M g1 _ _).
  intros [id g2] (bias & E). injection E as -> ->.
  apply rand_post_bind with (1 := add_nodes_loop M _ _ _ _).
  intros g3 [F3 S3]. unfold node_count in F3. cbn [nodes genome_with_nodes] in F3.
  rewrite length_seq, map_app, length_app, F1 in F3. cbn [map length node_frame] in F3.
  rewrite <- (length_map node_frame (nodes g1)), F1, length_map, length_seq in F3.
  assert (Hs : genome_with_nodes [] g3 = neat_create_genome (Z.of_nat i)).
  { rewrite S3. cbn. change (genome_with_nodes [] g1 = neat_create_genome (Z.of_nat i)).
    rewrite S1. reflexivity. }
  assert (Hl3 : conn_links g3 = numbered_links 0 (map (initial_endpoint input_size) [])).
  { change (conn_links (genome_with_nodes [] g3) = []). rewrite Hs. reflexivity. }
  assert (He3 : evaluation_order g3 = None).
  { change (evaluation_order (genome_with_nodes [] g3) = None). rewrite Hs. reflexivity. }
  assert (Hi3 : genome_id g3 = Z.of_nat i).
  { change (genome_id (genome_with_nodes [] g3) = Z.of_nat i). rewrite Hs. reflexivity. }
  intros seed. rewrite for_each_list_prod.
  pose proof (connect_loop M input_size
                (list_prod (seq 0 (input_size + 1)) (seq 0 output_size)) [] g3 table c) as H.
  cbv zeta in H. cbn [app length] in H.
  fold (initial_keys input_size output_size) in H.
  specialize (H (initial_keys_NoDup _ _) ltac:(lia) Hr Hl3 He3 seed).
  destruct H as (R1 & R2 & R3 & R4 & R5).
  split; [|split; [congruence | exact R2]].
  split; [|split; [exact R1 | exact R5]].
  rewrite R3, F3. unfold initial_frames. rewrite <- app_assoc. reflexivity.
Qed.

Lemma initial_genomes_loop M input_size output_size l gs table c :
  (c <= length (initial_keys input_size output_size))%nat ->
  registry_holds table (take c (initial_keys input_size output_size)) ->
  Forall (initial_layout input_size output_size) gs ->
  rand_post
    (fun r => Forall (initial_layout input_size output_size) (fst r)
              /\ map genome_id (fst r) = map genome_id gs ++ map Z.of_nat l
              /\ registry_holds (snd r)
                   (take (match l with
                          | [] => c
                          | _ :: _ => length (initial_keys input_size output_size)
                          end)
                      (initial_keys input_size output_size)))
    (for_each l
       (fun i '(gs, table) =>
          let* (genome, table) := initial_genome M input_size output_size i table in
          ret (gs ++ [genome], table))
       (gs, table)).
Proof.
  revert gs table c. induction l as [|i l IH]; intros gs table c Hc Hr Hg; cbn [for_each].
  - apply rand_post_ret. cbn [fst snd map]. rewrite app_nil_r. auto.
  - apply rand_post_bind
      with (P := fun r => Forall (initial_layout input_size output_size) (fst r)
                          /\ map genome_id (fst r) = map genome_id gs ++ [Z.of_nat i]
                          /\ registry_holds (snd r) (initial_keys input_size output_size)).
    + apply rand_post_bind
        with (1 := initial_genome_post M input_size output_size i table c Hc Hr).
      intros [genome table'] (L & I & R). cbn [fst snd] in *. apply rand_post_ret.
      cbn [fst snd]. split; [|split; [|exact R]].
      * apply Forall_app. split; [exact Hg|]. constructor; [exact L|constructor].
      * rewrite map_app. cbn [map]. rewrite I. reflexivity.
    + intros [gs1 table1] (G1 & I1 & R1). cbn [fst snd] in *.
      eapply rand_post_weaken;
        [|apply (IH gs1 table1 (length (initial_keys input_size output_size)));
          [lia | rewrite take_ge by lia; exact R1 | exact G1]].
      cbn beta. intros r (G & I & R). split; [exact G|]. split.
      * rewrite I, I1, <- app_assoc. reflexivity.
      * destruct l; exact R.
Qed.

Lemma create_population_post (M : libm)
    (input_size output_size size : nat) (seed : Z) :
  let pop := fst (neat_create_population M input_size output_size size seed) in
  genome_count pop = size
  /\ population_size pop = size
  /\ generation pop = 0
  /\ map genome_id (genomes pop) = map Z.of_nat (seq 0 size)
  /\ Forall (fun g => initial_layout input_size output_size g /\ well_formed g) (genomes pop)
  /\ (size <> 0%nat ->
      registry_holds (innovation_table pop) (initial_keys input_size output_size)).
Proof.
  intros pop.
  assert (E : exists gs table,
             pop = neat_speciate
                     (Population gs [] table size 0 (double_to_int (-1e10)) None)
             /\ Forall (initial_layout input_size output_size) gs
             /\ map genome_id gs = map Z.of_nat (seq 0 size)
             /\ registry_holds table
                  (take (match seq 0 size with
                         | [] => 0%nat
                         | _ :: _ => length (initial_keys input_size output_size)
                         end) (initial_keys input_size output_size))).
  { subst pop. unfold neat_create_population, initial_genomes.
    pose proof (initial_genomes_loop M input_size output_size (seq 0 size)
                  [] neat_create_innovation_table 0 ltac:(lia)) as H.
    specialize (H ltac:(split; reflexivity) ltac:(constructor) seed).
    unfold bind at 1.
    destruct (for_each (seq 0 size) _ ([], neat_create_innovation_table) seed)
      as [[gs table] seed1].
    exists gs, table. split; [reflexivity | exact H]. }
  clearbody pop. destruct E as (gs & table & -> & G & I & R).
  set (pop0 := Population gs [] table size 0 (double_to_int (-1e10)) None).
  destruct (speciate_post pop0) as (Eg & _).
  assert (Hrest : population_size (neat_speciate pop0) = size
                  /\ generation (neat_speciate pop0) = 0
                  /\ innovations (innovation_table (neat_speciate pop0)) = innovations table
                  /\ next_innovation (innovation_table (neat_speciate pop0))
                     = next_innovation table).
  { unfold neat_speciate. cbn [genomes pop0]. destruct gs; [cbn; auto|].
    destruct (speciate_genomes _ _ _ _). cbn. auto. }
  destruct Hrest as (Hp & Hgen & Hin & Hnx).
  unfold genome_count. rewrite Eg. cbn [genomes pop0].
  split; [|split; [exact Hp|split; [exact Hgen|split; [exact I|split]]]].
  - rewrite <- (length_map genome_id), I, length_map, length_seq. reflexivity.
  - eapply Forall_impl; [exact G|]. cbn beta. intros g Hg.
    split; [exact Hg | exact (initial_layout_well_formed _ _ _ Hg)].
  - intros Hne. unfold registry_holds. rewrite Hin, Hnx.
    destruct (seq 0 size) eqn:Es.
    + destruct size; [contradiction|discriminate].
    + rewrite take_ge in R by lia. exact R.
Qed.

(** [neat_create_population] builds [population_size] genomes with the ids
    0, 1, ...; every genome has the input nodes, then the bias node, then
    the output nodes, numbered by position, and one enabled connection from
    every input and the bias to every output.  All genomes carry the same
    innovation numbers on the same connections: the k-th connection in
    the order of construction has the number [2 * k + 2], and the registry
    holds exactly these records.  Every genome is well formed and has no
    cached evaluation order. *)
Theorem neat_create_population_layout (M : libm)
    (input_size output_size size : nat) (seed : Z) :
  let pop := fst (neat_create_population M input_size output_size size seed) in
  genome_count pop = size
  /\ population_size pop = size
  /\ generation pop = 0
  /\ map genome_id (genomes pop) = map Z.of_nat (seq 0 size)
  /\ Forall (fun g => initial_layout input_size output_size g /\ well_formed g) (genomes pop)
  /\ (size <> 0%nat ->
      registry_holds (innovation_table pop) (initial_keys input_size output_size)).
Proof. exact (create_population_post M input_size output_size size seed). Qed.

(** ** The activation functions of the public interface *)

Lemma SFopp_binary_round_aux s m e l :
  SFopp (binary_round_aux prec emax s m e l) = binary_round_aux prec emax (negb s) m e l.
Proof.
  unfold binary_round_aux.
  destruct (shr_fexp prec emax m e l) as [mrs' e'].
  destruct (shr_fexp prec emax _ e' loc_Exact) as [mrs'' e''].
  destruct (shr_m mrs''); try reflexivity.
  destruct (e'' <=? emax - prec); reflexivity.
Qed.

(** [(-a) * b == -(a * b)], bit for bit. *)
Lemma mul_opp_l (a b : double) : (- a * b)%float = (- (a * b))%float.
Proof.
  apply Prim2SF_inj. rewrite opp_spec, !mul_spec, opp_spec. unfold SF64mul.
  destruct (Prim2SF a) as [sa|sa| |sa ma ea], (Prim2SF b) as [sb|sb| |sb mb eb];
    cbn [SFmul SFopp]; try reflexivity;
    try (destruct sa, sb; reflexivity).
  rewrite SFopp_binary_round_aux. destruct sa, sb; reflexivity.
Qed.

(** The function that [neat_get_activation_function] returns for a kind
    computes what the evaluator applies to a node of that kind, except for
    the sigmoid: [neat_sigmoid] is the evaluator's sigmoid at [4.9 * x]. *)
Theorem neat_get_activation_function_agrees (M : libm) (type : neat_activation_type_t)
    (x : double) :
  neat_get_activation_function M type x
  = match type with
    | NEAT_ACTIVATION_SIGMOID => neat_activation M NEAT_ACTIVATION_SIGMOID (4.9 * x)
    | _ => neat_activation M type x
    end.
Proof.
  destruct type; try reflexivity.
  cbn [neat_get_activation_function neat_activation]. unfold neat_sigmoid.
  change (-4.9)%float with (PrimFloat.opp 4.9%float). rewrite mul_opp_l. reflexivity.
Qed.

(** ** The range of the uniform draws *)

(** [neat_random_uniform 0 1] is not confined to the interval from 0 to 1:
    the generator state is an [unsigned long] of 64 bits and is scaled by
    [UINT32_MAX].  From the state 270369 (the state after the first draw
    from the default seed 1) the value drawn is above 16. *)
Theorem neat_random_uniform_exceeds_one :
  ~ (forall seed, 0 <= seed < 2 ^ ULONG_BITS ->
       (fst (neat_random_uniform 0 1 seed) <=? 1)%float = true)
  /\ snd (neat_random_uniform 0 1 1) = 270369
  /\ (16 <? fst (neat_random_uniform 0 1 270369%Z))%float = true.
Proof.
  split; [|split; vm_compute; reflexivity].
  intros H. specialize (H 270369 ltac:(unfold ULONG_BITS; lia)).
  vm_compute in H. discriminate.
Qed.

(** ** Initial genomes are evaluable *)

Lemma filter_map_length {A B} (f : A -> B) (Q : B -> bool) (l : list A) :
  length (List.filter (fun x => Q (f x)) l) = length (List.filter Q (map f l)).
Proof.
  induction l as [|a l IH]; [reflexivity|]. cbn. destruct (Q (f a)); cbn; rewrite IH; reflexivity.
Qed.

Lemma filter_map_const {A B} (h : A -> B) (Q : B -> bool) (b : bool) (l : list A) :
  (forall k, Q (h k) = b) ->
  List.filter Q (map h l) = if b then map h l else [].
Proof.
  intros H. induction l as [|a l IH]; [destruct b; reflexivity|].
  cbn. rewrite H, IH. destruct b; reflexivity.
Qed.

Lemma initial_layout_counts input_size output_size genome :
  initial_layout input_size output_size genome ->
  input_node_count genome = input_size /\ output_node_count genome = output_size.
Proof.
  intros (Hf & _ & _). unfold input_node_count, output_node_count. split.
  - rewrite (filter_map_length node_frame (fun fr => is_input (snd (fst (fst fr))))), Hf.
    unfold initial_frames. rewrite !List.filter_app.
    rewrite (filter_map_const _ _ true) by reflexivity.
    rewrite (filter_map_const _ _ false) by reflexivity.
    cbn. rewrite app_nil_r, length_map, length_seq. reflexivity.
  - rewrite (filter_map_length node_frame (fun fr => is_output (snd (fst (fst fr))))), Hf.
    unfold initial_frames. rewrite !List.filter_app.
    rewrite (filter_map_const _ _ false) by reflexivity.
    rewrite (filter_map_const _ _ true) by reflexivity.
    cbn. rewrite length_map, length_seq. reflexivity.
Qed.

(** Every genome of a population made by [neat_create_population] can be
    evaluated on an input vector with an entry for each input: the call
    stays within its arrays and writes one output per output node (at
    most [NEAT_MAX_OUTPUTS]), and it leaves the connections alone. *)
Theorem neat_create_population_evaluable (M : libm) (input_size output_size size : nat)
    (seed : Z) (j : nat) (genome : neat_genome_t) (inputs : list double) :
  genomes (fst (neat_create_population M input_size output_size size seed)) !! j
  = Some genome ->
  (input_size <= length inputs)%nat ->
  exists genome' outputs,
    neat_evaluate M genome inputs = Some (genome', outputs)
    /\ length outputs = Nat.min NEAT_MAX_OUTPUTS output_size
    /\ connections genome' = connections genome.
Proof.
  intros Hj Hi.
  destruct (create_population_post M input_size output_size size seed)
    as (_ & _ & _ & _ & Hall & _).
  pose proof (Forall_lookup_1 _ _ _ _ Hall Hj) as [Hl Hw]. cbn beta in Hl, Hw.
  destruct (initial_layout_counts _ _ _ Hl) as [Hin Hout].
  destruct (evaluate_defined M genome inputs) as (genome' & outputs & E & _ & Hc & Ho & _).
  - apply Hw.
  - unfold evaluation_order_in_range. destruct Hl as (_ & _ & ->). exact I.
  - rewrite Hin. exact Hi.
  - exists genome', outputs. rewrite Hout in Ho. auto.
Qed.

(** The one genome of a population with one input and one output. *)
Lemma neat_create_population_evaluable_witness :
  exists genome genome' outputs,
    genomes (fst (neat_create_population libm_at_zero 1 1 1 1)) !! 0%nat = Some genome
    /\ neat_evaluate libm_at_zero genome [1.0%float] = Some (genome', outputs)
    /\ length outputs = 1%nat.
Proof.
  let r := eval vm_compute in
    (genomes (fst (neat_create_population libm_at_zero 1 1 1 1)) !! 0%nat) in
  match r with
  | Some ?g =>
      assert (E : genomes (fst (neat_create_population libm_at_zero 1 1 1 1)) !! 0%nat
                  = Some g) by (vm_compute; reflexivity);
      destruct (neat_create_population_evaluable libm_at_zero 1 1 1 1 0 g [1.0%float] E
                  ltac:(cbn; lia)) as (g' & o & H1 & H2 & _);
      exists g, g', o; split; [exact E|]; split; [exact H1 | exact H2]
  end.
Defined.

(** ** One generation *)

Lemma evolve_prepare_fields pop :
  generation (evolve_prepare pop) = generation pop
  /\ evaluate_genome (evolve_prepare pop) = evaluate_genome pop.
Proof.
  unfold evolve_prepare. cbn [generation evaluate_genome pop_with_genomes].
  assert (H : forall p, generation (neat_speciate p) = generation p
                        /\ evaluate_genome (neat_speciate p) = evaluate_genome p).
  { intros p. unfold neat_speciate. destruct (genomes p); [split; reflexivity|].
    destruct (speciate_genomes _ _ _ _). split; reflexivity. }
  destruct (evaluate_genome pop) as [f|] eqn:E.
  - destruct (evaluate_all f (genomes pop) (max_fitness_achieved pop)) as [gs m].
    destruct (H (pop_with_max_fitness m (pop_with_genomes gs pop))) as [-> ->].
    cbn. auto.
  - destruct (H pop) as [-> ->]. auto.
Qed.

(** Whenever [neat_evolve] returns, the generation counter has advanced by
    exactly one, and the target size and the fitness callback of the
    population are the ones it had. *)
Theorem neat_evolve_generation (M : libm) (fuel : nat) (pop pop' : neat_population_t)
    (seed seed' : Z) :
  neat_evolve M fuel pop seed = (Some pop', seed') ->
  generation pop' = generation pop + 1
  /\ population_size pop' = population_size pop
  /\ evaluate_genome pop' = evaluate_genome pop.
Proof.
  unfold neat_evolve. intros H.
  destruct (neat_remove_stale_species fuel (evolve_prepare pop)) as [p1|] eqn:E1;
    [|discriminate].
  unfold neat_remove_stale_species in E1.
  destruct (stale_loop _ _ _ _) as [[ss m]|]; [|discriminate].
  injection E1 as <-.
  set (p2 := neat_remove_weak_species _) in H.
  assert (F : generation p2 = generation pop
              /\ population_size p2 = population_size pop
              /\ evaluate_genome p2 = evaluate_genome pop).
  { destruct (evolve_prepare_fields pop) as [Hg He].
    pose proof (evolve_prepare_population_size pop) as Hp.
    subst p2. unfold neat_remove_weak_species, pop_with_species, pop_with_max_fitness.
    cbn. auto. }
  clearbody p2. destruct F as (Fg & Fp & Fe).
  unfold neat_reproduce in H.
  destruct (carry_over_elites _ _ _ _) as [ss' elites].
  unfold bind in H.
  destruct (fill_offspring _ _ _ _ _ _ _ _ _) as [[[new_genomes table]|] seed1];
    unfold ret in H; [|discriminate].
  injection H as <- _. cbn. rewrite Fg. auto.
Qed.

(** The generation that ends in [unit_scored_population]. *)
Lemma neat_evolve_generation_witness :
  exists pop' seed',
    neat_evolve libm_at_zero 4 unit_scored_population 1 = (Some pop', seed')
    /\ generation pop' = generation unit_scored_population + 1
    /\ population_size pop' = population_size unit_scored_population
    /\ evaluate_genome pop' = evaluate_genome unit_scored_population.
Proof.
  let r := eval vm_compute in (neat_evolve libm_at_zero 4 unit_scored_population 1) in
  match r with
  | (Some ?p, ?s) =>
      assert (E : neat_evolve libm_at_zero 4 unit_scored_population 1 = (Some p, s))
        by (vm_compute; reflexivity);
      exists p, s; split;
        [ exact E
        | exact (neat_evolve_generation libm_at_zero 4 unit_scored_population p 1 s E) ]
  end.
Defined.
